(** * Scope analysis of python_minifier.rename: a shallow embedding

    The development follows the layout of the package:

    - [namespace.py]          the [Namespace] objects;
    - [rename/util.py]        [get_global_namespace], [get_nonlocal_namespace],
                              [arg_rename_in_place];
    - [resolve_names.py]      [get_binding];
    - [add_parent.py]         [add_parent];
    - [create_namespaces.py]  [create_child_namespaces] and its helpers;
    - [suite_transformer.py]  [NodeVisitor.visit_Constant].

    Python objects are mutable and shared.  Namespaces live in an arena
    (a list indexed by creation order) and are referred to by index; the
    attributes that the passes attach to syntax nodes ([parent],
    [namespace]) are slots of the node, and a pass returns the tree with
    its slots filled in.  Exceptions are the [Raise] results of a small
    state-and-error monad. *)

From stdpp Require Import base option list strings gmap.
From Stdlib Require Import ZArith SpecFloat.
From Stdlib Require Import Lia.

Set Warnings "-register-all".

Open Scope string_scope.
Open Scope list_scope.
Open Scope nat_scope.

(** ** References to syntax nodes *)

(** A reference to an [ast.AST] object: the identity of the object and the
    name of its class, which is all that [isinstance] looks at. *)
Record node_ref := NodeRef { ref_id : nat; ref_class : string }.

Global Instance node_ref_eq_dec : EqDecision node_ref.
Proof. solve_decision. Defined.

(** ** Bindings *)

(** Modelled from the spec: [binding.py] is not among the sources.  A binding
    has a name, an ordered list of references and a rename-allowed flag that
    starts true and can only be turned off.  [NameBinding] and
    [BuiltinBinding] are the two classes that [get_binding] instantiates. *)
Inductive binding_class := NameBinding | BuiltinBinding.

Global Instance binding_class_eq_dec : EqDecision binding_class.
Proof. solve_decision. Defined.

Record Binding := mkBinding {
  b_class : binding_class;
  b_name : string;
  allow_rename : bool;
  references : list node_ref
}.

Definition new_binding (c : binding_class) (name : string) : Binding :=
  {| b_class := c; b_name := name; allow_rename := true; references := [] |}.

Definition disallow_rename (b : Binding) : Binding :=
  {| b_class := b_class b; b_name := b_name b; allow_rename := false;
     references := references b |}.

Definition add_reference (r : node_ref) (b : Binding) : Binding :=
  {| b_class := b_class b; b_name := b_name b; allow_rename := allow_rename b;
     references := references b ++ [r] |}.

(** ** Namespaces (namespace.py) *)

Inductive ns_class :=
  ModuleNamespace | AnnotationNamespace | FunctionNamespace | ClassNamespace.

Global Instance ns_class_eq_dec : EqDecision ns_class.
Proof. solve_decision. Defined.

(** The attributes set by [Namespace.__init__], plus [tainted]: an instance
    attribute that does not exist until some code assigns to it
    ([None] here), as [get_binding] does. *)
Record Namespace := mkNamespace {
  ns_kind : ns_class;
  name : string;
  node : node_ref;
  parent_namespace : option nat;
  bindings : list Binding;
  global_names : gset string;
  nonlocal_names : gset string;
  children : list nat;
  _tainted : bool;
  assigned_names : gset string;
  tainted : option bool
}.

(** [Namespace.__init__] *)
Definition Namespace_init (c : ns_class) (n : node_ref) (nm : string) : Namespace :=
  {| ns_kind := c; name := nm; node := n; parent_namespace := None;
     bindings := []; global_names := ∅; nonlocal_names := ∅; children := [];
     _tainted := false; assigned_names := ∅; tainted := None |}.

(** [ModuleNamespace.__init__]: asserts that the node is a [Module]. *)
Definition ModuleNamespace_init (n : node_ref) : option Namespace :=
  if decide (ref_class n = "Module")
  then Some (Namespace_init ModuleNamespace n EmptyString) else None.

Definition set_parent_namespace (p : nat) (N : Namespace) : Namespace :=
  {| ns_kind := ns_kind N; name := name N; node := node N;
     parent_namespace := Some p; bindings := bindings N;
     global_names := global_names N; nonlocal_names := nonlocal_names N;
     children := children N; _tainted := _tainted N;
     assigned_names := assigned_names N; tainted := tainted N |}.

Definition append_child (c : nat) (N : Namespace) : Namespace :=
  {| ns_kind := ns_kind N; name := name N; node := node N;
     parent_namespace := parent_namespace N; bindings := bindings N;
     global_names := global_names N; nonlocal_names := nonlocal_names N;
     children := children N ++ [c]; _tainted := _tainted N;
     assigned_names := assigned_names N; tainted := tainted N |}.

Definition append_binding (b : Binding) (N : Namespace) : Namespace :=
  {| ns_kind := ns_kind N; name := name N; node := node N;
     parent_namespace := parent_namespace N; bindings := bindings N ++ [b];
     global_names := global_names N; nonlocal_names := nonlocal_names N;
     children := children N; _tainted := _tainted N;
     assigned_names := assigned_names N; tainted := tainted N |}.

Definition update_global_names (names : list string) (N : Namespace) : Namespace :=
  {| ns_kind := ns_kind N; name := name N; node := node N;
     parent_namespace := parent_namespace N; bindings := bindings N;
     global_names := global_names N ∪ list_to_set names;
     nonlocal_names := nonlocal_names N;
     children := children N; _tainted := _tainted N;
     assigned_names := assigned_names N; tainted := tainted N |}.

Definition update_nonlocal_names (names : list string) (N : Namespace) : Namespace :=
  {| ns_kind := ns_kind N; name := name N; node := node N;
     parent_namespace := parent_namespace N; bindings := bindings N;
     global_names := global_names N;
     nonlocal_names := nonlocal_names N ∪ list_to_set names;
     children := children N; _tainted := _tainted N;
     assigned_names := assigned_names N; tainted := tainted N |}.

(** [Namespace.taint]: sets [_tainted]. *)
Definition taint (N : Namespace) : Namespace :=
  {| ns_kind := ns_kind N; name := name N; node := node N;
     parent_namespace := parent_namespace N; bindings := bindings N;
     global_names := global_names N; nonlocal_names := nonlocal_names N;
     children := children N; _tainted := true;
     assigned_names := assigned_names N; tainted := tainted N |}.

(** The assignment [namespace.tainted = True]: sets the attribute [tainted]. *)
Definition set_tainted (N : Namespace) : Namespace :=
  {| ns_kind := ns_kind N; name := name N; node := node N;
     parent_namespace := parent_namespace N; bindings := bindings N;
     global_names := global_names N; nonlocal_names := nonlocal_names N;
     children := children N; _tainted := _tainted N;
     assigned_names := assigned_names N; tainted := Some true |}.

(** The property [Namespace.is_tainted]: reads [_tainted]. *)
Definition is_tainted (N : Namespace) : bool := _tainted N.

(** ** The heap of namespaces, exceptions, and the monad *)

(** Namespace objects in creation order; a namespace is referred to by its
    index. *)
Abbreviation heap := (list Namespace).

Inductive exn :=
| AttributeError (what : string)
| AssertionError
| RuntimeError (msg : string)
| OutOfFuel.

Inductive result (A : Type) :=
| Ok (a : A)
| Raise (e : exn).
Arguments Ok {A} a.
Arguments Raise {A} e.

Definition M (A : Type) : Type := heap → result (A * heap).

Definition ret {A} (a : A) : M A := λ h, Ok (a, h).
Definition raise {A} (e : exn) : M A := λ _, Raise e.
Definition bind {A B} (m : M A) (k : A → M B) : M B :=
  λ h, match m h with
       | Ok (a, h') => k a h'
       | Raise e => Raise e
       end.

Declare Scope py_scope.
Delimit Scope py_scope with py.
Notation "x <- m ;; k" := (bind m (λ x, k))
  (at level 100, m at next level, right associativity) : py_scope.
Notation "m ;; k" := (bind m (λ _, k))
  (at level 100, right associativity) : py_scope.
Open Scope py_scope.

(** Reading the heap. *)
Definition get_heap : M heap := λ h, Ok (h, h).

(** In-place update of the object at index [ns]. *)
Definition modify (ns : nat) (f : Namespace → Namespace) : M unit :=
  λ h, Ok (tt, alter f ns h).

(** Object creation: the new namespace gets the next index. *)
Definition alloc (N : Namespace) : M nat :=
  λ h, Ok (length h, h ++ [N]).

(** [Namespace.add_child] *)
Definition add_child (self child : nat) : M unit :=
  modify child (set_parent_namespace self) ;;
  modify self (append_child child).

(** [isinstance(namespace, cls)] *)
Definition isinstance_ns (h : heap) (namespace : nat) (c : ns_class) : bool :=
  match h !! namespace with
  | Some N => bool_decide (ns_kind N = c)
  | None => false
  end.

(** ** rename/util.py: walking up the namespace tree *)

(** [get_global_namespace] *)
Fixpoint get_global_namespace (fuel : nat) (h : heap) (namespace : nat)
  : result nat :=
  match fuel with
  | 0 => Raise OutOfFuel
  | S fuel =>
      if isinstance_ns h namespace ModuleNamespace then Ok namespace
      else match h !! namespace with
           | Some N =>
               match parent_namespace N with
               | Some p => get_global_namespace fuel h p
               | None => Raise (AttributeError "parent_namespace")
               end
           | None => Raise (AttributeError "parent_namespace")
           end
  end.

(** [get_nonlocal_namespace]; the result is [None] when the namespace has no
    parent. *)
Fixpoint get_nonlocal_namespace (fuel : nat) (h : heap) (namespace : nat)
  : result (option nat) :=
  match fuel with
  | 0 => Raise OutOfFuel
  | S fuel =>
      match h !! namespace with
      | Some N =>
          match parent_namespace N with
          | Some p =>
              if isinstance_ns h p ClassNamespace
              then get_nonlocal_namespace fuel h p
              else Ok (Some p)
          | None => Ok None
          end
      | None => Raise (AttributeError "parent_namespace")
      end
  end.

(** ** resolve_names.py: get_binding *)

(** A reference to a binding object: the namespace whose [bindings] list
    holds it, and its position in that list. *)
Definition binding_ref : Type := nat * nat.

Definition lookup_binding (h : heap) (r : binding_ref) : option Binding :=
  N ← h !! r.1; bindings N !! r.2.

Definition introspecting_builtins : list string :=
  ["exec"; "eval"; "locals"; "globals"; "vars"].

Section resolver.
(** The names in [dir(builtins)] of the interpreter that runs the tool. *)
Variable dir_builtins : list string.

Definition lift_result {A} (r : result A) : M A :=
  λ h, match r with Ok a => Ok (a, h) | Raise e => Raise e end.

(** [get_binding(name, namespace)] *)
Fixpoint get_binding (fuel : nat) (nm : string) (namespace : nat)
  : M binding_ref :=
  match fuel with
  | 0 => raise OutOfFuel
  | S fuel =>
      h <- get_heap ;;
      match h !! namespace with
      | None => raise (AttributeError "global_names")
      | Some N =>
          let is_module := bool_decide (ns_kind N = ModuleNamespace) in
          if bool_decide (nm ∈ global_names N) && negb is_module then
            g <- lift_result (get_global_namespace fuel h namespace) ;;
            get_binding fuel nm g
          else if bool_decide (nm ∈ nonlocal_names N) && negb is_module then
            p <- lift_result (get_nonlocal_namespace fuel h namespace) ;;
            match p with
            | Some p => get_binding fuel nm p
            | None => raise (AttributeError "global_names")
            end
          else
            match list_find (λ b, b_name b = nm) (bindings N) with
            | Some (i, _) => ret (namespace, i)
            | None =>
                if negb is_module then
                  p <- lift_result (get_nonlocal_namespace fuel h namespace) ;;
                  match p with
                  | Some p => get_binding fuel nm p
                  | None => raise (AttributeError "global_names")
                  end
                else if bool_decide (nm ∈ dir_builtins) then
                  (if bool_decide (nm ∈ introspecting_builtins)
                   then modify namespace set_tainted else ret tt) ;;
                  modify namespace (append_binding (new_binding BuiltinBinding nm)) ;;
                  ret (namespace, length (bindings N))
                else
                  modify namespace
                    (append_binding (disallow_rename (new_binding NameBinding nm))) ;;
                  ret (namespace, length (bindings N))
            end
      end
  end.
End resolver.

(** ** Well-formed namespace trees *)

(** Namespaces are created top-down, so a parent is older than its
    children; the module namespace is the root and the only namespace
    without a parent. *)
Definition wf_heap (h : heap) : Prop :=
  ∀ i N, h !! i = Some N →
    match parent_namespace N with
    | None => i = 0 ∧ ns_kind N = ModuleNamespace
    | Some p => p < i ∧ ns_kind N ≠ ModuleNamespace
    end.

(** The chain of enclosing scopes of a namespace, nearest first. *)
Fixpoint enclosing_scopes (fuel : nat) (h : heap) (ns : nat) : list nat :=
  match fuel with
  | 0 => []
  | S fuel =>
      match h !! ns ≫= parent_namespace with
      | Some p => p :: enclosing_scopes fuel h p
      | None => []
      end
  end.

(** Following the spec's words: the nearest enclosing scope that is not a
    class scope. *)
Definition nearest_enclosing_non_class (h : heap) (ns : nat) : option nat :=
  snd <$> list_find (λ p, isinstance_ns h p ClassNamespace = false)
                    (enclosing_scopes (length h) h ns).

(** ** What [get_binding] does at the module namespace *)

Section resolver_module.
Variable dir_builtins : list string.

(** The binding that rule 5 creates for a name that is not a builtin. *)
Definition placeholder (nm : string) : Binding :=
disallow_rename (new_binding NameBinding nm).

(** What [get_binding] does at the module namespace. *)
Definition resolve_at_module (nm : string) (m : nat) (N : Namespace) (h : heap)
: binding_ref * heap :=
match list_find (λ b, b_name b = nm) (bindings N) with
| Some (i, _) => ((m, i), h)
| None =>
    if bool_decide (nm ∈ dir_builtins) then
      ((m, length (bindings N)),
       alter (append_binding (new_binding BuiltinBinding nm)) m
         (if bool_decide (nm ∈ introspecting_builtins)
          then alter set_tainted m h else h))
    else
      ((m, length (bindings N)), alter (append_binding (placeholder nm)) m h)
end.

End resolver_module.

(** ** Syntax trees *)

Inductive expr_context := Load | Store | Del.

Global Instance expr_context_eq_dec : EqDecision expr_context.
Proof. solve_decision. Defined.

(** What an object of another type can compare equal to, as far as
    [visit_Constant] looks: one of [None], [True], [False]; or none of
    these, but [Ellipsis]. *)
Inductive equal_to := ToSingleton | ToEllipsis.

(** The values that an [ast.Constant] can hold.  An object of any other
    type is given by the name of its type and by what its [__eq__] makes it
    equal to: [VOther] is an object that equals none of [None], [True],
    [False] and [Ellipsis] (a tuple or a frozenset, say); [VEqual] one that
    does ([Fraction(1)] and [Decimal(0)] equal [True] and [False]). *)
Inductive constant_value :=
| VNone
| VBool (b : bool)
| VInt (z : Z)
| VFloat (f : spec_float)
| VComplex (re im : spec_float)
| VStr (s : string)
| VBytes (b : list Byte.byte)
| VEllipsis
| VOther (type_name : string)
| VEqual (type_name : string) (to : equal_to).

(** The slots of a node object: its identity, its position in the source,
    and the two attributes that the passes attach, [parent] and
    [namespace], absent ([None]) until they are assigned. *)
Record attrs := mkAttrs {
  nid : nat;
  lineno : nat;
  col_offset : nat;
  parent : option node_ref;
  namespace : option nat
}.

Inductive comp_class := GeneratorExp | SetComp | ListComp.

(** The node classes that the passes distinguish, with their child fields in
    the order of [_fields]; [Other] is any other node class, with its child
    nodes in the order of [ast.iter_child_nodes].  The model is that of the
    Python 3.8+ grammar ([posonlyargs]; [vararg] and [kwarg] are [arg]
    nodes; list comprehensions have their own scope).

    A tree holds the nodes that are objects of their own: each occurs once
    in the tree that the parser returns.  The expression contexts ([Load],
    [Store], [Del]) and the operators are not among them: the parser makes
    one object of each and every node that uses it refers to that one
    object.  The context of a [Name] is a tag, which is all that the passes
    read of it ([isinstance(node.ctx, ast.Load)]); the contexts and
    operators of the other node classes are left out of [Other]. *)
Inductive ast :=
| Module (a : attrs) (body : list ast)
| FunctionDef (a : attrs) (async : bool) (fname : string) (args : option ast)
    (body decorator_list : list ast) (returns : option ast)
    (type_params : list ast)
| Lambda (a : attrs) (args body : ast)
| ClassDef (a : attrs) (cname : string)
    (bases keywords body decorator_list type_params : list ast)
| Comp (a : attrs) (c : comp_class) (elt : ast) (generators : list ast)
| DictComp (a : attrs) (key value : ast) (generators : list ast)
| comprehension (a : attrs) (target iter : ast) (ifs : list ast)
| arguments (a : attrs) (posonlyargs args : list ast) (vararg : option ast)
    (kwonlyargs : list ast) (kw_defaults : list (option ast))
    (kwarg : option ast) (defaults : list ast)
| arg (a : attrs) (arg_name : string) (annotation : option ast)
| Global (a : attrs) (names : list string)
| Nonlocal (a : attrs) (names : list string)
| Name (a : attrs) (id : string) (ctx : expr_context)
| Constant (a : attrs) (value : constant_value)
| Other (a : attrs) (cls : string) (fields : list ast).

Definition attrs_of (n : ast) : attrs :=
  match n with
  | Module a _ | FunctionDef a _ _ _ _ _ _ _ | Lambda a _ _
  | ClassDef a _ _ _ _ _ _ | Comp a _ _ _ | DictComp a _ _ _
  | comprehension a _ _ _ | arguments a _ _ _ _ _ _ _ | arg a _ _
  | Global a _ | Nonlocal a _ | Name a _ _ | Constant a _ | Other a _ _ => a
  end.

Definition with_attrs (f : attrs → attrs) (n : ast) : ast :=
  match n with
  | Module a b => Module (f a) b
  | FunctionDef a y nm ar b d r t => FunctionDef (f a) y nm ar b d r t
  | Lambda a ar b => Lambda (f a) ar b
  | ClassDef a nm ba k b d t => ClassDef (f a) nm ba k b d t
  | Comp a c e g => Comp (f a) c e g
  | DictComp a k v g => DictComp (f a) k v g
  | comprehension a t i fs => comprehension (f a) t i fs
  | arguments a po ar va ko kd kw de => arguments (f a) po ar va ko kd kw de
  | arg a nm an => arg (f a) nm an
  | Global a ns => Global (f a) ns
  | Nonlocal a ns => Nonlocal (f a) ns
  | Name a i c => Name (f a) i c
  | Constant a v => Constant (f a) v
  | Other a c fs => Other (f a) c fs
  end.

(** [node.__class__.__name__] *)
Definition class_name (n : ast) : string :=
  match n with
  | Module _ _ => "Module"
  | FunctionDef _ false _ _ _ _ _ _ => "FunctionDef"
  | FunctionDef _ true _ _ _ _ _ _ => "AsyncFunctionDef"
  | Lambda _ _ _ => "Lambda"
  | ClassDef _ _ _ _ _ _ _ => "ClassDef"
  | Comp _ GeneratorExp _ _ => "GeneratorExp"
  | Comp _ SetComp _ _ => "SetComp"
  | Comp _ ListComp _ _ => "ListComp"
  | DictComp _ _ _ _ => "DictComp"
  | comprehension _ _ _ _ => "comprehension"
  | arguments _ _ _ _ _ _ _ _ => "arguments"
  | arg _ _ _ => "arg"
  | Global _ _ => "Global"
  | Nonlocal _ _ => "Nonlocal"
  | Name _ _ _ => "Name"
  | Constant _ _ => "Constant"
  | Other _ c _ => c
  end.

(** A reference to a node. *)
Definition ref_of (n : ast) : node_ref := NodeRef (nid (attrs_of n)) (class_name n).

(** [a is b] on node objects. *)
Definition node_is (a b : ast) : bool :=
  bool_decide (nid (attrs_of a) = nid (attrs_of b)).

(** [node.namespace], when the attribute is set. *)
Definition namespace_of (n : ast) : option nat := namespace (attrs_of n).

(** [node.namespace = ns] *)
Definition set_namespace (ns : nat) (n : ast) : ast :=
  with_attrs (λ a, {| nid := nid a; lineno := lineno a; col_offset := col_offset a;
                      parent := parent a; namespace := Some ns |}) n.

(** [node.parent = p] *)
Definition set_parent (p : node_ref) (n : ast) : ast :=
  with_attrs (λ a, {| nid := nid a; lineno := lineno a; col_offset := col_offset a;
                      parent := Some p; namespace := namespace a |}) n.

(** The child nodes that are objects of their own, in the order in which
    [ast.iter_child_nodes] yields them; [None] entries of [kw_defaults] are
    not nodes.  [ast.iter_child_nodes] yields, besides these, the shared
    context and operator objects of the node (the [ctx] of a [Name], the
    [op] of a [BinOp]), which have no child; a traversal that assigns an
    attribute of every node it is given assigns it on them as well, at every
    node that refers to them, so that what a shared object holds in the end
    is what the last of these nodes gave it.  No pass reads the [parent] or
    the [namespace] of a context or an operator. *)
Definition child_nodes (n : ast) : list ast :=
  match n with
  | Module _ b => b
  | FunctionDef _ _ _ ar b d r t =>
      option_list ar ++ b ++ d ++ option_list r ++ t
  | Lambda _ ar b => [ar; b]
  | ClassDef _ _ ba k b d t => ba ++ k ++ b ++ d ++ t
  | Comp _ _ e g => e :: g
  | DictComp _ k v g => k :: v :: g
  | comprehension _ t i fs => t :: i :: fs
  | arguments _ po ar va ko kd kw de =>
      po ++ ar ++ option_list va ++ ko ++ omap (λ x, x) kd ++ option_list kw ++ de
  | arg _ _ an => option_list an
  | Global _ _ | Nonlocal _ _ | Name _ _ _ | Constant _ _ => []
  | Other _ _ fs => fs
  end.

(** Applying a function to every child node, in place. *)
Definition map_children (f : ast → ast) (n : ast) : ast :=
  match n with
  | Module a b => Module a (f <$> b)
  | FunctionDef a y nm ar b d r t =>
      FunctionDef a y nm (f <$> ar) (f <$> b) (f <$> d) (f <$> r) (f <$> t)
  | Lambda a ar b => Lambda a (f ar) (f b)
  | ClassDef a nm ba k b d t =>
      ClassDef a nm (f <$> ba) (f <$> k) (f <$> b) (f <$> d) (f <$> t)
  | Comp a c e g => Comp a c (f e) (f <$> g)
  | DictComp a k v g => DictComp a (f k) (f v) (f <$> g)
  | comprehension a t i fs => comprehension a (f t) (f i) (f <$> fs)
  | arguments a po ar va ko kd kw de =>
      arguments a (f <$> po) (f <$> ar) (f <$> va) (f <$> ko)
        ((λ o : option ast, f <$> o) <$> kd) (f <$> kw) (f <$> de)
  | arg a nm an => arg a nm (f <$> an)
  | Global _ _ | Nonlocal _ _ | Name _ _ _ | Constant _ _ => n
  | Other a c fs => Other a c (f <$> fs)
  end.

(** Structural recursion over a tree: the results for the child nodes, in
    the order of [child_nodes], are combined at the node. *)
Fixpoint fold_ast {A} (f : ast → list A → A) (n : ast) : A :=
  f n (match n with
       | Module _ b => fold_ast f <$> b
       | FunctionDef _ _ _ ar b d r t =>
           option_list (fold_ast f <$> ar) ++ (fold_ast f <$> b) ++
           (fold_ast f <$> d) ++ option_list (fold_ast f <$> r) ++
           (fold_ast f <$> t)
       | Lambda _ ar b => [fold_ast f ar; fold_ast f b]
       | ClassDef _ _ ba k b d t =>
           (fold_ast f <$> ba) ++ (fold_ast f <$> k) ++ (fold_ast f <$> b) ++
           (fold_ast f <$> d) ++ (fold_ast f <$> t)
       | Comp _ _ e g => fold_ast f e :: (fold_ast f <$> g)
       | DictComp _ k v g => fold_ast f k :: fold_ast f v :: (fold_ast f <$> g)
       | comprehension _ t i fs =>
           fold_ast f t :: fold_ast f i :: (fold_ast f <$> fs)
       | arguments _ po ar va ko kd kw de =>
           (fold_ast f <$> po) ++ (fold_ast f <$> ar) ++
           option_list (fold_ast f <$> va) ++ (fold_ast f <$> ko) ++
           omap (λ o : option ast, fold_ast f <$> o) kd ++
           option_list (fold_ast f <$> kw) ++ (fold_ast f <$> de)
       | arg _ _ an => option_list (fold_ast f <$> an)
       | Global _ _ | Nonlocal _ _ | Name _ _ _ | Constant _ _ => []
       | Other _ _ fs => fold_ast f <$> fs
       end).

(** The height of a tree bounds the depth of the recursion of a pass. *)
Definition height : ast → nat := fold_ast (λ _ hs, S (list_max hs)).

(** All the nodes of a tree, in the order of a pre-order traversal. *)
Definition nodes : ast → list ast := fold_ast (λ n ls, n :: concat ls).

(** Dereferencing a node reference: the node object with that identity. *)
Definition find_node (i : nat) (tree : ast) : option ast :=
  snd <$> list_find (λ n, nid (attrs_of n) = i) (nodes tree).

(** ** add_parent.py *)

(** [add_parent(node, parent)]: every node below the root gets a reference to
    its parent. *)
Fixpoint add_parent (node : ast) (parent : option node_ref) : ast :=
  let node' := map_children (λ child, add_parent child (Some (ref_of node))) node in
  match parent with
  | Some p => set_parent p node'
  | None => node'
  end.

(** ** create_namespaces.py *)

(** [for x in xs: f(x)], keeping the visited objects. *)
Fixpoint mapM {A B} (f : A → M B) (l : list A) : M (list B) :=
  match l with
  | [] => ret []
  | x :: l => y <- f x ;; l' <- mapM f l ;; ret (y :: l')
  end.

(** [if x is not None: f(x)] *)
Definition mapM_option {A B} (f : A → M B) (o : option A) : M (option B) :=
  match o with
  | Some x => y <- f x ;; ret (Some y)
  | None => ret None
  end.

(** [for child in ast.iter_child_nodes(node): f(child)] *)
Definition visit_children (f : ast → M ast) (n : ast) : M ast :=
  match n with
  | Module a b => b <- mapM f b ;; ret (Module a b)
  | FunctionDef a y nm ar b d r t =>
      ar <- mapM_option f ar ;; b <- mapM f b ;; d <- mapM f d ;;
      r <- mapM_option f r ;; t <- mapM f t ;;
      ret (FunctionDef a y nm ar b d r t)
  | Lambda a ar b => ar <- f ar ;; b <- f b ;; ret (Lambda a ar b)
  | ClassDef a nm ba k b d t =>
      ba <- mapM f ba ;; k <- mapM f k ;; b <- mapM f b ;; d <- mapM f d ;;
      t <- mapM f t ;; ret (ClassDef a nm ba k b d t)
  | Comp a c e g => e <- f e ;; g <- mapM f g ;; ret (Comp a c e g)
  | DictComp a k v g =>
      k <- f k ;; v <- f v ;; g <- mapM f g ;; ret (DictComp a k v g)
  | comprehension a t i fs =>
      t <- f t ;; i <- f i ;; fs <- mapM f fs ;; ret (comprehension a t i fs)
  | arguments a po ar va ko kd kw de =>
      po <- mapM f po ;; ar <- mapM f ar ;; va <- mapM_option f va ;;
      ko <- mapM f ko ;; kd <- mapM (mapM_option f) kd ;;
      kw <- mapM_option f kw ;; de <- mapM f de ;;
      ret (arguments a po ar va ko kd kw de)
  | arg a nm an => an <- mapM_option f an ;; ret (arg a nm an)
  | Global _ _ | Nonlocal _ _ | Name _ _ _ | Constant _ _ => ret n
  | Other a c fs => fs <- mapM f fs ;; ret (Other a c fs)
  end.

(** [arg.annotation], for the test [hasattr(arg, 'annotation') and
    arg.annotation is not None]. *)
Definition annotation_of (n : ast) : option ast :=
  match n with
  | arg _ _ an => an
  | _ => None
  end.

(** [arg.annotation], an [AttributeError] on a node of another class. *)
Definition getattr_annotation (n : ast) : M (option ast) :=
  match n with
  | arg _ _ an => ret an
  | _ => raise (AttributeError "annotation")
  end.

(** Putting back the annotation object after it has been visited. *)
Definition with_annotation (an : ast) (n : ast) : ast :=
  match n with
  | arg a nm _ => arg a nm (Some an)
  | _ => n
  end.

Section handlers.
(** The handlers call back into [create_child_namespaces]. *)
Variable create_child_namespaces : ast → nat → M ast.

(** The body of the loop over [posonlyargs + args]. *)
Definition assign_arg (parent_namespace function_namespace : nat) (a : ast)
  : M ast :=
  a <- create_child_namespaces a function_namespace ;;
  match annotation_of a with
  | Some an =>
      an <- create_child_namespaces an parent_namespace ;;
      ret (with_annotation an a)
  | None => ret a
  end.

(** The body of the loop over [kwonlyargs]. *)
Definition assign_kwonlyarg (parent_namespace function_namespace : nat) (a : ast)
  : M ast :=
  a <- create_child_namespaces a function_namespace ;;
  an <- getattr_annotation a ;;
  match an with
  | Some an =>
      an <- create_child_namespaces an parent_namespace ;;
      ret (with_annotation an a)
  | None => ret a
  end.

(** [assign_arguments_to_namespace].  The loop over [posonlyargs + args]
    visits the two lists one after the other. *)
Definition assign_arguments_to_namespace
    (args : ast) (parent_namespace function_namespace : nat) : M ast :=
  match args with
  | arguments a po ar va ko kd kw de =>
      let a := {| nid := nid a; lineno := lineno a; col_offset := col_offset a;
                  parent := parent a; namespace := Some function_namespace |} in
      po <- mapM (assign_arg parent_namespace function_namespace) po ;;
      ar <- mapM (assign_arg parent_namespace function_namespace) ar ;;
      ko <- mapM (assign_kwonlyarg parent_namespace function_namespace) ko ;;
      kd <- mapM (mapM_option (λ n, create_child_namespaces n parent_namespace)) kd ;;
      de <- mapM (λ n, create_child_namespaces n parent_namespace) de ;;
      va <- mapM_option (λ n, create_child_namespaces n function_namespace) va ;;
      kw <- mapM_option (λ n, create_child_namespaces n function_namespace) kw ;;
      ret (arguments a po ar va ko kd kw de)
  | _ => raise AssertionError
  end.

(** The loop over [node.generators]; [iter_namespace] is the enclosing
    namespace for the first generator and the comprehension namespace from
    then on. *)
Fixpoint assign_generators (comprehension_namespace iter_namespace : nat)
    (generators : list ast) : M (list ast) :=
  match generators with
  | [] => ret []
  | comprehension a t i fs :: generators =>
      let a := {| nid := nid a; lineno := lineno a; col_offset := col_offset a;
                  parent := parent a; namespace := Some comprehension_namespace |} in
      t <- create_child_namespaces t comprehension_namespace ;;
      i <- create_child_namespaces i iter_namespace ;;
      fs <- mapM (λ n, create_child_namespaces n comprehension_namespace) fs ;;
      generators <- assign_generators comprehension_namespace
                      comprehension_namespace generators ;;
      ret (comprehension a t i fs :: generators)
  | _ :: _ => raise (AttributeError "target")
  end.

(** [create_comprehension_namespace] *)
Definition create_comprehension_namespace (node : ast) (parent_namespace : nat)
  : M ast :=
  match node with
  | Comp a c e g =>
      comprehension_namespace <-
        alloc (Namespace_init FunctionNamespace (ref_of node) (class_name node)) ;;
      add_child parent_namespace comprehension_namespace ;;
      e <- create_child_namespaces e comprehension_namespace ;;
      g <- assign_generators comprehension_namespace parent_namespace g ;;
      ret (Comp a c e g)
  | DictComp a k v g =>
      comprehension_namespace <-
        alloc (Namespace_init FunctionNamespace (ref_of node) (class_name node)) ;;
      add_child parent_namespace comprehension_namespace ;;
      k <- create_child_namespaces k comprehension_namespace ;;
      v <- create_child_namespaces v comprehension_namespace ;;
      g <- assign_generators comprehension_namespace parent_namespace g ;;
      ret (DictComp a k v g)
  | _ => raise AssertionError
  end.

(** [create_functiondef_namespace] *)
Definition create_functiondef_namespace (functiondef : ast) (parent_namespace : nat)
  : M ast :=
  match functiondef with
  | FunctionDef a y nm ar b d r t =>
      created <-
        match t with
        | _ :: _ =>
            annotation_namespace <-
              alloc (Namespace_init AnnotationNamespace (ref_of functiondef) nm) ;;
            add_child parent_namespace annotation_namespace ;;
            function_namespace <-
              alloc (Namespace_init FunctionNamespace (ref_of functiondef) nm) ;;
            add_child annotation_namespace function_namespace ;;
            t <- mapM (λ n, create_child_namespaces n annotation_namespace) t ;;
            ret (function_namespace, t)
        | [] =>
            function_namespace <-
              alloc (Namespace_init FunctionNamespace (ref_of functiondef) nm) ;;
            add_child parent_namespace function_namespace ;;
            ret (function_namespace, t)
        end ;;
      let '(function_namespace, t) := created in
      ar <- mapM_option
              (λ n, assign_arguments_to_namespace n parent_namespace
                      function_namespace) ar ;;
      b <- mapM (λ n, create_child_namespaces n function_namespace) b ;;
      d <- mapM (λ n, create_child_namespaces n parent_namespace) d ;;
      r <- mapM_option (λ n, create_child_namespaces n parent_namespace) r ;;
      ret (FunctionDef a y nm ar b d r t)
  | _ => raise AssertionError
  end.

(** [create_lambda_namespace] *)
Definition create_lambda_namespace (lambda_ : ast) (parent_namespace : nat)
  : M ast :=
  match lambda_ with
  | Lambda a ar b =>
      function_namespace <-
        alloc (Namespace_init FunctionNamespace (ref_of lambda_) "Lambda") ;;
      add_child parent_namespace function_namespace ;;
      ar <- assign_arguments_to_namespace ar parent_namespace function_namespace ;;
      b <- create_child_namespaces b function_namespace ;;
      ret (Lambda a ar b)
  | _ => raise AssertionError
  end.

(** [create_class_namespace] *)
Definition create_class_namespace (classdef : ast) (parent_namespace : nat)
  : M ast :=
  match classdef with
  | ClassDef a nm ba k b d t =>
      created <-
        match t with
        | _ :: _ =>
            annotation_namespace <-
              alloc (Namespace_init AnnotationNamespace (ref_of classdef) nm) ;;
            add_child parent_namespace annotation_namespace ;;
            class_namespace <-
              alloc (Namespace_init ClassNamespace (ref_of classdef) nm) ;;
            add_child annotation_namespace class_namespace ;;
            t <- mapM (λ n, create_child_namespaces n annotation_namespace) t ;;
            ret (class_namespace, t)
        | [] =>
            class_namespace <-
              alloc (Namespace_init ClassNamespace (ref_of classdef) nm) ;;
            add_child parent_namespace class_namespace ;;
            ret (class_namespace, t)
        end ;;
      let '(class_namespace, t) := created in
      ba <- mapM (λ n, create_child_namespaces n parent_namespace) ba ;;
      k <- mapM (λ n, create_child_namespaces n parent_namespace) k ;;
      b <- mapM (λ n, create_child_namespaces n class_namespace) b ;;
      d <- mapM (λ n, create_child_namespaces n parent_namespace) d ;;
      ret (ClassDef a nm ba k b d t)
  | _ => raise AssertionError
  end.

(** The [ast.Name] branch of [create_child_namespaces]. *)
Definition visit_name (node : ast) (parent_namespace : nat) : M ast :=
  match node with
  | Name a i c =>
      h <- get_heap ;;
      if isinstance_ns h parent_namespace ClassNamespace then
        match c with
        | Load => modify parent_namespace (update_nonlocal_names [i]) ;; ret node
        | Store =>
            match parent a with
            | None => raise (AttributeError "parent")
            | Some p =>
                if bool_decide (ref_class p = "AugAssign")
                then modify parent_namespace (update_nonlocal_names [i]) ;; ret node
                else ret node
            end
        | Del => ret node
        end
      else ret node
  | _ => raise AssertionError
  end.
End handlers.

(** [create_child_namespaces(node, parent_namespace)] *)
Fixpoint create_child_namespaces (fuel : nat) (node : ast) (parent_namespace : nat)
  : M ast :=
  match fuel with
  | 0 => raise OutOfFuel
  | S fuel =>
      let node := set_namespace parent_namespace node in
      match node with
      | FunctionDef _ _ _ _ _ _ _ _ =>
          create_functiondef_namespace (create_child_namespaces fuel)
            node parent_namespace
      | Comp _ _ _ _ | DictComp _ _ _ _ =>
          create_comprehension_namespace (create_child_namespaces fuel)
            node parent_namespace
      | Lambda _ _ _ =>
          create_lambda_namespace (create_child_namespaces fuel)
            node parent_namespace
      | ClassDef _ _ _ _ _ _ _ =>
          create_class_namespace (create_child_namespaces fuel)
            node parent_namespace
      | Global _ names =>
          modify parent_namespace (update_global_names names) ;; ret node
      | Nonlocal _ names =>
          modify parent_namespace (update_nonlocal_names names) ;; ret node
      | Name _ _ _ => visit_name node parent_namespace
      | _ =>
          visit_children
            (λ child, create_child_namespaces fuel child parent_namespace) node
      end
  end.

(** [create_all_namespaces(module)]: the module namespace is the first object
    of a fresh heap; the result is its reference and the annotated tree. *)
Definition create_all_namespaces (module : ast) : M (nat * ast) :=
  match ModuleNamespace_init (ref_of module) with
  | None => raise AssertionError
  | Some N =>
      global_namespace <- alloc N ;;
      module <- create_child_namespaces (S (height module)) module global_namespace ;;
      ret (global_namespace, module)
  end.

(** ** rename/util.py: arg_rename_in_place *)

(** [func_node.args], as the fields of the [arguments] object. *)
Definition getattr_args (func_node : ast) : M ast :=
  match func_node with
  | FunctionDef _ _ _ (Some ar) _ _ _ _ => ret ar
  | Lambda _ ar _ => ret ar
  | _ => raise (AttributeError "args")
  end.

Definition getattr_decorator_list (func_node : ast) : M (list ast) :=
  match func_node with
  | FunctionDef _ _ _ _ _ d _ _ => ret d
  | ClassDef _ _ _ _ _ d _ => ret d
  | _ => raise (AttributeError "decorator_list")
  end.

(** [args.args], [args.vararg], [args.kwarg], [args.posonlyargs] *)
Definition args_args (ar : ast) : M (list ast) :=
  match ar with
  | arguments _ _ ar _ _ _ _ _ => ret ar
  | _ => raise (AttributeError "args")
  end.

Definition args_vararg (ar : ast) : M (option ast) :=
  match ar with
  | arguments _ _ _ va _ _ _ _ => ret va
  | _ => raise (AttributeError "vararg")
  end.

Definition args_kwarg (ar : ast) : M (option ast) :=
  match ar with
  | arguments _ _ _ _ _ _ kw _ => ret kw
  | _ => raise (AttributeError "kwarg")
  end.

(** [func_node.args.posonlyargs], for a test guarded by [hasattr]. *)
Definition args_posonlyargs (ar : ast) : list ast :=
  match ar with
  | arguments _ po _ _ _ _ _ _ => po
  | _ => []
  end.

(** [x is node], where [x] may be [None]. *)
Definition option_is (x : option ast) (node : ast) : bool :=
  match x with
  | Some x => node_is x node
  | None => false
  end.

(** The decorator test of the method branch: no decorator, or the single
    decorator [classmethod] given as a plain name. *)
Definition self_or_cls (decorator_list : list ast) : bool :=
  match decorator_list with
  | [] => true
  | [Name _ i _] => bool_decide (i = "classmethod")
  | _ => false
  end.

(** [namespace.node]: the reference to the node that introduced the
    namespace. *)
Definition namespace_node (N : Namespace) : node_ref := node N.

(** [arg_rename_in_place(node)]; [tree] is the module that [node] belongs
    to, through which the node that introduced a namespace is reached. *)
Definition arg_rename_in_place (tree : ast) (node : ast) : M bool :=
  h <- get_heap ;;
  match namespace_of node ≫= (h !!.) with
  | None => raise (AttributeError "namespace")
  | Some N =>
      match find_node (ref_id (namespace_node N)) tree with
      | None => raise (AttributeError "node")
      | Some func_node =>
          match func_node with
          | comprehension _ _ _ _ => ret true
          | _ =>
              match namespace_of func_node with
              | None => raise (AttributeError "namespace")
              | Some fns =>
                  is_self <-
                    (if isinstance_ns h fns ClassNamespace
                        && negb (bool_decide (class_name func_node = "Lambda"))
                     then
                       ar <- getattr_args func_node ;;
                       ar <- args_args ar ;;
                       match ar with
                       | first :: _ =>
                           if node_is node first then
                             d <- getattr_decorator_list func_node ;;
                             ret (self_or_cls d)
                           else ret false
                       | [] => ret false
                       end
                     else ret false) ;;
                  if is_self : bool then ret true else
                  ar <- getattr_args func_node ;;
                  va <- args_vararg ar ;;
                  kw <- args_kwarg ar ;;
                  if option_is va node || option_is kw node then ret true else
                  if existsb (node_is node) (args_posonlyargs ar) then ret true
                  else ret false
              end
          end
      end
  end.

(** ** transforms/suite_transformer.py: visit_Constant *)

(** [type(value)], as [%r] prints it. *)
Definition repr_type (v : constant_value) : string :=
  "<class '" ++
  match v with
  | VNone => "NoneType"
  | VBool _ => "bool"
  | VInt _ => "int"
  | VFloat _ => "float"
  | VComplex _ _ => "complex"
  | VStr _ => "str"
  | VBytes _ => "bytes"
  | VEllipsis => "ellipsis"
  | VOther t | VEqual t _ => t
  end ++ "'>".

Definition float_one : spec_float := S754_finite false 4503599627370496 (-52).
Definition float_zero : spec_float := S754_zero false.

(** [value in [None, True, False]]: membership is by [==], under which the
    numbers one and zero equal [True] and [False], and so does an object of
    another type whose [__eq__] says so. *)
Definition in_None_True_False (v : constant_value) : bool :=
  match v with
  | VNone | VBool _ => true
  | VInt z => (z =? 1)%Z || (z =? 0)%Z
  | VFloat f => SFeqb f float_one || SFeqb f float_zero
  | VComplex re im =>
      (SFeqb re float_one || SFeqb re float_zero) && SFeqb im float_zero
  | VEqual _ ToSingleton => true
  | VStr _ | VBytes _ | VEllipsis | VOther _ | VEqual _ ToEllipsis => false
  end.

(** The name of the method that [visit_Constant] dispatches to: the tests
    [isinstance(value, (int, float, complex))], [isinstance(value, str)],
    [isinstance(value, bytes)] and [value == Ellipsis], in this order, on a
    value that is not [in [None, True, False]]. *)
Definition visit_Constant_method (v : constant_value) : result string :=
  if in_None_True_False v then Ok "visit_NameConstant"
  else match v with
       | VBool _ | VInt _ | VFloat _ | VComplex _ _ => Ok "visit_Num"
       | VStr _ => Ok "visit_Str"
       | VBytes _ => Ok "visit_Bytes"
       | VEllipsis | VEqual _ ToEllipsis => Ok "visit_Ellipsis"
       | VNone | VOther _ | VEqual _ ToSingleton =>
           Raise (RuntimeError ("Unknown Constant value " ++ repr_type v))
       end.

(** [NodeVisitor.visit_Constant].  A visitor object is given by its methods,
    looked up by name, and its [generic_visit]. *)
Definition visit_Constant {R} (getattr_self : string → option (ast → result R))
    (generic_visit : ast → result R) (node : ast) : result R :=
  match node with
  | Constant _ v =>
      match visit_Constant_method v with
      | Ok method => default generic_visit (getattr_self method) node
      | Raise e => Raise e
      end
  | _ => Raise (AttributeError "value")
  end.

(** The source position of a node. *)
Definition location (n : ast) : nat * nat :=
  (lineno (attrs_of n), col_offset (attrs_of n)).

(** ** Invariants of the scope tree builder *)

(** What is kept of a namespace object while the tree is built: the builder
    only adds names to the two sets and appends to [children]. *)
Definition stable (N N' : Namespace) : Prop :=
  ns_kind N' = ns_kind N ∧ name N' = name N ∧ node N' = node N ∧
  parent_namespace N' = parent_namespace N ∧ bindings N' = bindings N ∧
  _tainted N' = _tainted N ∧ tainted N' = tainted N ∧
  assigned_names N' = assigned_names N ∧
  global_names N ⊆ global_names N' ∧ nonlocal_names N ⊆ nonlocal_names N' ∧
  children N `prefix_of` children N'.

(** A namespace created by the builder: it has an older parent, is not a
    module namespace, and has no bindings yet. *)
Definition fresh (i : nat) (N : Namespace) : Prop :=
  (∃ p, parent_namespace N = Some p ∧ p < i) ∧
  ns_kind N ≠ ModuleNamespace ∧ bindings N = [].

(** The heap [h'] extends [h]. *)
Definition heap_ext (h h' : heap) : Prop :=
  length h ≤ length h' ∧
  (∀ i N, h !! i = Some N → ∃ N', h' !! i = Some N' ∧ stable N N') ∧
  (∀ i N', h' !! i = Some N' → length h ≤ i → fresh i N').

(** Erasing the [namespace] slots: what a tree is before the builder runs. *)
Definition clear_namespace (a : attrs) : attrs :=
  {| nid := nid a; lineno := lineno a; col_offset := col_offset a;
     parent := parent a; namespace := None |}.

Fixpoint erase (n : ast) : ast :=
  with_attrs clear_namespace (map_children erase n).

Definition is_arguments (n : ast) : bool :=
  match n with arguments _ _ _ _ _ _ _ _ => true | _ => false end.

Definition is_arg (n : ast) : bool :=
  match n with arg _ _ _ => true | _ => false end.

Definition is_comprehension (n : ast) : bool :=
  match n with comprehension _ _ _ _ => true | _ => false end.

(** What the builder relies on at a node: the fields that it reads without
    a test hold nodes of the class that the grammar gives them, and a name
    that is written to has a [parent] (set by [add_parent] for every node
    but the root). *)
Definition node_ok (n : ast) : bool :=
  match n with
  | Name a _ Store => bool_decide (is_Some (parent a))
  | FunctionDef _ _ _ ar _ _ _ _ => from_option is_arguments true ar
  | Lambda _ ar _ => is_arguments ar
  | Comp _ _ _ g | DictComp _ _ _ g => forallb is_comprehension g
  | arguments _ _ _ _ ko _ _ _ => forallb is_arg ko
  | _ => true
  end.

Definition tree_ok (n : ast) : Prop := forallb node_ok (nodes n) = true.

(** The node [n] is annotated with the namespace [ns]. *)
Definition owned_by (ns : nat) (n : ast) : Prop := namespace_of n = Some ns.

(** A decision procedure for [wf_heap], for concrete heaps. *)
Definition wf_namespaceb (i : nat) (N : Namespace) : bool :=
  match parent_namespace N with
  | None => bool_decide (i = 0) && bool_decide (ns_kind N = ModuleNamespace)
  | Some p => bool_decide (p < i) && bool_decide (ns_kind N ≠ ModuleNamespace)
  end.

Definition wf_heapb (h : heap) : bool :=
  forallb (λ iN, wf_namespaceb iN.1 iN.2) (imap pair h).

(** ** Example programs *)

(** Node slots before any pass has run. *)
Definition fresh_attrs (i line : nat) : attrs :=
  {| nid := i; lineno := line; col_offset := 0; parent := None; namespace := None |}.

(** Modelled from the spec: the Binder ([bind_names.py]) is not among the
    sources.  For a construct that defines [nm] in the namespace [ns] it
    creates a binding on first occurrence and reuses it afterwards. *)
Definition bind_name (nm : string) (ns : nat) : M unit :=
  h <- get_heap ;;
  match h !! ns with
  | Some N =>
      match list_find (λ b, b_name b = nm) (bindings N) with
      | Some _ => ret tt
      | None => modify ns (append_binding (new_binding NameBinding nm))
      end
  | None => ret tt
  end.

(** The heap after a computation, [[]] if it raised. *)
Definition heap_after {A} (m : M A) : heap :=
  match m [] with
  | Ok (_, h) => h
  | Raise _ => []
  end.

(** A few names of [dir(builtins)]. *)
Definition some_builtins : list string :=
  ["print"; "range"; "len"; "eval"; "exec"; "locals"; "globals"; "vars";
   "classmethod"; "staticmethod"; "int"; "str"].

(** The namespace object at index [i] of a heap that has one. *)
Definition namespace_at (h : heap) (i : nat) : Namespace :=
  default (Namespace_init ModuleNamespace (NodeRef 0 EmptyString) EmptyString)
    (h !! i).

(** The namespace that owns the binding returned by a resolution. *)
Definition owner_of (r : result (binding_ref * heap)) : option nat :=
  match r with
  | Ok ((o, _), _) => Some o
  | Raise _ => None
  end.

(** <<
    def f():
        x = 1
        class C:
            x = 2
            def m(self):
                nonlocal x
                x = 3
    >> *)
Definition nonlocal_in_method : ast :=
  Module (fresh_attrs 0 0)
    [FunctionDef (fresh_attrs 1 1) false "f"
       (Some (arguments (fresh_attrs 2 1) [] [] None [] [] None []))
       [Other (fresh_attrs 3 2) "Assign"
          [Name (fresh_attrs 4 2) "x" Store; Constant (fresh_attrs 5 2) (VInt 1)];
        ClassDef (fresh_attrs 6 3) "C" [] []
          [Other (fresh_attrs 7 4) "Assign"
             [Name (fresh_attrs 8 4) "x" Store; Constant (fresh_attrs 9 4) (VInt 2)];
           FunctionDef (fresh_attrs 10 5) false "m"
             (Some (arguments (fresh_attrs 11 5) []
                      [arg (fresh_attrs 12 5) "self" None] None [] [] None []))
             [Nonlocal (fresh_attrs 13 6) ["x"];
              Other (fresh_attrs 14 7) "Assign"
                [Name (fresh_attrs 15 7) "x" Store;
                 Constant (fresh_attrs 16 7) (VInt 3)]]
             [] None []]
          [] []]
       [] None []].

(** Its namespaces: 0 the module, 1 [f], 2 [C], 3 [m]; with the bindings of
    the Binder. *)
Definition nonlocal_in_method_heap : heap :=
  heap_after (create_all_namespaces (add_parent nonlocal_in_method None) ;;
              bind_name "f" 0 ;; bind_name "x" 1 ;; bind_name "C" 1 ;;
              bind_name "x" 2 ;; bind_name "m" 2 ;; bind_name "self" 3).

(** <<
    def f():
        x = 1
        class C:
            global x
            y = x
    >> *)
Definition global_in_class : ast :=
  Module (fresh_attrs 0 0)
    [FunctionDef (fresh_attrs 1 1) false "f"
       (Some (arguments (fresh_attrs 2 1) [] [] None [] [] None []))
       [Other (fresh_attrs 3 2) "Assign"
          [Name (fresh_attrs 4 2) "x" Store; Constant (fresh_attrs 5 2) (VInt 1)];
        ClassDef (fresh_attrs 6 3) "C" [] []
          [Global (fresh_attrs 7 4) ["x"];
           Other (fresh_attrs 8 5) "Assign"
             [Name (fresh_attrs 9 5) "y" Store; Name (fresh_attrs 10 5) "x" Load]]
          [] []]
       [] None []].

(** Its namespaces: 0 the module, 1 [f], 2 [C]. *)
Definition global_in_class_heap : heap :=
  heap_after (create_all_namespaces (add_parent global_in_class None) ;;
              bind_name "f" 0 ;; bind_name "x" 1 ;; bind_name "C" 1 ;;
              bind_name "y" 2).

(** <<
    x = 0
    def f():
        x = 1
        def g():
            global x
            x = 2
    >> *)
Definition global_shadow : ast :=
  Module (fresh_attrs 0 0)
    [Other (fresh_attrs 1 1) "Assign"
       [Name (fresh_attrs 2 1) "x" Store; Constant (fresh_attrs 3 1) (VInt 0)];
     FunctionDef (fresh_attrs 4 2) false "f"
       (Some (arguments (fresh_attrs 5 2) [] [] None [] [] None []))
       [Other (fresh_attrs 6 3) "Assign"
          [Name (fresh_attrs 7 3) "x" Store; Constant (fresh_attrs 8 3) (VInt 1)];
        FunctionDef (fresh_attrs 9 4) false "g"
          (Some (arguments (fresh_attrs 10 4) [] [] None [] [] None []))
          [Global (fresh_attrs 11 5) ["x"];
           Other (fresh_attrs 12 6) "Assign"
             [Name (fresh_attrs 13 6) "x" Store;
              Constant (fresh_attrs 14 6) (VInt 2)]]
          [] None []]
       [] None []].

(** Its namespaces: 0 the module, 1 [f], 2 [g]. *)
Definition global_shadow_heap : heap :=
  heap_after (create_all_namespaces (add_parent global_shadow None) ;;
              bind_name "x" 0 ;; bind_name "f" 0 ;; bind_name "x" 1 ;;
              bind_name "g" 1).

(** The namespace of the module [eval('1')], before resolution. *)
Definition eval_module_heap : heap :=
  [Namespace_init ModuleNamespace (NodeRef 0 "Module") EmptyString].

(** The annotated tree after a computation that returns one. *)
Definition tree_after (m : M (nat * ast)) : option ast :=
  match m [] with
  | Ok ((_, t), _) => Some t
  | Raise _ => None
  end.

(** <<
    class A:
        @classmethod
        def b(cls, x, *rest):
            pass
    >> *)
Definition classmethod_example : ast :=
  Module (fresh_attrs 0 0)
    [ClassDef (fresh_attrs 1 1) "A" [] []
       [FunctionDef (fresh_attrs 2 3) false "b"
          (Some (arguments (fresh_attrs 3 3) []
                   [arg (fresh_attrs 4 3) "cls" None; arg (fresh_attrs 5 3) "x" None]
                   (Some (arg (fresh_attrs 6 3) "rest" None)) [] [] None []))
          [Other (fresh_attrs 7 4) "Pass" []]
          [Name (fresh_attrs 8 2) "classmethod" Load] None []]
       [] []].

(** <<
    class A:
        @staticmethod
        def m(a, /):
            pass
    >> *)
Definition posonly_example : ast :=
  Module (fresh_attrs 0 0)
    [ClassDef (fresh_attrs 1 1) "A" [] []
       [FunctionDef (fresh_attrs 2 3) false "m"
          (Some (arguments (fresh_attrs 3 3)
                   [arg (fresh_attrs 4 3) "a" None] [] None [] [] None []))
          [Other (fresh_attrs 5 4) "Pass" []]
          [Name (fresh_attrs 6 2) "staticmethod" Load] None []]
       [] []].

(** The tree and the heap after the Parent Linker and the Scope Tree
    Builder. *)
Definition built_tree (module : ast) : ast :=
  default module (tree_after (create_all_namespaces (add_parent module None))).

Definition built_heap (module : ast) : heap :=
  heap_after (create_all_namespaces (add_parent module None)).

(** The parameters of a function definition in the order in which a call
    fills them by position: the position-only ones, then [args.args]. *)
Definition positional_parameters (func_node : ast) : list ast :=
  match func_node with
  | FunctionDef _ _ _ (Some (arguments _ po ar _ _ _ _ _)) _ _ _ _ => po ++ ar
  | _ => []
  end.

(** A parameter after [assign_arguments_to_namespace]: the parameter is
    annotated with the function namespace and its annotation, if any, with
    the enclosing namespace. *)
Definition arg_assigned (parent_namespace function_namespace : nat) (a : ast)
  : Prop :=
  owned_by function_namespace a ∧
  ∀ an, annotation_of a = Some an → owned_by parent_namespace an.

Definition arguments_assigned (parent_namespace function_namespace : nat)
    (args : ast) : Prop :=
  match args with
  | arguments a po ar va ko kd kw de =>
      namespace a = Some function_namespace ∧
      Forall (arg_assigned parent_namespace function_namespace) po ∧
      Forall (arg_assigned parent_namespace function_namespace) ar ∧
      Forall (arg_assigned parent_namespace function_namespace) ko ∧
      Forall (λ o, ∀ d, o = Some d → owned_by parent_namespace d) kd ∧
      Forall (owned_by parent_namespace) de ∧
      (∀ v, va = Some v → owned_by function_namespace v) ∧
      (∀ v, kw = Some v → owned_by function_namespace v)
  | _ => False
  end.

(** A clause of a comprehension after [create_comprehension_namespace]. *)
Definition generator_assigned (comprehension_namespace iter_namespace : nat)
    (g : ast) : Prop :=
  match g with
  | comprehension a t i fs =>
      namespace a = Some comprehension_namespace ∧
      owned_by comprehension_namespace t ∧
      owned_by iter_namespace i ∧
      Forall (owned_by comprehension_namespace) fs
  | _ => False
  end.

(** A namespace object of class [c], introduced by the node that [r] refers
    to, whose parent is [p]. *)
Definition introduced_by (r : node_ref) (c : ns_class) (p : nat) (N : Namespace)
  : Prop :=
  ns_kind N = c ∧ namespace_node N = r ∧ parent_namespace N = Some p.

(** ** Reasoning about computations *)

(** The computation [m] returns from the heap [h], with a result and a heap
    that satisfy [Φ]. *)
Definition wp {A} (m : M A) (h : heap) (Φ : A → heap → Prop) : Prop :=
  match m h with
  | Ok (a, h') => Φ a h'
  | Raise _ => False
  end.

(** What a call of [create_child_namespaces] on [n] achieves. *)
Definition visited (n : ast) (ns : nat) (h : heap) (n' : ast) (h' : heap)
  : Prop :=
  erase n' = erase n ∧ owned_by ns n' ∧ heap_ext h h'.

(** The callback of the handlers behaves on trees of height below
    [bound]. *)
Definition rec_ok (rec : ast → nat → M ast) (bound : nat) : Prop :=
  ∀ n ns h, height n < bound → tree_ok n → ns < length h →
    wp (rec n ns) h (visited n ns h).

(** What matters about a tree for a call with fuel [bound]. *)
Definition ok (bound : nat) (n : ast) : Prop := height n < bound ∧ tree_ok n.

(** The clauses of a comprehension: the iterable of the first one is
    annotated with [iter_namespace], those of the later ones with the
    comprehension namespace. *)
Fixpoint generators_assigned (comprehension_namespace iter_namespace : nat)
    (gs : list ast) : Prop :=
  match gs with
  | [] => True
  | g :: gs =>
      generator_assigned comprehension_namespace iter_namespace g ∧
      generators_assigned comprehension_namespace comprehension_namespace gs
  end.

(** The namespaces that a scope-introducing node, referred to by [n], adds
    to the heap [h]: a namespace [inner] of class [c]; below an annotation
    namespace, which owns the type parameters, when there are any. *)
Definition scopes_introduced (n : node_ref) (c : ns_class) (ns : nat) (h h' : heap)
    (type_params : list ast) (inner : nat) : Prop :=
  match type_params with
  | [] =>
      inner = length h ∧ ∃ N, h' !! inner = Some N ∧ introduced_by n c ns N
  | _ :: _ =>
      inner = S (length h) ∧
      (∃ NA, h' !! length h = Some NA ∧
             introduced_by n AnnotationNamespace ns NA) ∧
      (∃ N, h' !! inner = Some N ∧ introduced_by n c (length h) N) ∧
      Forall (owned_by (length h)) type_params
  end.

(** A scope-introducing node [n'] after its handler has run on the node that
    [n] refers to, with the enclosing namespace [ns]. *)
Definition scope_assigned (n : node_ref) (ns : nat) (h h' : heap) (n' : ast) : Prop :=
  match n' with
  | FunctionDef _ _ _ ar b d r t =>
      ∃ F, scopes_introduced n FunctionNamespace ns h h' t F ∧
           (∀ x, ar = Some x → arguments_assigned ns F x) ∧
           Forall (owned_by F) b ∧ Forall (owned_by ns) d ∧
           (∀ x, r = Some x → owned_by ns x)
  | Lambda _ ar b =>
      ∃ F, scopes_introduced n FunctionNamespace ns h h' [] F ∧
           arguments_assigned ns F ar ∧ owned_by F b
  | ClassDef _ _ ba k b d t =>
      ∃ C, scopes_introduced n ClassNamespace ns h h' t C ∧
           Forall (owned_by ns) ba ∧ Forall (owned_by ns) k ∧
           Forall (owned_by C) b ∧ Forall (owned_by ns) d
  | Comp _ _ e g =>
      ∃ K, scopes_introduced n FunctionNamespace ns h h' [] K ∧
           owned_by K e ∧ generators_assigned K ns g
  | DictComp _ k v g =>
      ∃ K, scopes_introduced n FunctionNamespace ns h h' [] K ∧
           owned_by K k ∧ owned_by K v ∧ generators_assigned K ns g
  | _ => False
  end.

(** The nodes that introduce a scope. *)
Definition introduces_scope (n : ast) : bool :=
  match n with
  | FunctionDef _ _ _ _ _ _ _ _ | Lambda _ _ _ | ClassDef _ _ _ _ _ _ _
  | Comp _ _ _ _ | DictComp _ _ _ _ => true
  | _ => false
  end.

(** The heap after a name has been visited. *)
Definition after_name (a : attrs) (i : string) (c : expr_context) (ns : nat)
    (h : heap) : heap :=
  if isinstance_ns h ns ClassNamespace
     && (bool_decide (c = Load)
         || bool_decide (c = Store)
            && from_option (λ p, bool_decide (ref_class p = "AugAssign")) false
                 (parent a))
  then alter (update_nonlocal_names [i]) ns h
  else h.


(** A comprehension node after the builder: [K] is the comprehension
    namespace and [ns] the enclosing one.  The element (or key and value),
    and in every clause the target and the conditions, are annotated with
    [K]; the iterable of clause 0 with [ns], that of a later clause with
    [K]. *)
Definition clauses_assigned (K ns : nat) (generators : list ast) : Prop :=
  ∀ i g, generators !! i = Some g →
    generator_assigned K (if decide (i = 0) then ns else K) g.

Definition comprehension_assigned (K ns : nat) (n' : ast) : Prop :=
  match n' with
  | Comp _ _ e g => owned_by K e ∧ clauses_assigned K ns g
  | DictComp _ k v g => owned_by K k ∧ owned_by K v ∧ clauses_assigned K ns g
  | _ => False
  end.

Definition is_comprehension_expr (n : ast) : bool :=
  match n with
  | Comp _ _ _ _ | DictComp _ _ _ _ => true
  | _ => false
  end.

(** The type parameters of a definition. *)
Definition type_params_of (n : ast) : list ast :=
  match n with
  | FunctionDef _ _ _ _ _ _ _ t | ClassDef _ _ _ _ _ _ t => t
  | _ => []
  end.

(** The class of the namespace that a scope-introducing node creates for
    its body. *)
Definition scope_class (n : ast) : ns_class :=
  match n with
  | ClassDef _ _ _ _ _ _ _ => ClassNamespace
  | _ => FunctionNamespace
  end.

(** A definition with type parameters after the builder: [A] is the
    annotation namespace, [I] the namespace of the body and [ns] the
    enclosing namespace. *)
Definition generic_definition_assigned (A I ns : nat) (n' : ast) : Prop :=
  match n' with
  | FunctionDef _ _ _ ar b d r t =>
      Forall (owned_by A) t ∧
      (∀ x, ar = Some x → arguments_assigned ns I x) ∧
      (∀ x, r = Some x → owned_by ns x) ∧
      Forall (owned_by I) b ∧ Forall (owned_by ns) d
  | ClassDef _ _ ba k b d t =>
      Forall (owned_by A) t ∧ Forall (owned_by ns) ba ∧
      Forall (owned_by ns) k ∧ Forall (owned_by I) b ∧ Forall (owned_by ns) d
  | _ => False
  end.

(** <<
    K = 1
    def f[T](x: T = K) -> T:
        pass
    >> *)
Definition generic_function : ast :=
  Module (fresh_attrs 0 0)
    [Other (fresh_attrs 1 1) "Assign"
       [Name (fresh_attrs 2 1) "K" Store; Constant (fresh_attrs 3 1) (VInt 1)];
     FunctionDef (fresh_attrs 4 2) false "f"
       (Some (arguments (fresh_attrs 5 2) []
                [arg (fresh_attrs 6 2) "x" (Some (Name (fresh_attrs 7 2) "T" Load))]
                None [] [] None [Name (fresh_attrs 8 2) "K" Load]))
       [Other (fresh_attrs 9 3) "Pass" []]
       [] (Some (Name (fresh_attrs 10 2) "T" Load))
       [Other (fresh_attrs 11 2) "TypeVar" []]].

(** Its namespaces: 0 the module, 1 the annotation namespace of [f], 2 the
    function namespace of [f]; with the bindings of the Binder. *)
Definition generic_function_heap : heap :=
  heap_after (create_all_namespaces (add_parent generic_function None) ;;
              bind_name "K" 0 ;; bind_name "f" 0 ;; bind_name "T" 1 ;;
              bind_name "x" 2).

(** <<
    class C:
        total = total + [x for x in xs for y in x if y]
        count += 1
    >> *)
Definition class_body_example : ast :=
  Module (fresh_attrs 0 0)
    [ClassDef (fresh_attrs 1 1) "C" [] []
       [Other (fresh_attrs 2 2) "Assign"
          [Name (fresh_attrs 3 2) "total" Store;
           Other (fresh_attrs 4 2) "BinOp"
             [Name (fresh_attrs 5 2) "total" Load;
              Comp (fresh_attrs 6 2) ListComp (Name (fresh_attrs 7 2) "x" Load)
                [comprehension (fresh_attrs 8 2)
                   (Name (fresh_attrs 9 2) "x" Store)
                   (Name (fresh_attrs 10 2) "xs" Load) [];
                 comprehension (fresh_attrs 11 2)
                   (Name (fresh_attrs 12 2) "y" Store)
                   (Name (fresh_attrs 13 2) "x" Load)
                   [Name (fresh_attrs 14 2) "y" Load]]]];
        Other (fresh_attrs 15 3) "AugAssign"
          [Name (fresh_attrs 16 3) "count" Store;
           Constant (fresh_attrs 17 3) (VInt 1)]]
       [] []].

(** <<
    [x for x in xs for y in x if y]
    >> *)
Definition listcomp_example : ast :=
  Comp (fresh_attrs 6 2) ListComp (Name (fresh_attrs 7 2) "x" Load)
    [comprehension (fresh_attrs 8 2)
       (Name (fresh_attrs 9 2) "x" Store) (Name (fresh_attrs 10 2) "xs" Load) [];
     comprehension (fresh_attrs 11 2)
       (Name (fresh_attrs 12 2) "y" Store) (Name (fresh_attrs 13 2) "x" Load)
       [Name (fresh_attrs 14 2) "y" Load]].

(** <<
    def f[T](x: T = K) -> T:
        pass
    >> *)
Definition generic_def_example : ast :=
  FunctionDef (fresh_attrs 4 2) false "f"
    (Some (arguments (fresh_attrs 5 2) []
             [arg (fresh_attrs 6 2) "x" (Some (Name (fresh_attrs 7 2) "T" Load))]
             None [] [] None [Name (fresh_attrs 8 2) "K" Load]))
    [Other (fresh_attrs 9 3) "Pass" []]
    [] (Some (Name (fresh_attrs 10 2) "T" Load))
    [Other (fresh_attrs 11 2) "TypeVar" []].

(** Whether the builder records the name of a [Name] node, visited in a
    class namespace, as nonlocal: a read, or the target of an augmented
    assignment. *)
Definition deferred (a : attrs) (c : expr_context) : bool :=
  bool_decide (c = Load)
  || bool_decide (c = Store)
     && from_option (λ p, bool_decide (ref_class p = "AugAssign")) false (parent a).

(** A heap with a module namespace and a class namespace in which [count]
    is bound. *)
Definition class_heap : heap :=
  [Namespace_init ModuleNamespace (NodeRef 0 "Module") EmptyString;
   append_binding (new_binding NameBinding "count")
     (set_parent_namespace 0 (Namespace_init ClassNamespace (NodeRef 1 "ClassDef") "C"))].

(** What a parser guarantees of a node: the conditions of [node_ok] on the
    classes of the fields. *)
Definition node_typed (n : ast) : bool :=
  match n with
  | Name _ _ _ => true
  | _ => node_ok n
  end.

Definition typed (n : ast) : Prop := forallb node_typed (nodes n) = true.

(** ** Programs of the test suite *)

(** A summary of a namespace object, for comparison with the expected trees
    of [test_create_namespaces.py]. *)
Definition summary (N : Namespace)
  : ns_class * string * option nat * gset string * gset string :=
  (ns_kind N, name N, parent_namespace N, global_names N, nonlocal_names N).

Definition no_arguments (i line : nat) : option ast :=
  Some (arguments (fresh_attrs i line) [] [] None [] [] None []).

(** [test_global_nonlocal]:
    <<
    def A():
      global A, B
      def n():
        nonlocal A
        global B
      def c():
        global c
    >> *)
Definition test_global_nonlocal : ast :=
  Module (fresh_attrs 0 0)
    [FunctionDef (fresh_attrs 1 2) false "A" (no_arguments 2 2)
       [Global (fresh_attrs 3 3) ["A"; "B"];
        FunctionDef (fresh_attrs 4 5) false "n" (no_arguments 5 5)
          [Nonlocal (fresh_attrs 6 6) ["A"]; Global (fresh_attrs 7 7) ["B"]]
          [] None [];
        FunctionDef (fresh_attrs 8 9) false "c" (no_arguments 9 9)
          [Global (fresh_attrs 10 10) ["c"]] [] None []]
       [] None []].

(** The third scenario of the spec:
    <<
    A = 1
    class Class:
        A = A + 1
    >> *)
Definition class_free_variable : ast :=
  Module (fresh_attrs 0 0)
    [Other (fresh_attrs 1 1) "Assign"
       [Name (fresh_attrs 2 1) "A" Store; Constant (fresh_attrs 3 1) (VInt 1)];
     ClassDef (fresh_attrs 4 2) "Class" [] []
       [Other (fresh_attrs 5 3) "Assign"
          [Name (fresh_attrs 6 3) "A" Store;
           Other (fresh_attrs 7 3) "BinOp"
             [Name (fresh_attrs 8 3) "A" Load; Other (fresh_attrs 9 3) "Add" [];
              Constant (fresh_attrs 10 3) (VInt 1)]]]
       [] []].

(** [test_typeparam]:
    <<
    @decorator
    def f[T: int, U: (int, str), *V, **P](
        x: T = SOME_CONSTANT,
        y: U = 2+2,
        *args: *Ts,
        **kwargs: P.kwargs,
    ) -> T:
        class C[T](Base):
            def generic_method[Tx](self, x: T, y: Nested) -> T:
              pass
    >> *)
Definition test_typeparam : ast :=
  Module (fresh_attrs 0 0)
    [FunctionDef (fresh_attrs 1 3) false "f"
       (Some (arguments (fresh_attrs 2 3) []
                [arg (fresh_attrs 3 4) "x" (Some (Name (fresh_attrs 4 4) "T" Load));
                 arg (fresh_attrs 5 5) "y" (Some (Name (fresh_attrs 6 5) "U" Load))]
                (Some (arg (fresh_attrs 7 6) "args"
                         (Some (Other (fresh_attrs 8 6) "Starred"
                                  [Name (fresh_attrs 9 6) "Ts" Load]))))
                [] []
                (Some (arg (fresh_attrs 10 7) "kwargs"
                         (Some (Other (fresh_attrs 11 7) "Attribute"
                                  [Name (fresh_attrs 12 7) "P" Load]))))
                [Name (fresh_attrs 13 4) "SOME_CONSTANT" Load;
                 Other (fresh_attrs 14 5) "BinOp"
                   [Constant (fresh_attrs 15 5) (VInt 2);
                    Other (fresh_attrs 16 5) "Add" [];
                    Constant (fresh_attrs 17 5) (VInt 2)]]))
       [ClassDef (fresh_attrs 18 9) "C" [Name (fresh_attrs 19 9) "Base" Load] []
          [FunctionDef (fresh_attrs 20 10) false "generic_method"
             (Some (arguments (fresh_attrs 21 10) []
                      [arg (fresh_attrs 22 10) "self" None;
                       arg (fresh_attrs 23 10) "x"
                         (Some (Name (fresh_attrs 24 10) "T" Load));
                       arg (fresh_attrs 25 10) "y"
                         (Some (Name (fresh_attrs 26 10) "Nested" Load))]
                      None [] [] None []))
             [Other (fresh_attrs 27 11) "Pass" []]
             [] (Some (Name (fresh_attrs 28 10) "T" Load))
             [Other (fresh_attrs 29 10) "TypeVar" []]]
          [] [Other (fresh_attrs 30 9) "TypeVar" []]]
       [Name (fresh_attrs 31 2) "decorator" Load]
       (Some (Name (fresh_attrs 32 8) "T" Load))
       [Other (fresh_attrs 33 3) "TypeVar" [Name (fresh_attrs 34 3) "int" Load];
        Other (fresh_attrs 35 3) "TypeVar"
          [Other (fresh_attrs 36 3) "Tuple"
             [Name (fresh_attrs 37 3) "int" Load; Name (fresh_attrs 38 3) "str" Load]];
        Other (fresh_attrs 39 3) "TypeVarTuple" [];
        Other (fresh_attrs 40 3) "ParamSpec" []]].

(** ** What a resolution leaves of the heap *)

(** A namespace object before and after calls of [get_binding]: only the
    bindings of a module namespace can grow, at the end of the list, and the
    attribute [tainted] can appear. *)
Definition resolved (N N' : Namespace) : Prop :=
  ns_kind N' = ns_kind N ∧ name N' = name N ∧ namespace_node N' = namespace_node N ∧
  parent_namespace N' = parent_namespace N ∧
  global_names N' = global_names N ∧ nonlocal_names N' = nonlocal_names N ∧
  children N' = children N ∧ _tainted N' = _tainted N ∧
  assigned_names N' = assigned_names N ∧
  bindings N `prefix_of` bindings N' ∧
  (ns_kind N ≠ ModuleNamespace → N' = N).

Definition resolution_frame (h h' : heap) : Prop :=
  length h' = length h ∧
  ∀ i N, h !! i = Some N → ∃ N', h' !! i = Some N' ∧ resolved N N'.

(** The heap that a computation leaves when run in [h], [h] itself if it
    raised. *)
Definition heap_of {A} (m : M A) (h : heap) : heap :=
  match m h with
  | Ok (_, h') => h'
  | Raise _ => h
  end.

(** The namespaces of [nonlocal_in_method] after [len] was resolved from the
    method. *)
Definition len_in_method_heap : heap :=
  heap_of (get_binding some_builtins 5 "len" 3) nonlocal_in_method_heap.

(** ** Definitions without type parameters *)

(** Function definitions, lambdas and class definitions. *)
Definition is_definition (n : ast) : bool :=
  match n with
  | FunctionDef _ _ _ _ _ _ _ _ | Lambda _ _ _ | ClassDef _ _ _ _ _ _ _ => true
  | _ => false
  end.

(** A definition without type parameters after the builder: [I] is the
    namespace of the body and [ns] the enclosing namespace. *)
Definition definition_assigned (I ns : nat) (n' : ast) : Prop :=
  match n' with
  | FunctionDef _ _ _ ar b d r _ =>
      (∀ x, ar = Some x → arguments_assigned ns I x) ∧
      (∀ x, r = Some x → owned_by ns x) ∧
      Forall (owned_by I) b ∧ Forall (owned_by ns) d
  | Lambda _ ar b => arguments_assigned ns I ar ∧ owned_by I b
  | ClassDef _ _ ba k b d _ =>
      Forall (owned_by ns) ba ∧ Forall (owned_by ns) k ∧
      Forall (owned_by I) b ∧ Forall (owned_by ns) d
  | _ => False
  end.

(** [lambda x, y=d: x] *)
Definition lambda_example : ast :=
  Lambda (fresh_attrs 0 1)
    (arguments (fresh_attrs 1 1) []
       [arg (fresh_attrs 2 1) "x" None; arg (fresh_attrs 3 1) "y" None]
       None [] [] None [Name (fresh_attrs 4 1) "d" Load])
    (Name (fresh_attrs 5 1) "x" Load).

(** ** The parent links of a tree *)

(** Every child node of every node of the tree that is an object of its own
    ([child_nodes]) refers to that node as its parent.  Nothing is said of
    the shared context and operator objects, which have many parents. *)
Definition parents_linked (t : ast) : Prop :=
  Forall (λ m, Forall (λ c, parent (attrs_of c) = Some (ref_of m)) (child_nodes m))
         (nodes t).

(** Erasing the [parent] slots. *)
Definition clear_parent (a : attrs) : attrs :=
  {| nid := nid a; lineno := lineno a; col_offset := col_offset a;
     parent := None; namespace := namespace a |}.

Fixpoint strip_parents (n : ast) : ast :=
  with_attrs clear_parent (map_children strip_parents n).

(** ** transforms/suite_transformer.py: SuiteTransformer.add_child *)

(** [SuiteTransformer.add_child(child, parent)] *)
Definition SuiteTransformer_add_child (child parent : ast) : M ast :=
  let child := add_parent child (Some (ref_of parent)) in
  match namespace_of parent with
  | None => raise (AttributeError "namespace")
  | Some parent_namespace =>
      create_child_namespaces (S (height child)) child parent_namespace
  end.

(** [print(x)], a statement to add to a suite. *)
Definition print_statement : ast :=
  Other (fresh_attrs 20 9) "Expr"
    [Other (fresh_attrs 21 9) "Call"
       [Name (fresh_attrs 22 9) "print" Load; Name (fresh_attrs 23 9) "x" Load]].

(** ** The parameters of a function *)

(** [args.posonlyargs], [args.args], [args.vararg] and [args.kwarg] of a
    function definition or a lambda. *)
Definition signature (func_node : ast)
  : option (list ast * list ast * option ast * option ast) :=
  match func_node with
  | FunctionDef _ _ _ (Some (arguments _ po ar va _ _ kw _)) _ _ _ _
  | Lambda _ (arguments _ po ar va _ _ kw _) _ => Some (po, ar, va, kw)
  | _ => None
  end.

(** The parameter object [node] is [args.vararg], [args.kwarg] or one of
    [args.posonlyargs]. *)
Definition variadic_or_position_only (po : list ast) (va kw : option ast)
    (node : ast) : bool :=
  option_is va node || option_is kw node || existsb (node_is node) po.

(** The function is a named function defined in a class namespace and
    [node] is [args.args[0]]. *)
Definition first_of_method (h : heap) (func_node : ast) (ar : list ast)
    (node : ast) : bool :=
  from_option (λ fns, isinstance_ns h fns ClassNamespace) false
    (namespace_of func_node)
  && negb (bool_decide (class_name func_node = "Lambda"))
  && option_is (head ar) node.

(** The node with identity [i] of a tree that has one. *)
Definition node_at (tree : ast) (i : nat) : ast := default tree (find_node i tree).

(** ** transforms/suite_transformer.py: NodeVisitor *)

(** [for item in ...: self.visit(item)] *)
Fixpoint visit_each (visit : ast → result unit) (l : list ast) : result unit :=
  match l with
  | [] => Ok tt
  | item :: l =>
      match visit item with
      | Ok _ => visit_each visit l
      | Raise e => Raise e
      end
  end.

(** [NodeVisitor.visit] of a visitor that adds no method to the class: the
    only [visit_...] method is [visit_Constant], every other node goes to
    [generic_visit], which visits the child nodes in field order. *)
Fixpoint NodeVisitor_visit (fuel : nat) (node : ast) : result unit :=
  match fuel with
  | 0 => Raise OutOfFuel
  | S fuel =>
      let generic_visit :=
        λ node, visit_each (NodeVisitor_visit fuel) (child_nodes node) in
      if bool_decide (class_name node = "Constant")
      then visit_Constant (λ _, None) generic_visit node
      else generic_visit node
  end.

(** The exception that [visit_Constant] raises at a node, if any. *)
Definition visit_failure (n : ast) : option exn :=
  if bool_decide (class_name n = "Constant")
  then match visit_Constant (λ _, None) (λ _, Ok tt) n with
       | Raise e => Some e
       | Ok _ => None
       end
  else None.

(** [f(1, q, (2, 3), s)], where [q] is a constant node whose value is a
    [Fraction] equal to [True], and the tuple and the set [s] have been
    folded into constants. *)
Definition folded_tuple_example : ast :=
  Other (fresh_attrs 0 1) "Expr"
    [Other (fresh_attrs 1 1) "Call"
       [Name (fresh_attrs 2 1) "f" Load;
        Constant (fresh_attrs 3 1) (VInt 1);
        Constant (fresh_attrs 6 1) (VEqual "Fraction" ToSingleton);
        Constant (fresh_attrs 4 1) (VOther "tuple");
        Constant (fresh_attrs 5 1) (VOther "frozenset")]].

(** ** rename/util.py: insert *)

Section insert.
Context {A : Type}.

(** The test of [insert] on a node of the suite: whether the node is a
    [from __future__ import ...] statement or a docstring.  It reads the
    attribute [module] of an import and calls [is_ast_node], which are not
    among the sources; [insert] is modelled for any such test. *)
Variable stays_first : A → bool.

(** The loop of the generator [insert(suite, new_node)], with its flag
    [inserted]; the result is the sequence of the nodes it yields. *)
Fixpoint insert_from (inserted : bool) (suite : list A) (new_node : A) : list A :=
  match suite with
  | [] => if inserted then [] else [new_node]
  | node :: suite =>
      if negb inserted then
        if stays_first node
        then node :: insert_from false suite new_node
        else new_node :: node :: insert_from true suite new_node
      else node :: insert_from inserted suite new_node
  end.

Definition insert (suite : list A) (new_node : A) : list A :=
  insert_from false suite new_node.
End insert.

(** ** rename/util.py: the renaming options *)

Definition set_bindings (bs : list Binding) (N : Namespace) : Namespace :=
  {| ns_kind := ns_kind N; name := name N; node := node N;
     parent_namespace := parent_namespace N; bindings := bs;
     global_names := global_names N; nonlocal_names := nonlocal_names N;
     children := children N; _tainted := _tainted N;
     assigned_names := assigned_names N; tainted := tainted N |}.

(** The body of the loops over [namespace.bindings]:
    [if rename is False or binding.name in preserve: binding.disallow_rename()] *)
Definition apply_rename_option (rename : bool) (preserve : list string)
    (b : Binding) : Binding :=
  if negb rename || bool_decide (b_name b ∈ preserve)
  then disallow_rename b else b.

(** The loop over the bindings of one namespace. *)
Definition rename_options_applied (rename : bool) (preserve : list string)
    (N : Namespace) : Namespace :=
  set_bindings (apply_rename_option rename preserve <$> bindings N) N.

(** [apply_global_rename_options(module_namespace, rename_globals,
    preserve_globals)].  [find__all__] reads fields of the statements of
    the module that the tree type does not keep apart ([targets], [value],
    [elts]); its result is the parameter [all_names].  The list
    [preserve_globals] is extended in place: the result is the list after
    the call. *)
Definition apply_global_rename_options (all_names : list string)
    (module_namespace : nat) (rename_globals : bool)
    (preserve_globals : option (list string)) : M (list string) :=
  let preserve_globals := default [] preserve_globals ++ all_names in
  h <- get_heap ;;
  match h !! module_namespace with
  | None => raise (AttributeError "bindings")
  | Some _ =>
      modify module_namespace
        (rename_options_applied rename_globals preserve_globals) ;;
      ret preserve_globals
  end.

(** [for x in xs: f(x)] *)
Fixpoint iterM {A} (f : A → M unit) (l : list A) : M unit :=
  match l with
  | [] => ret tt
  | x :: l => f x ;; iterM f l
  end.

(** [apply_local_rename_options(namespace, rename_locals, preserve_locals)] *)
Fixpoint apply_local_rename_options (fuel : nat) (namespace : nat)
    (rename_locals : bool) (preserve_locals : option (list string)) : M unit :=
  match fuel with
  | 0 => raise OutOfFuel
  | S fuel =>
      let preserve_locals := default [] preserve_locals in
      h <- get_heap ;;
      match h !! namespace with
      | None => raise (AttributeError "bindings")
      | Some N =>
          (if isinstance_ns h namespace ModuleNamespace then ret tt
           else modify namespace
                  (rename_options_applied rename_locals preserve_locals)) ;;
          iterM (λ child_namespace,
                   apply_local_rename_options fuel child_namespace rename_locals
                     (Some preserve_locals))
                (children N)
      end
  end.

(** What [apply_local_rename_options] does to a namespace object. *)
Definition local_options_applied (rename : bool) (preserve : list string)
    (N : Namespace) : Namespace :=
  if bool_decide (ns_kind N = ModuleNamespace) then N
  else rename_options_applied rename preserve N.

(** The lists [children] refer to younger namespaces of the heap. *)
Definition children_bounded (h : heap) : Prop :=
  ∀ i N c, h !! i = Some N → c ∈ children N → i < c < length h.

(** Every namespace with a parent is among the [children] of that
    parent. *)
Definition children_linked (h : heap) : Prop :=
  ∀ j N p, h !! j = Some N → parent_namespace N = Some p →
    ∃ Np, h !! p = Some Np ∧ j ∈ children Np.

(** The namespace [j] is reached from [ns] through the lists [children]. *)
Inductive reach (h : heap) : nat → nat → Prop :=
| reach_refl ns : reach h ns ns
| reach_child ns N c j :
    h !! ns = Some N → c ∈ children N → reach h c j → reach h ns j.

(** Decision procedures for concrete heaps. *)
Definition children_boundedb (h : heap) : bool :=
  forallb (λ iN, forallb (λ c, bool_decide (iN.1 < c < length h)) (children iN.2))
          (imap pair h).

Definition children_linkedb (h : heap) : bool :=
  forallb (λ jN, match parent_namespace jN.2 with
                 | None => true
                 | Some p =>
                     match h !! p with
                     | Some Np => bool_decide (jN.1 ∈ children Np)
                     | None => false
                     end
                 end)
          (imap pair h).

(** One step of an update of the flags: every namespace object is what it
    was, or has the options applied. *)
Definition options_step (rename : bool) (preserve : list string) (h h' : heap)
  : Prop :=
  length h' = length h ∧
  ∀ j N, h !! j = Some N →
    h' !! j = Some N ∨ h' !! j = Some (local_options_applied rename preserve N).

(** ** rename/util.py: is_namespace *)

(** [is_namespace(node)]: [isinstance(node, namespace_nodes)] *)
Definition is_namespace (node : ast) : bool :=
  match node with
  | FunctionDef _ _ _ _ _ _ _ _ | Lambda _ _ _ | ClassDef _ _ _ _ _ _ _
  | Module _ _ | Comp _ _ _ _ | DictComp _ _ _ _ => true
  | _ => false
  end.

(** The names of the classes in [namespace_nodes]. *)
Definition namespace_nodes : list string :=
  ["FunctionDef"; "Lambda"; "ClassDef"; "Module"; "GeneratorExp"; "SetComp";
   "DictComp"; "ListComp"; "AsyncFunctionDef"].

(** ** The shape of the namespace tree *)

(** How the builder changes the heap: it creates a namespace and adds it to
    the children of an existing one, or it adds names to the declared-global
    or declared-nonlocal set of a namespace. *)
Inductive grows : heap → heap → Prop :=
| grows_refl h : grows h h
| grows_child h c r nm p h' :
    p < length h → c ≠ ModuleNamespace → ref_class r ∈ namespace_nodes →
    grows (alter (append_child (length h)) p
             (h ++ [set_parent_namespace p (Namespace_init c r nm)])) h' →
    grows h h'
| grows_global h ns names h' :
    grows (alter (update_global_names names) ns h) h' → grows h h'
| grows_nonlocal h ns names h' :
    grows (alter (update_nonlocal_names names) ns h) h' → grows h h'.

(** The namespace tree: the lists [children] and the references
    [parent_namespace] describe the same tree, a namespace is younger than
    its parent and occurs once among its children, and was introduced by a
    node of one of the classes of [is_namespace]. *)
Record namespace_tree (h : heap) : Prop := {
  tree_bounded : children_bounded h;
  tree_linked : children_linked h;
  tree_parent :
    ∀ i N c, h !! i = Some N → c ∈ children N →
      ∃ Nc, h !! c = Some Nc ∧ parent_namespace Nc = Some i;
  tree_NoDup : ∀ i N, h !! i = Some N → NoDup (children N);
  tree_nodes :
    ∀ i N, h !! i = Some N → ref_class (namespace_node N) ∈ namespace_nodes
}.

(** The computation [m], run in [h], raises or returns a result and a heap
    that satisfy [Φ]. *)
Definition pc {A} (m : M A) (h : heap) (Φ : A → heap → Prop) : Prop :=
  ∀ a h', m h = Ok (a, h') → Φ a h'.

(** A decision procedure for [namespace_tree], for concrete heaps. *)
Definition namespace_treeb (h : heap) : bool :=
  children_boundedb h && children_linkedb h &&
  forallb (λ iN,
             forallb (λ c, match h !! c with
                           | Some Nc =>
                               bool_decide (parent_namespace Nc = Some iN.1)
                           | None => false
                           end) (children iN.2)
             && bool_decide (NoDup (children iN.2))
             && bool_decide (ref_class (namespace_node iN.2) ∈ namespace_nodes))
          (imap pair h).

(** ** Names that are unresolved at module scope *)




(** ** The annotations of the variadic parameters *)

(** A node after the builder has visited it in the namespace [ns]: the node
    is annotated with [ns] and so is, when the node is a parameter, its
    annotation, which the builder comes to as a child of the parameter. *)
Definition arg_visited (ns : nat) (n' : ast) : Prop :=
  owned_by ns n' ∧ ∀ an, annotation_of n' = Some an → owned_by ns an.

(** The annotation of the parameter [o], if there are both, is annotated
    with the namespace of the parameter. *)
Definition annotation_with_parameter (o : option ast) : Prop :=
  ∀ v an, o = Some v → annotation_of v = Some an →
          namespace_of an = namespace_of v.

(** In a function definition or lambda, the annotations of [*args] and
    [**kwargs] are annotated with the namespace of these parameters. *)
Definition variadic_annotations (n' : ast) : Prop :=
  match n' with
  | FunctionDef _ _ _ (Some (arguments _ _ _ va _ _ kw _)) _ _ _ _
  | Lambda _ (arguments _ _ _ va _ _ kw _) _ =>
      annotation_with_parameter va ∧ annotation_with_parameter kw
  | _ => True
  end.

(** The annotations of the variadic parameters of a function definition are
    annotated with the function namespace [I]. *)
Definition variadic_annotations_assigned (I : nat) (n' : ast) : Prop :=
  match n' with
  | FunctionDef _ _ _ (Some (arguments _ _ _ va _ _ kw _)) _ _ _ _ =>
      ∀ v an, va = Some v ∨ kw = Some v → annotation_of v = Some an →
              owned_by I an
  | _ => True
  end.

(** <<
    def f[T](x: T, *args: T, **kwargs: T) -> T:
        pass
    >> *)
Definition variadic_generic_example : ast :=
  FunctionDef (fresh_attrs 1 1) false "f"
    (Some (arguments (fresh_attrs 2 1) []
             [arg (fresh_attrs 3 1) "x" (Some (Name (fresh_attrs 4 1) "T" Load))]
             (Some (arg (fresh_attrs 5 1) "args"
                      (Some (Name (fresh_attrs 6 1) "T" Load))))
             [] []
             (Some (arg (fresh_attrs 7 1) "kwargs"
                      (Some (Name (fresh_attrs 8 1) "T" Load))))
             []))
    [Other (fresh_attrs 9 2) "Pass" []]
    [] (Some (Name (fresh_attrs 10 1) "T" Load))
    [Other (fresh_attrs 11 1) "TypeVar" []].

(** Its namespaces, created in the module namespace 0: 1 the annotation
    namespace, 2 the function namespace; with the bindings of the Binder. *)
Definition variadic_generic_heap : heap :=
  heap_of (bind_name "f" 0 ;; bind_name "T" 1 ;; bind_name "x" 2 ;;
           bind_name "args" 2 ;; bind_name "kwargs" 2)
    (heap_of (create_child_namespaces 5
                (add_parent variadic_generic_example None) 0)
       eval_module_heap).
(** ** The resolution walk *)

Lemma isinstance_ns_true h ns c :
  isinstance_ns h ns c = true ↔ ∃ N, h !! ns = Some N ∧ ns_kind N = c.
Proof.
  unfold isinstance_ns. destruct (h !! ns) as [N|]; split.
  - intros H%bool_decide_eq_true. eauto.
  - intros (N' & [= <-] & H). by apply bool_decide_eq_true.
  - done.
  - by intros (N' & ? & _).
Qed.

Lemma isinstance_ns_false h ns N c :
  h !! ns = Some N → isinstance_ns h ns c = false ↔ ns_kind N ≠ c.
Proof.
  intros E. unfold isinstance_ns. rewrite E. apply bool_decide_eq_false.
Qed.

Lemma wf_heap_parent h i N p :
  wf_heap h → h !! i = Some N → parent_namespace N = Some p →
  p < i ∧ ns_kind N ≠ ModuleNamespace ∧ is_Some (h !! p).
Proof.
  intros W E P. specialize (W i N E). rewrite P in W. destruct W as [L K].
  repeat split; [done..|]. apply lookup_lt_is_Some.
  apply lookup_lt_Some in E. lia.
Qed.

Lemma wf_heap_module h i N :
  wf_heap h → h !! i = Some N → ns_kind N = ModuleNamespace → i = 0.
Proof.
  intros W E K. specialize (W i N E).
  destruct (parent_namespace N); [by destruct W | by destruct W].
Qed.

Lemma wf_heap_not_module h i N :
  wf_heap h → h !! i = Some N → ns_kind N ≠ ModuleNamespace →
  ∃ p, parent_namespace N = Some p.
Proof.
  intros W E K. specialize (W i N E).
  destruct (parent_namespace N); [eauto | by destruct W].
Qed.

Lemma wf_heap_root h i N :
  wf_heap h → h !! i = Some N → ∃ N0, h !! 0 = Some N0.
Proof.
  intros _ E. apply lookup_lt_Some in E.
  destruct (lookup_lt_is_Some_2 h 0) as [N0 ?]; [lia | eauto].
Qed.

Lemma wf_heap_root_module h N0 :
  wf_heap h → h !! 0 = Some N0 → ns_kind N0 = ModuleNamespace.
Proof.
  intros W E. specialize (W 0 N0 E).
  destruct (parent_namespace N0); [destruct W; lia | by destruct W].
Qed.

(** On a well-formed tree [get_global_namespace] returns the root. *)
Lemma get_global_namespace_root h :
  wf_heap h → ∀ fuel ns, is_Some (h !! ns) → ns < fuel →
  get_global_namespace fuel h ns = Ok 0.
Proof.
  intros W. induction fuel as [|fuel IH]; intros ns [N E] L; [lia|].
  cbn [get_global_namespace].
  destruct (isinstance_ns h ns ModuleNamespace) eqn:I.
  - apply isinstance_ns_true in I as (N' & E' & K).
    by rewrite (wf_heap_module h ns N' W E' K).
  - rewrite E. eapply isinstance_ns_false in I; [|done].
    destruct (wf_heap_not_module h ns N W E I) as [p P]. rewrite P.
    destruct (wf_heap_parent h ns N p W E P) as (? & _ & ?).
    apply IH; [done | lia].
Qed.

Lemma enclosing_scopes_unfold fuel h ns N p :
  h !! ns = Some N → parent_namespace N = Some p →
  enclosing_scopes (S fuel) h ns = p :: enclosing_scopes fuel h p.
Proof. intros E P. cbn. by rewrite E; cbn; rewrite P. Qed.

(** Enough fuel: the chain of a namespace is as long as its depth, which is
    at most its index. *)
Lemma enclosing_scopes_fuel h :
  wf_heap h → ∀ f1 f2 ns, ns ≤ f1 → ns ≤ f2 →
  enclosing_scopes f1 h ns = enclosing_scopes f2 h ns.
Proof.
  intros W. induction f1 as [|f1 IH]; intros f2 ns L1 L2.
  - assert (ns = 0) as -> by lia. destruct f2 as [|f2]; [done|]. cbn.
    destruct (h !! 0) as [N0|] eqn:E; [|done]. cbn.
    destruct (parent_namespace N0) as [p|] eqn:P; [|done].
    destruct (wf_heap_parent h 0 N0 p W E P); lia.
  - destruct f2 as [|f2].
    + assert (ns = 0) as -> by lia. cbn.
      destruct (h !! 0) as [N0|] eqn:E; [|done]. cbn.
      destruct (parent_namespace N0) as [p|] eqn:P; [|done].
      destruct (wf_heap_parent h 0 N0 p W E P); lia.
    + cbn. destruct (h !! ns) as [N|] eqn:E; [|done]. cbn.
      destruct (parent_namespace N) as [p|] eqn:P; [|done].
      destruct (wf_heap_parent h ns N p W E P) as (? & _ & _).
      f_equal. apply IH; lia.
Qed.

(** [get_nonlocal_namespace] computes the nearest enclosing non-class
    scope. *)
Lemma get_nonlocal_namespace_nearest h :
  wf_heap h → ∀ fuel ns, is_Some (h !! ns) → ns < fuel →
  get_nonlocal_namespace fuel h ns = Ok (nearest_enclosing_non_class h ns).
Proof.
  intros W. unfold nearest_enclosing_non_class.
  induction fuel as [|fuel IH]; intros ns [N E] L; [lia|].
  cbn [get_nonlocal_namespace]. rewrite E.
  assert (ns < length h) as Lh by by eapply lookup_lt_Some.
  destruct (length h) as [|n] eqn:Len; [lia|].
  destruct (parent_namespace N) as [p|] eqn:P.
  - destruct (wf_heap_parent h ns N p W E P) as (Lp & _ & Sp).
    rewrite (enclosing_scopes_unfold _ _ _ _ _ E P).
    cbn [list_find]. destruct (isinstance_ns h p ClassNamespace) eqn:I.
    + rewrite IH; [|done|lia]. rewrite decide_False by done.
      rewrite (enclosing_scopes_fuel h W n (S n) p) by lia.
      rewrite <- Len. f_equal.
      by destruct (list_find _ (enclosing_scopes (length h) h p)) as [[??]|].
    + by rewrite decide_True.
  - cbn. by rewrite E; cbn; rewrite P.
Qed.

(** The nearest enclosing non-class scope is older than the namespace, and
    it exists for every namespace but the root. *)
Lemma enclosing_scopes_lt h :
  wf_heap h → ∀ fuel ns p, p ∈ enclosing_scopes fuel h ns →
  p < ns ∧ is_Some (h !! p).
Proof.
  intros W. induction fuel as [|fuel IH]; intros ns p; cbn; [by intros ?%elem_of_nil|].
  destruct (h !! ns) as [N|] eqn:E; cbn; [|by intros ?%elem_of_nil].
  destruct (parent_namespace N) as [q|] eqn:P; [|by intros ?%elem_of_nil].
  destruct (wf_heap_parent h ns N q W E P) as (Lq & _ & Sq).
  intros [->|Hin]%elem_of_cons; [done|].
  destruct (IH _ _ Hin). split; [lia | done].
Qed.

Lemma nearest_enclosing_non_class_Some h ns p :
  wf_heap h → nearest_enclosing_non_class h ns = Some p →
  p < ns ∧ is_Some (h !! p) ∧ isinstance_ns h p ClassNamespace = false.
Proof.
  intros W. unfold nearest_enclosing_non_class.
  destruct (list_find _ _) as [[i q]|] eqn:F; [|done]. intros [= <-].
  apply list_find_Some in F as (Hi & Hq & _).
  apply list_elem_of_lookup_2 in Hi.
  destruct (enclosing_scopes_lt h W _ _ _ Hi). done.
Qed.

Lemma nearest_enclosing_non_class_is_Some h ns N :
  wf_heap h → h !! ns = Some N → ns_kind N ≠ ModuleNamespace →
  is_Some (nearest_enclosing_non_class h ns).
Proof.
  intros W E K.
  assert (get_nonlocal_namespace (S ns) h ns
          = Ok (nearest_enclosing_non_class h ns)) as G
    by (apply get_nonlocal_namespace_nearest; eauto).
  revert N E K G. generalize (nearest_enclosing_non_class h ns) as r.
  generalize (S ns) as fuel. intros fuel. revert ns.
  induction fuel as [|fuel IH]; intros ns r N E K; [done|].
  cbn [get_nonlocal_namespace]. rewrite E.
  destruct (wf_heap_not_module h ns N W E K) as [p P]. rewrite P.
  destruct (isinstance_ns h p ClassNamespace) eqn:I.
  - apply isinstance_ns_true in I as (Np & Ep & Kp).
    apply (IH p r Np Ep). by rewrite Kp.
  - intros [= <-]. eauto.
Qed.

(** ** The rules of [get_binding] *)

Section resolver_rules.
Variable dir_builtins : list string.

Lemma get_binding_module fuel nm m h N :
  h !! m = Some N → ns_kind N = ModuleNamespace →
  get_binding dir_builtins (S fuel) nm m h = Ok (resolve_at_module dir_builtins nm m N h).
Proof.
  intros E K. cbn [get_binding]. unfold bind at 1, get_heap.
  rewrite E. rewrite (bool_decide_eq_true_2 _ K). rewrite !andb_false_r.
  unfold resolve_at_module.
  destruct (list_find _ (bindings N)) as [[i b]|]; [done|]. cbn [negb].
  destruct (bool_decide (nm ∈ dir_builtins)); [|done].
  by destruct (bool_decide (nm ∈ introspecting_builtins)).
Qed.

Lemma get_binding_global fuel nm ns h N :
  h !! ns = Some N → ns_kind N ≠ ModuleNamespace → nm ∈ global_names N →
  get_binding dir_builtins (S fuel) nm ns h =
    match get_global_namespace fuel h ns with
    | Ok g => get_binding dir_builtins fuel nm g h
    | Raise e => Raise e
    end.
Proof.
  intros E K G. cbn [get_binding]. unfold bind at 1, get_heap.
  rewrite E. rewrite (bool_decide_eq_true_2 _ G), (bool_decide_eq_false_2 _ K).
  cbn [andb negb]. unfold bind, lift_result.
  by destruct (get_global_namespace fuel h ns).
Qed.

Lemma get_binding_nonlocal fuel nm ns h N :
  h !! ns = Some N → ns_kind N ≠ ModuleNamespace →
  nm ∉ global_names N → nm ∈ nonlocal_names N →
  get_binding dir_builtins (S fuel) nm ns h =
    match get_nonlocal_namespace fuel h ns with
    | Ok (Some p) => get_binding dir_builtins fuel nm p h
    | Ok None => Raise (AttributeError "global_names")
    | Raise e => Raise e
    end.
Proof.
  intros E K G L. cbn [get_binding]. unfold bind at 1, get_heap.
  rewrite E. rewrite (bool_decide_eq_false_2 _ G), (bool_decide_eq_true_2 _ L),
    (bool_decide_eq_false_2 _ K).
  cbn [andb negb]. unfold bind, lift_result.
  by destruct (get_nonlocal_namespace fuel h ns) as [[p|]|].
Qed.

Lemma get_binding_local fuel nm ns h N i b :
  h !! ns = Some N → ns_kind N ≠ ModuleNamespace →
  nm ∉ global_names N → nm ∉ nonlocal_names N →
  list_find (λ b, b_name b = nm) (bindings N) = Some (i, b) →
  get_binding dir_builtins (S fuel) nm ns h = Ok ((ns, i), h).
Proof.
  intros E K G L F. cbn [get_binding]. unfold bind at 1, get_heap.
  rewrite E. rewrite (bool_decide_eq_false_2 _ G), (bool_decide_eq_false_2 _ L).
  cbn [andb]. by rewrite F.
Qed.

Lemma get_binding_enclosing fuel nm ns h N :
  h !! ns = Some N → ns_kind N ≠ ModuleNamespace →
  nm ∉ global_names N → nm ∉ nonlocal_names N →
  list_find (λ b, b_name b = nm) (bindings N) = None →
  get_binding dir_builtins (S fuel) nm ns h =
    match get_nonlocal_namespace fuel h ns with
    | Ok (Some p) => get_binding dir_builtins fuel nm p h
    | Ok None => Raise (AttributeError "global_names")
    | Raise e => Raise e
    end.
Proof.
  intros E K G L F. cbn [get_binding]. unfold bind at 1, get_heap.
  rewrite E. rewrite (bool_decide_eq_false_2 _ G), (bool_decide_eq_false_2 _ L),
    (bool_decide_eq_false_2 _ K).
  cbn [andb negb]. rewrite F. unfold bind, lift_result.
  by destruct (get_nonlocal_namespace fuel h ns) as [[p|]|].
Qed.

(** The binding found at the module namespace is in the module namespace
    and has the name that was asked for. *)
Lemma resolve_at_module_binding nm m N h :
  h !! m = Some N →
  ∃ i h' b, resolve_at_module dir_builtins nm m N h = ((m, i), h') ∧
            lookup_binding h' (m, i) = Some b ∧ b_name b = nm.
Proof.
  intros E. unfold resolve_at_module, lookup_binding.
  destruct (list_find _ (bindings N)) as [[i b]|] eqn:F.
  - apply list_find_Some in F as (Hi & Hb & _).
    exists i, h, b. cbn. by rewrite E; cbn.
  - destruct (bool_decide (nm ∈ dir_builtins)).
    + eexists _, _, (new_binding BuiltinBinding nm). split; [done|]. cbn.
      rewrite list_lookup_alter_eq.
      destruct (bool_decide (nm ∈ introspecting_builtins)).
      * rewrite list_lookup_alter_eq, E. cbn.
        split; [|done]. by rewrite lookup_app_r, Nat.sub_diag by done.
      * rewrite E. cbn.
        split; [|done]. by rewrite lookup_app_r, Nat.sub_diag by done.
    + eexists _, _, (placeholder nm). split; [done|]. cbn.
      rewrite list_lookup_alter_eq, E. cbn.
      split; [|done]. by rewrite lookup_app_r, Nat.sub_diag by done.
Qed.

(** Resolution is total on a well-formed tree: with enough fuel
    [get_binding] returns a binding with the requested name, owned by the
    starting namespace or by an older one. *)
Lemma get_binding_total h nm :
  wf_heap h → ∀ fuel ns, is_Some (h !! ns) → ns + 1 < fuel →
  ∃ o i h' b, get_binding dir_builtins fuel nm ns h = Ok ((o, i), h') ∧ o ≤ ns ∧
              lookup_binding h' (o, i) = Some b ∧ b_name b = nm.
Proof.
  intros W. induction fuel as [|fuel IH]; intros ns [N E] L; [lia|].
  destruct (decide (ns_kind N = ModuleNamespace)) as [K|K].
  { rewrite (get_binding_module _ _ _ _ _ E K).
    destruct (resolve_at_module_binding nm ns N h E) as (i & h' & b & -> & ? & ?).
    by exists ns, i, h', b. }
  destruct (wf_heap_not_module h ns N W E K) as [q Q].
  destruct (wf_heap_parent h ns N q W E Q) as (Lq & _ & _).
  assert (∀ p, p < ns → is_Some (h !! p) →
          ∃ o i h' b, get_binding dir_builtins fuel nm p h = Ok ((o, i), h') ∧ o ≤ ns ∧
                      lookup_binding h' (o, i) = Some b ∧ b_name b = nm) as Up.
  { intros p Lp Sp. destruct (IH p Sp) as (o & i & h' & b & ? & ? & ? & ?); [lia|].
    exists o, i, h', b. repeat split; [done | lia | done..]. }
  assert (match get_nonlocal_namespace fuel h ns with
          | Ok (Some p) => get_binding dir_builtins fuel nm p h
          | Ok None => Raise (AttributeError "global_names")
          | Raise e => Raise e
          end = get_binding dir_builtins fuel nm
                  (default 0 (nearest_enclosing_non_class h ns)) h
          ∧ default 0 (nearest_enclosing_non_class h ns) < ns
          ∧ is_Some (h !! default 0 (nearest_enclosing_non_class h ns)))
    as (Enl & Lnl & Snl).
  { rewrite get_nonlocal_namespace_nearest by (eauto; lia).
    destruct (nearest_enclosing_non_class_is_Some h ns N W E K) as [p P].
    rewrite P. cbn.
    by destruct (nearest_enclosing_non_class_Some h ns p W P) as (? & ? & _). }
  destruct (decide (nm ∈ global_names N)) as [G|G].
  { rewrite (get_binding_global _ _ _ _ _ E K G).
    rewrite get_global_namespace_root by (eauto; lia).
    apply Up; [lia|]. by eapply wf_heap_root. }
  destruct (decide (nm ∈ nonlocal_names N)) as [Nl|Nl].
  { rewrite (get_binding_nonlocal _ _ _ _ _ E K G Nl), Enl. by apply Up. }
  destruct (list_find (λ b, b_name b = nm) (bindings N)) as [[i b]|] eqn:F.
  - rewrite (get_binding_local _ _ _ _ _ _ _ E K G Nl F).
    apply list_find_Some in F as (Hi & Hb & _).
    exists ns, i, h, b. repeat split; [done| |done].
    unfold lookup_binding. cbn. by rewrite E.
  - rewrite (get_binding_enclosing _ _ _ _ _ E K G Nl F), Enl. by apply Up.
Qed.
End resolver_rules.

Lemma wf_heapb_correct h : wf_heapb h = true → wf_heap h.
Proof.
  unfold wf_heapb. rewrite forallb_forall. intros H i N E.
  specialize (H (i, N)). unfold wf_namespaceb in H. cbn in H.
  assert (In (i, N) (imap pair h)) as Hin.
  { apply list_elem_of_In, list_elem_of_lookup. exists i.
    by rewrite list_lookup_imap, E. }
  specialize (H Hin).
  destruct (parent_namespace N);
    apply andb_prop in H as [H1%bool_decide_eq_true H2%bool_decide_eq_true];
    done.
Qed.

(** ** Resolution of declared names *)

Section resolution.
Variable dir_builtins : list string.

(** C2.  A name in the declared-global set of a scope that is not the module
    scope is resolved in the module scope, whatever the scopes in between
    bind: the result is the first binding of that name in the module
    namespace, or the binding that rule 5 creates there. *)
Theorem global_name_resolves_in_module h ns N nm fuel :
  wf_heap h → h !! ns = Some N → ns_kind N ≠ ModuleNamespace →
  nm ∈ global_names N → ns < fuel →
  isinstance_ns h 0 ModuleNamespace = true ∧
  get_binding dir_builtins (S fuel) nm ns h = get_binding dir_builtins fuel nm 0 h ∧
  ∃ N0 i h' b,
    h !! 0 = Some N0 ∧
    get_binding dir_builtins (S fuel) nm ns h
      = Ok (resolve_at_module dir_builtins nm 0 N0 h) ∧
    resolve_at_module dir_builtins nm 0 N0 h = ((0, i), h') ∧
    lookup_binding h' (0, i) = Some b ∧ b_name b = nm.
Proof.
  intros W E K G L.
  destruct (wf_heap_root h ns N W E) as [N0 E0].
  pose proof (wf_heap_root_module h N0 W E0) as K0.
  destruct (wf_heap_not_module h ns N W E K) as [q Q].
  destruct (wf_heap_parent h ns N q W E Q) as (Lq & _ & _).
  assert (get_binding dir_builtins (S fuel) nm ns h
          = get_binding dir_builtins fuel nm 0 h) as Eq.
  { rewrite (get_binding_global _ _ _ _ _ _ E K G).
    by rewrite get_global_namespace_root by eauto. }
  split; [apply isinstance_ns_true; eauto|]. split; [done|].
  destruct (resolve_at_module_binding dir_builtins nm 0 N0 h E0)
    as (i & h' & b & R & Lb & Nb).
  exists N0, i, h', b. repeat split; [done| |done..].
  rewrite Eq. destruct fuel as [|fuel]; [lia|].
  by rewrite (get_binding_module _ _ _ _ _ _ E0 K0).
Qed.

(** C1, as amended.  A name in the declared-nonlocal set of a scope that is
    not the module scope, and not in its declared-global set, is resolved in
    the nearest enclosing scope that is not a class scope; the binding found
    is owned by that scope or by an older one, never by a class in
    between. *)
Theorem nonlocal_name_skips_classes h ns N nm fuel :
  wf_heap h → h !! ns = Some N → ns_kind N ≠ ModuleNamespace →
  nm ∈ nonlocal_names N → nm ∉ global_names N → ns < fuel →
  ∃ p, nearest_enclosing_non_class h ns = Some p ∧
       isinstance_ns h p ClassNamespace = false ∧ p < ns ∧
       get_binding dir_builtins (S fuel) nm ns h
         = get_binding dir_builtins fuel nm p h ∧
       ∃ o, owner_of (get_binding dir_builtins (S fuel) nm ns h) = Some o ∧ o ≤ p.
Proof.
  intros W E K Nl G L.
  destruct (nearest_enclosing_non_class_is_Some h ns N W E K) as [p P].
  destruct (nearest_enclosing_non_class_Some h ns p W P) as (Lp & Sp & Cp).
  assert (get_binding dir_builtins (S fuel) nm ns h
          = get_binding dir_builtins fuel nm p h) as Eq.
  { rewrite (get_binding_nonlocal _ _ _ _ _ _ E K G Nl).
    by rewrite get_nonlocal_namespace_nearest, P by eauto. }
  exists p. repeat split; [done..|].
  destruct (get_binding_total dir_builtins h nm W fuel p Sp)
    as (o & i & h' & b & R & Lo & _); [lia|].
  exists o. by rewrite Eq, R.
Qed.

(** X5.  A builtin that is unresolved at module scope gets one
    [BuiltinBinding], appended to the bindings of the module namespace, which
    later resolutions reuse. *)
Lemma builtin_binding_created_once h m N nm fuel :
  h !! m = Some N → ns_kind N = ModuleNamespace →
  (∀ b, b ∈ bindings N → b_name b ≠ nm) → nm ∈ dir_builtins →
  ∃ h', get_binding dir_builtins (S fuel) nm m h = Ok ((m, length (bindings N)), h') ∧
        lookup_binding h' (m, length (bindings N))
          = Some (new_binding BuiltinBinding nm) ∧
        (∃ N', h' !! m = Some N' ∧
               bindings N' = bindings N ++ [new_binding BuiltinBinding nm]) ∧
        ∀ fuel', get_binding dir_builtins (S fuel') nm m h'
                 = Ok ((m, length (bindings N)), h').
Proof.
  intros E K Nb Bi.
  assert (list_find (λ b, b_name b = nm) (bindings N) = None) as F.
  { apply list_find_None, Forall_forall. intros b Hb. by apply Nb. }
  rewrite (get_binding_module _ _ _ _ _ _ E K). unfold resolve_at_module.
  rewrite F, (bool_decide_eq_true_2 _ Bi).
  set (h1 := if bool_decide (nm ∈ introspecting_builtins)
             then alter set_tainted m h else h).
  assert (∃ N1, h1 !! m = Some N1 ∧ bindings N1 = bindings N ∧
                ns_kind N1 = ModuleNamespace) as (N1 & E1 & B1 & K1).
  { unfold h1. destruct (bool_decide _).
    - exists (set_tainted N). by rewrite list_lookup_alter_eq, E.
    - by exists N. }
  set (h' := alter (append_binding (new_binding BuiltinBinding nm)) m h1).
  assert (h' !! m = Some (append_binding (new_binding BuiltinBinding nm) N1)) as E'.
  { unfold h'. by rewrite list_lookup_alter_eq, E1. }
  exists h'. split; [done|]. split; [|split].
  - unfold lookup_binding. cbn. rewrite E'. cbn. rewrite B1.
    by rewrite lookup_app_r, Nat.sub_diag by done.
  - eexists. split; [done|]. cbn. by rewrite B1.
  - intros fuel'. rewrite (get_binding_module _ _ _ _ _ _ E' K1).
    unfold resolve_at_module. cbn [bindings append_binding]. rewrite B1.
    assert (list_find (λ b, b_name b = nm)
              (bindings N ++ [new_binding BuiltinBinding nm])
            = Some (length (bindings N), new_binding BuiltinBinding nm)) as ->;
      [|done].
    apply list_find_Some. split; [|split; [done|]].
    + by rewrite lookup_app_r, Nat.sub_diag by done.
    + intros j b Hj Lj. rewrite lookup_app_l in Hj by done.
      apply Nb. by eapply list_elem_of_lookup_2.
Qed.

(** C7, the defect.  When a scope-introspecting builtin is resolved at module
    scope, [get_binding] assigns the attribute [tainted] of the module
    namespace; [is_tainted], which reads [_tainted], is what it was
    before. *)
Theorem introspecting_builtin_leaves_is_tainted h m N nm fuel :
  h !! m = Some N → ns_kind N = ModuleNamespace →
  (∀ b, b ∈ bindings N → b_name b ≠ nm) → nm ∈ dir_builtins →
  nm ∈ introspecting_builtins →
  ∃ r h' N', get_binding dir_builtins (S fuel) nm m h = Ok (r, h') ∧
             h' !! m = Some N' ∧ tainted N' = Some true ∧
             is_tainted N' = is_tainted N.
Proof.
  intros E K Nb Bi In.
  assert (list_find (λ b, b_name b = nm) (bindings N) = None) as F.
  { apply list_find_None, Forall_forall. intros b Hb. by apply Nb. }
  rewrite (get_binding_module _ _ _ _ _ _ E K). unfold resolve_at_module.
  rewrite F, (bool_decide_eq_true_2 _ Bi), (bool_decide_eq_true_2 _ In).
  eexists _, _, _. split; [done|].
  rewrite !list_lookup_alter_eq, E. cbn. done.
Qed.
End resolution.

(** C2 at the innermost function of [global_shadow]: [x] resolves to the
    binding of the module, not to the one of [f]. *)
Lemma global_name_resolves_in_module_witness :
  get_binding some_builtins 4 "x" 2 global_shadow_heap
  = Ok ((0, 0), global_shadow_heap).
Proof.
  destruct (global_name_resolves_in_module some_builtins global_shadow_heap 2
              (namespace_at global_shadow_heap 2) "x" 3)
    as (_ & _ & N0 & i & h' & b & E0 & R & _).
  - apply wf_heapb_correct. vm_compute. reflexivity.
  - vm_compute. reflexivity.
  - vm_compute. discriminate.
  - vm_compute. reflexivity.
  - lia.
  - rewrite R. vm_compute in E0. injection E0 as <-. vm_compute. reflexivity.
Defined.

(** C1, as amended, at the method of [nonlocal_in_method]: [x] resolves to
    the binding of [f] (namespace 1), past the binding of the class. *)
Lemma nonlocal_name_skips_classes_witness :
  nearest_enclosing_non_class nonlocal_in_method_heap 3 = Some 1 ∧
  get_binding some_builtins 5 "x" 3 nonlocal_in_method_heap
  = Ok ((1, 0), nonlocal_in_method_heap).
Proof.
  destruct (nonlocal_name_skips_classes some_builtins nonlocal_in_method_heap 3
              (namespace_at nonlocal_in_method_heap 3) "x" 4)
    as (p & P & _ & _ & R & _).
  - apply wf_heapb_correct. vm_compute. reflexivity.
  - vm_compute. reflexivity.
  - vm_compute. discriminate.
  - vm_compute. reflexivity.
  - vm_compute. discriminate.
  - lia.
  - split; [vm_compute; reflexivity|]. rewrite R.
    vm_compute in P. injection P as <-. vm_compute. reflexivity.
Defined.

(** C1 as stated fails when the name is also in the declared-global set: in
    the class of [global_in_class], [x] is in the declared-nonlocal set (it
    is read in the class body) and the nearest enclosing non-class scope is
    [f], which binds [x]; yet [x] resolves in the module scope. *)
Lemma nonlocal_name_also_global_resolves_in_module :
  wf_heap global_in_class_heap ∧
  (∃ N, global_in_class_heap !! 2 = Some N ∧ ns_kind N = ClassNamespace ∧
        "x" ∈ nonlocal_names N) ∧
  nearest_enclosing_non_class global_in_class_heap 2 = Some 1 ∧
  owner_of (get_binding some_builtins 4 "x" 1 global_in_class_heap) = Some 1 ∧
  owner_of (get_binding some_builtins 5 "x" 2 global_in_class_heap) = Some 0 ∧
  get_binding some_builtins 5 "x" 2 global_in_class_heap
  ≠ get_binding some_builtins 4 "x" 1 global_in_class_heap.
Proof.
  split; [apply wf_heapb_correct; vm_compute; reflexivity|].
  split.
  { eexists. split; [vm_compute; reflexivity|].
    split; [reflexivity|]. apply (bool_decide_unpack _). vm_compute. exact I. }
  split; [vm_compute; reflexivity|].
  split; [vm_compute; reflexivity|].
  split; [vm_compute; reflexivity|].
  intros H. apply (f_equal owner_of) in H. vm_compute in H. discriminate H.
Qed.

(** C7 at the module [eval('1')]: after the resolution of [eval] the module
    namespace has the attribute [tainted], and [is_tainted] is false. *)
Lemma introspecting_builtin_leaves_is_tainted_witness :
  ∃ r h' N', get_binding some_builtins 1 "eval" 0 eval_module_heap = Ok (r, h') ∧
             h' !! 0 = Some N' ∧ tainted N' = Some true ∧ is_tainted N' = false.
Proof.
  destruct (introspecting_builtin_leaves_is_tainted some_builtins eval_module_heap 0
              (namespace_at eval_module_heap 0) "eval" 0)
    as (r & h' & N' & R & E & T & I).
  - reflexivity.
  - reflexivity.
  - intros b Hb. by apply elem_of_nil in Hb.
  - apply (bool_decide_unpack _). vm_compute. exact I.
  - apply (bool_decide_unpack _). vm_compute. exact I.
  - exists r, h', N'. repeat split; [exact R | exact E | exact T | exact I].
Defined.

(** ** The rename-eligibility of a method's first parameter *)

Lemma self_or_cls_true d :
  self_or_cls d = true ↔ d = [] ∨ ∃ a c, d = [Name a "classmethod" c].
Proof.
  split.
  - destruct d as [|x d']; [by left|].
    destruct x; try done. destruct d'; [|done].
    cbn. intros ->%bool_decide_eq_true. right. eauto.
  - intros [->|(a & c & ->)]; [done|]. cbn. by apply bool_decide_eq_true.
Qed.

Lemma arg_rename_in_place_eq tree node h ns N func_node fns po ar va kw :
  namespace_of node = Some ns → h !! ns = Some N →
  find_node (ref_id (namespace_node N)) tree = Some func_node →
  namespace_of func_node = Some fns →
  signature func_node = Some (po, ar, va, kw) →
  ∃ b, arg_rename_in_place tree node h = Ok (b, h) ∧
       (variadic_or_position_only po va kw node = true → b = true) ∧
       (variadic_or_position_only po va kw node = false →
        first_of_method h func_node ar node = false → b = false).
Proof.
  intros Hns HN Hf Hfns Hs.
  unfold arg_rename_in_place, bind at 1, get_heap. rewrite Hns.
  cbn [mbind option_bind]. rewrite HN, Hf.
  unfold first_of_method, variadic_or_position_only. rewrite Hfns. cbn [from_option].
  destruct func_node as
    [| fa y fname [[| | | | | | |aa po' ar' va' ko kd kw' de| | | | | |]|] b d r t
     | la [| | | | | | |aa po' ar' va' ko kd kw' de| | | | | |] lb
     | | | | | | | | | | |]; try done; cbn in Hs; injection Hs as -> -> -> ->;
    rewrite ?Hfns.
  - assert (class_name (FunctionDef fa y fname
              (Some (arguments aa po ar va ko kd kw de)) b d r t) ≠ "Lambda")
      as Hl by by destruct y.
    rewrite (bool_decide_eq_false_2 _ Hl).
    unfold bind, getattr_args, args_args, ret, getattr_decorator_list,
      args_vararg, args_kwarg, args_posonlyargs.
    assert (∀ x, node_is node x = node_is x node) as Hsym.
    { intros x. unfold node_is. apply bool_decide_ext. split; congruence. }
    destruct (isinstance_ns h fns ClassNamespace); cbn [andb negb];
      [destruct ar as [|first rest]; cbn [head option_is];
       [|rewrite Hsym; destruct (node_is first node); unfold ret;
         [destruct (self_or_cls d)|]]|];
      cbv beta iota delta [ret];
      destruct (option_is va node || option_is kw node);
      destruct (existsb (node_is node) po);
      eexists; (split; [reflexivity|]); split; cbn; intros; congruence.
  - rewrite andb_false_r.
    unfold bind, getattr_args, args_vararg, args_kwarg, args_posonlyargs, ret.
    cbn [andb]. cbv beta iota delta [ret].
    destruct (option_is va node || option_is kw node);
      destruct (existsb (node_is node) po);
      eexists; (split; [reflexivity|]); split; cbn; intros; congruence.
Qed.

(** C8, as amended.  For the first positional parameter of a named function
    defined in a class scope, the first of [posonlyargs + args]:
    [arg_rename_in_place] returns true when the parameter is position-only,
    whatever the decorators; otherwise it returns true exactly when the
    function has no decorator, or one decorator that is the plain name
    [classmethod].  The parameter is [first] by identity, and is not the
    object of [*args] or [**kwargs], as in every tree of the parser, where
    no two parameters are one object. *)
Theorem first_parameter_of_method_eligibility
    tree node h ns N fa y fname aa po ar va ko kd kw de b d r t cns first :
  namespace_of node = Some ns → h !! ns = Some N →
  find_node (ref_id (namespace_node N)) tree
    = Some (FunctionDef fa y fname
              (Some (arguments aa po ar va ko kd kw de)) b d r t) →
  namespace fa = Some cns → isinstance_ns h cns ClassNamespace = true →
  head (po ++ ar) = Some first → node_is node first = true →
  option_is va node = false → option_is kw node = false →
  arg_rename_in_place tree node h
  = Ok (match po with [] => self_or_cls d | _ :: _ => true end, h) ∧
  (self_or_cls d = true ↔ d = [] ∨ ∃ a c, d = [Name a "classmethod" c]).
Proof.
  intros Hns HN Hf Hfa Hc Hhead Hfirst Hva Hkw. split; [|apply self_or_cls_true].
  destruct po as [|p0 po'].
  - cbn in Hhead. destruct ar as [|x rest]; [done|]. injection Hhead as ->.
    unfold arg_rename_in_place, bind at 1, get_heap. rewrite Hns.
    cbn [mbind option_bind].
    rewrite HN, Hf. unfold namespace_of at 1. cbn [attrs_of]. rewrite Hfa, Hc.
    assert (class_name (FunctionDef fa y fname
              (Some (arguments aa [] (first :: rest) va ko kd kw de)) b d r t)
            ≠ "Lambda") as Hl by by destruct y.
    rewrite (bool_decide_eq_false_2 _ Hl). cbn [andb negb].
    unfold bind, getattr_args, args_args, ret, getattr_decorator_list,
      args_vararg, args_kwarg, args_posonlyargs.
    rewrite Hfirst. unfold ret. destruct (self_or_cls d); [done|].
    by rewrite Hva, Hkw.
  - cbn in Hhead. injection Hhead as ->.
    destruct (arg_rename_in_place_eq tree node h ns N
                (FunctionDef fa y fname
                   (Some (arguments aa (first :: po') ar va ko kd kw de)) b d r t)
                cns (first :: po') ar va kw) as (x & R & Ht & _); try done.
    rewrite R, Ht; [done|].
    unfold variadic_or_position_only. cbn [existsb]. rewrite Hfirst.
    by rewrite orb_true_r.
Qed.

(** C8, as amended, at [cls] in [classmethod_example]. *)
Lemma first_parameter_of_method_eligibility_witness :
  ∃ node, find_node 4 (built_tree classmethod_example) = Some node ∧
          arg_rename_in_place (built_tree classmethod_example) node
            (built_heap classmethod_example)
          = Ok (true, built_heap classmethod_example).
Proof.
  destruct (find_node 4 (built_tree classmethod_example)) as [node|] eqn:E;
    [|vm_compute in E; discriminate E].
  exists node. split; [reflexivity|].
  vm_compute in E. injection E as <-.
  edestruct (first_parameter_of_method_eligibility
               (built_tree classmethod_example)
               (arg {| nid := 4; lineno := 3; col_offset := 0;
                       parent := Some (NodeRef 3 "arguments");
                       namespace := Some 2 |} "cls" None)
               (built_heap classmethod_example) 2
               (namespace_at (built_heap classmethod_example) 2)) as [R _].
  - reflexivity.
  - vm_compute. reflexivity.
  - vm_compute. reflexivity.
  - reflexivity.
  - vm_compute. reflexivity.
  - vm_compute. reflexivity.
  - vm_compute. reflexivity.
  - vm_compute. reflexivity.
  - vm_compute. reflexivity.
  - rewrite R. reflexivity.
Defined.

(** C8 as stated fails for a position-only first parameter: in
    [posonly_example] the parameter [a] is the first positional parameter of
    a method whose only decorator is [staticmethod], and the predicate
    returns true. *)
Lemma position_only_first_parameter_is_eligible :
  ∃ node func_node cns,
    find_node 4 (built_tree posonly_example) = Some node ∧
    find_node 2 (built_tree posonly_example) = Some func_node ∧
    class_name func_node = "FunctionDef" ∧
    namespace_of func_node = Some cns ∧
    isinstance_ns (built_heap posonly_example) cns ClassNamespace = true ∧
    head (positional_parameters func_node) = Some node ∧
    (getattr_decorator_list func_node (built_heap posonly_example)
     = Ok ([Name {| nid := 6; lineno := 2; col_offset := 0;
                    parent := Some (NodeRef 2 "FunctionDef");
                    namespace := Some 1 |} "staticmethod" Load],
           built_heap posonly_example)) ∧
    arg_rename_in_place (built_tree posonly_example) node
      (built_heap posonly_example)
    = Ok (true, built_heap posonly_example).
Proof.
  eexists _, _, _.
  split; [vm_compute; reflexivity|].
  split; [vm_compute; reflexivity|].
  split; [reflexivity|].
  split; [vm_compute; reflexivity|].
  split; [vm_compute; reflexivity|].
  split; [vm_compute; reflexivity|].
  split; vm_compute; reflexivity.
Qed.

(** ** Constants of an unknown type *)

(** C9, as amended.  A [Constant] whose value is of a type that
    [visit_Constant] does not know, and that equals none of [None], [True],
    [False] and [Ellipsis], makes it raise a [RuntimeError] whose message
    names the type of the value, and nothing else; no method of the visitor
    is called, whatever the visitor is.  A value of such a type that equals
    one of [None], [True], [False] is passed to [visit_NameConstant], and
    one that equals [Ellipsis] to [visit_Ellipsis], without an error; and
    the dispatch raises for no other value. *)
Theorem unknown_constant_raises {R} (getattr_self : string → option (ast → result R))
    (generic_visit : ast → result R) (a : attrs) :
  (∀ t, visit_Constant getattr_self generic_visit (Constant a (VOther t))
        = Raise (RuntimeError ("Unknown Constant value <class '" ++ t ++ "'>"))) ∧
  (∀ t, visit_Constant getattr_self generic_visit (Constant a (VEqual t ToSingleton))
        = default generic_visit (getattr_self "visit_NameConstant")
            (Constant a (VEqual t ToSingleton))) ∧
  (∀ t, visit_Constant getattr_self generic_visit (Constant a (VEqual t ToEllipsis))
        = default generic_visit (getattr_self "visit_Ellipsis")
            (Constant a (VEqual t ToEllipsis))) ∧
  (∀ v e, visit_Constant_method v = Raise e → ∃ t, v = VOther t).
Proof.
  split; [done|]. split; [done|]. split; [done|].
  intros v e. unfold visit_Constant_method.
  destruct (in_None_True_False v) eqn:E; [done|].
  destruct v as [| | | | | | | |t|t []]; try done. eauto.
Qed.

(** C9 as stated fails: the diagnostic does not name the source location of
    the node.  Two constants at different places raise the same error. *)
Lemma unknown_constant_diagnostic_has_no_location :
  let n1 := Constant (fresh_attrs 1 3) (VOther "tuple") in
  let n2 := Constant (fresh_attrs 2 8) (VOther "tuple") in
  location n1 ≠ location n2 ∧
  visit_Constant (λ _, None) (λ _, Ok tt) n1
  = Raise (RuntimeError "Unknown Constant value <class 'tuple'>") ∧
  visit_Constant (λ _, None) (λ _, Ok tt) n2
  = visit_Constant (λ _, None) (λ _, Ok tt) n1.
Proof. repeat split. discriminate. Qed.

(** ** Computations that return *)

Lemma wp_elim {A} (m : M A) h Φ :
  wp m h Φ → ∃ a h', m h = Ok (a, h') ∧ Φ a h'.
Proof. unfold wp. destruct (m h) as [[a h']|]; [eauto | done]. Qed.

Lemma wp_intro {A} (m : M A) h Φ a h' : m h = Ok (a, h') → Φ a h' → wp m h Φ.
Proof. unfold wp. by intros ->. Qed.

Lemma wp_ret {A} (a : A) h Φ : Φ a h → wp (ret a) h Φ.
Proof. done. Qed.

Lemma wp_bind {A B} (m : M A) (k : A → M B) h Φ :
  wp m h (λ a h', wp (k a) h' Φ) → wp (bind m k) h Φ.
Proof. unfold wp, bind. by destruct (m h) as [[a h']|]. Qed.

Lemma wp_mono {A} (m : M A) h (Φ Ψ : A → heap → Prop) :
  wp m h Φ → (∀ a h', Φ a h' → Ψ a h') → wp m h Ψ.
Proof. unfold wp. destruct (m h) as [[a h']|]; [eauto | done]. Qed.

Lemma wp_get_heap h Φ : Φ h h → wp get_heap h Φ.
Proof. done. Qed.

Lemma wp_modify ns f h Φ : Φ tt (alter f ns h) → wp (modify ns f) h Φ.
Proof. done. Qed.

(** ** Heap extension *)

Lemma stable_refl N : stable N N.
Proof. by repeat split. Qed.

Lemma stable_trans N1 N2 N3 : stable N1 N2 → stable N2 N3 → stable N1 N3.
Proof.
  unfold stable.
  intros (?&?&?&?&?&?&?&?&G1&L1&C1) (?&?&?&?&?&?&?&?&G2&L2&C2).
  repeat split; try congruence; by etrans.
Qed.

Lemma heap_ext_refl h : heap_ext h h.
Proof.
  split; [done|]. split.
  - intros i N E. exists N. split; [done | apply stable_refl].
  - intros i N E L. apply lookup_lt_Some in E. lia.
Qed.

Lemma heap_ext_length h h' : heap_ext h h' → length h ≤ length h'.
Proof. by intros [? _]. Qed.

Lemma heap_ext_trans h1 h2 h3 : heap_ext h1 h2 → heap_ext h2 h3 → heap_ext h1 h3.
Proof.
  intros (L1 & S1 & F1) (L2 & S2 & F2). split; [lia|]. split.
  - intros i N E. destruct (S1 i N E) as (N' & E' & St1).
    destruct (S2 i N' E') as (N'' & E'' & St2).
    exists N''. split; [done | by eapply stable_trans].
  - intros i N3 E3 Li. destruct (decide (i < length h2)) as [Lt|Ge].
    + destruct (lookup_lt_is_Some_2 h2 i Lt) as [N2 E2].
      destruct (S2 i N2 E2) as (N3' & E3' & St). simplify_eq.
      destruct (F1 i N2 E2 Li) as ((p & P & Lp) & K & B).
      destruct St as (K' & _ & _ & P' & B' & _).
      split; [exists p; split; [congruence | done]|]. split; congruence.
    + apply (F2 i N3 E3). lia.
Qed.

Lemma heap_ext_wf h h' : wf_heap h → heap_ext h h' → wf_heap h'.
Proof.
  intros W (L & S & F) i N' E'. destruct (decide (i < length h)) as [Lt|Ge].
  - destruct (lookup_lt_is_Some_2 h i Lt) as [N E].
    destruct (S i N E) as (N'' & E'' & St). simplify_eq.
    destruct St as (K & _ & _ & P & _). rewrite K, P. by apply W.
  - destruct (F i N' E') as ((p & -> & Lp) & K & _); [lia | done].
Qed.

Lemma heap_ext_lookup h h' i N :
  heap_ext h h' → h !! i = Some N → ∃ N', h' !! i = Some N' ∧ stable N N'.
Proof. intros (_ & S & _). apply S. Qed.

(** Updating a namespace object in a way that keeps what is stable. *)
Lemma heap_ext_alter h ns f :
  (∀ N, stable N (f N)) → heap_ext h (alter f ns h).
Proof.
  intros Hf. split; [by rewrite length_alter|]. split.
  - intros i N E. destruct (decide (i = ns)) as [->|Ne].
    + exists (f N). by rewrite list_lookup_alter_eq, E.
    + exists N. rewrite list_lookup_alter_ne by done. split; [done | apply stable_refl].
  - intros i N' E L. apply lookup_lt_Some in E. rewrite length_alter in E. lia.
Qed.

Lemma stable_update_global_names names N : stable N (update_global_names names N).
Proof. repeat split; cbn; set_solver. Qed.

Lemma stable_update_nonlocal_names names N : stable N (update_nonlocal_names names N).
Proof. repeat split; cbn; set_solver. Qed.

(** The heap after [X = Namespace(node, name); parent.add_child(X)]. *)
Lemma new_child_heap c r nm p h :
  (k <- alloc (Namespace_init c r nm) ;; add_child p k ;; ret k) h
  = Ok (length h,
        alter (append_child (length h)) p
          (h ++ [set_parent_namespace p (Namespace_init c r nm)])).
Proof.
  unfold bind, alloc, add_child, bind, modify, ret. do 3 f_equal.
  by rewrite alter_app_r_alt, Nat.sub_diag by done.
Qed.

Lemma heap_ext_new_child c r nm p h :
  p < length h → c ≠ ModuleNamespace →
  heap_ext h (alter (append_child (length h)) p
                (h ++ [set_parent_namespace p (Namespace_init c r nm)])).
Proof.
  intros Lp Hc. split; [rewrite length_alter, length_app; lia|]. split.
  - intros i N E. destruct (decide (i = p)) as [->|Ne].
    + exists (append_child (length h) N).
      rewrite list_lookup_alter_eq, lookup_app_l, E by done. split; [done|].
      repeat split; cbn; try done. by apply prefix_app_r.
    + exists N. rewrite list_lookup_alter_ne, lookup_app_l by (done || by eapply lookup_lt_Some).
      split; [done | apply stable_refl].
  - intros i N' E Li.
    assert (i = length h) as ->.
    { apply lookup_lt_Some in E. rewrite length_alter, length_app in E. cbn in E. lia. }
    rewrite list_lookup_alter_ne in E by lia.
    rewrite lookup_app_r, Nat.sub_diag in E by done. injection E as <-.
    split; [by exists p|]. by split.
Qed.

Lemma new_child_lookup c r nm p h :
  p < length h →
  alter (append_child (length h)) p
    (h ++ [set_parent_namespace p (Namespace_init c r nm)]) !! length h
  = Some (set_parent_namespace p (Namespace_init c r nm)).
Proof.
  intros Lp. rewrite list_lookup_alter_ne by lia.
  by rewrite lookup_app_r, Nat.sub_diag by done.
Qed.

(** Creating a child namespace, then going on. *)
Lemma wp_new_child {B} c r nm p (k : nat → M B) h Φ :
  p < length h → c ≠ ModuleNamespace →
  (∀ h', heap_ext h h' → length h' = S (length h) →
         h' !! length h = Some (set_parent_namespace p (Namespace_init c r nm)) →
         wp (k (length h)) h' Φ) →
  wp (x <- alloc (Namespace_init c r nm) ;; add_child p x ;; k x) h Φ.
Proof.
  intros Lp Hc Hk.
  pose proof (new_child_heap c r nm p h) as E.
  unfold wp. unfold bind in *. cbn in *.
  unfold alloc, modify in *. cbn in *. injection E as E. rewrite E.
  apply Hk.
  - by apply heap_ext_new_child.
  - rewrite length_alter, length_app. cbn. lia.
  - by apply new_child_lookup.
Qed.

(** ** Induction over syntax trees *)

Lemma Forall_omap_Some {A} (P : A → Prop) (l : list (option A)) :
  Forall (from_option P True) l → Forall P (omap (λ x : option A, x) l).
Proof.
  induction 1 as [|[x|] l Hx Hl IH]; cbn; [constructor | by constructor | done].
Qed.

(** Induction on a tree, with the property for all child nodes as the
    induction hypothesis. *)
Lemma ast_child_ind (P : ast → Prop) :
  (∀ n, Forall P (child_nodes n) → P n) → ∀ n, P n.
Proof.
  intros step.
  exact (fix IH (n : ast) : P n :=
    let all := fix all (l : list ast) : Forall P l :=
      match l with
      | [] => Forall_nil_2 P
      | x :: l => Forall_cons_2 P x l (IH x) (all l)
      end in
    let opt := λ o : option ast,
      match o return Forall P (option_list o) with
      | Some x => Forall_cons_2 P x [] (IH x) (Forall_nil_2 P)
      | None => Forall_nil_2 P
      end in
    let opts := fix opts (l : list (option ast))
        : Forall (from_option P True) l :=
      match l with
      | [] => Forall_nil_2 _
      | o :: l =>
          Forall_cons_2 _ o l
            match o return from_option P True o with
            | Some x => IH x
            | None => I
            end (opts l)
      end in
    step n
      match n return Forall P (child_nodes n) with
      | Module _ b => all b
      | FunctionDef _ _ _ ar b d r t =>
          Forall_app_2 P _ _ (opt ar)
            (Forall_app_2 P _ _ (all b)
               (Forall_app_2 P _ _ (all d) (Forall_app_2 P _ _ (opt r) (all t))))
      | Lambda _ ar b =>
          Forall_cons_2 P _ _ (IH ar) (Forall_cons_2 P _ _ (IH b) (Forall_nil_2 P))
      | ClassDef _ _ ba k b d t =>
          Forall_app_2 P _ _ (all ba)
            (Forall_app_2 P _ _ (all k)
               (Forall_app_2 P _ _ (all b) (Forall_app_2 P _ _ (all d) (all t))))
      | Comp _ _ e g => Forall_cons_2 P _ _ (IH e) (all g)
      | DictComp _ k v g =>
          Forall_cons_2 P _ _ (IH k) (Forall_cons_2 P _ _ (IH v) (all g))
      | comprehension _ t i fs =>
          Forall_cons_2 P _ _ (IH t) (Forall_cons_2 P _ _ (IH i) (all fs))
      | arguments _ po ar va ko kd kw de =>
          Forall_app_2 P _ _ (all po)
            (Forall_app_2 P _ _ (all ar)
               (Forall_app_2 P _ _ (opt va)
                  (Forall_app_2 P _ _ (all ko)
                     (Forall_app_2 P _ _ (Forall_omap_Some P kd (opts kd))
                        (Forall_app_2 P _ _ (opt kw) (all de))))))
      | arg _ _ an => opt an
      | Global _ _ | Nonlocal _ _ | Name _ _ _ | Constant _ _ => Forall_nil_2 P
      | Other _ _ fs => all fs
      end).
Qed.

Lemma option_list_fmap {A B} (f : A → B) (o : option A) :
  option_list (f <$> o) = f <$> option_list o.
Proof. by destruct o. Qed.

Lemma omap_fmap_option {A B} (f : A → B) (l : list (option A)) :
  omap (λ o : option A, f <$> o) l = f <$> omap (λ x, x) l.
Proof. induction l as [|[x|] l IH]; cbn; [done | by f_equal | done]. Qed.

Lemma fold_ast_unfold {A} (f : ast → list A → A) n :
  fold_ast f n = f n (fold_ast f <$> child_nodes n).
Proof.
  destruct n; cbn; f_equal;
    rewrite ?fmap_app, ?option_list_fmap, ?omap_fmap_option; done.
Qed.

Lemma height_unfold n : height n = S (list_max (height <$> child_nodes n)).
Proof. unfold height. by rewrite fold_ast_unfold at 1. Qed.

Lemma nodes_unfold n : nodes n = n :: concat (nodes <$> child_nodes n).
Proof. unfold nodes. by rewrite fold_ast_unfold at 1. Qed.

Lemma height_child n c : c ∈ child_nodes n → height c < height n.
Proof.
  intros Hc. rewrite (height_unfold n).
  assert (height c ≤ list_max (height <$> child_nodes n)); [|lia].
  pose proof (proj1 (list_max_le (height <$> child_nodes n) _) (le_n _)) as Hall.
  rewrite Forall_forall in Hall. apply Hall. by apply list_elem_of_fmap_2.
Qed.

Lemma tree_ok_unfold n :
  tree_ok n ↔ node_ok n = true ∧ Forall tree_ok (child_nodes n).
Proof.
  unfold tree_ok at 1. rewrite nodes_unfold. cbn [forallb].
  rewrite andb_true_iff. apply and_iff_compat_l.
  induction (child_nodes n) as [|c l IH]; cbn.
  - split; [by constructor | done].
  - rewrite forallb_app, andb_true_iff, IH, Forall_cons. done.
Qed.

Lemma ok_children bound n : ok bound n → Forall (ok bound) (child_nodes n).
Proof.
  intros [Hh Ht]. apply tree_ok_unfold in Ht as [_ Ht].
  rewrite Forall_forall in Ht. apply Forall_forall. intros c Hc.
  split; [|by apply Ht]. pose proof (height_child n c Hc). lia.
Qed.

Lemma ok_children_S bound n :
  height n < S bound → tree_ok n → Forall (ok bound) (child_nodes n).
Proof.
  intros Hh Ht. apply tree_ok_unfold in Ht as [_ Ht].
  rewrite Forall_forall in Ht. apply Forall_forall. intros c Hc.
  split; [|by apply Ht]. pose proof (height_child n c Hc). lia.
Qed.

(** ** Erasure *)

Lemma child_nodes_with_attrs f n : child_nodes (with_attrs f n) = child_nodes n.
Proof. by destruct n. Qed.

Lemma omap_fmap_fmap {A B} (f : A → B) (l : list (option A)) :
  omap (λ x : option B, x) ((λ o : option A, f <$> o) <$> l)
  = f <$> omap (λ x : option A, x) l.
Proof. induction l as [|[x|] l IH]; cbn; [done | by f_equal | done]. Qed.

Lemma child_nodes_map_children f n :
  child_nodes (map_children f n) = f <$> child_nodes n.
Proof.
  destruct n; cbn;
    rewrite ?fmap_app, ?omap_fmap_fmap; try done;
    repeat match goal with o : option ast |- _ => destruct o end; done.
Qed.

Lemma erase_unfold n : erase n = with_attrs clear_namespace (map_children erase n).
Proof. by destruct n. Qed.

Lemma child_nodes_erase n : child_nodes (erase n) = erase <$> child_nodes n.
Proof. by rewrite erase_unfold, child_nodes_with_attrs, child_nodes_map_children. Qed.

Lemma height_erase n : height (erase n) = height n.
Proof.
  induction n as [n IH] using ast_child_ind.
  rewrite !height_unfold, child_nodes_erase. do 2 f_equal.
  rewrite <- list_fmap_compose. apply Forall_fmap_ext_1.
  eapply Forall_impl; [exact IH|]. by intros x <-.
Qed.

Lemma is_arguments_erase n : is_arguments (erase n) = is_arguments n.
Proof. by destruct n. Qed.

Lemma is_arg_erase n : is_arg (erase n) = is_arg n.
Proof. by destruct n. Qed.

Lemma is_comprehension_erase n : is_comprehension (erase n) = is_comprehension n.
Proof. by destruct n. Qed.

Lemma forallb_fmap {A B} (f : A → B) (p : B → bool) (l : list A) :
  forallb p (f <$> l) = forallb (p ∘ f) l.
Proof. induction l as [|x l IH]; cbn; [done | by rewrite IH]. Qed.

Lemma forallb_ext_eq {A} (p q : A → bool) (l : list A) :
  (∀ x, p x = q x) → forallb p l = forallb q l.
Proof. intros H. induction l as [|x l IH]; cbn; [done | by rewrite H, IH]. Qed.

Lemma node_ok_erase n : node_ok (erase n) = node_ok n.
Proof.
  destruct n; cbn; try done.
  - by destruct args as [x|]; cbn; [apply is_arguments_erase|].
  - apply is_arguments_erase.
  - rewrite forallb_fmap. apply forallb_ext_eq, is_comprehension_erase.
  - rewrite forallb_fmap. apply forallb_ext_eq, is_comprehension_erase.
  - rewrite forallb_fmap. apply forallb_ext_eq, is_arg_erase.
Qed.

Lemma tree_ok_erase n : tree_ok (erase n) ↔ tree_ok n.
Proof.
  induction n as [n IH] using ast_child_ind.
  rewrite !(tree_ok_unfold _), node_ok_erase, child_nodes_erase.
  apply and_iff_compat_l. rewrite Forall_fmap.
  rewrite !Forall_forall in *. split; intros H x Hx.
  - apply IH; [done|]. by apply H.
  - apply IH; [done|]. by apply H.
Qed.

Lemma ok_erase_eq bound n n' : erase n' = erase n → ok bound n → ok bound n'.
Proof.
  intros E [Hh Ht]. split.
  - by rewrite <- height_erase, E, height_erase.
  - by rewrite <- tree_ok_erase, E, tree_ok_erase.
Qed.

Lemma attrs_of_set_namespace ns n :
  namespace (attrs_of (set_namespace ns n)) = Some ns.
Proof. by destruct n. Qed.

Lemma erase_set_namespace ns n : erase (set_namespace ns n) = erase n.
Proof. by destruct n. Qed.

Lemma ref_of_set_namespace ns n : ref_of (set_namespace ns n) = ref_of n.
Proof. by destruct n as [| ? [] | | | ? [] | | | | | | | | |]. Qed.

Lemma child_nodes_set_namespace ns n :
  child_nodes (set_namespace ns n) = child_nodes n.
Proof. apply child_nodes_with_attrs. Qed.

Lemma node_ok_set_namespace ns n : node_ok (set_namespace ns n) = node_ok n.
Proof. by destruct n. Qed.

Lemma Forall_option_list {A} (P : A → Prop) (o : option A) :
  Forall P (option_list o) ↔ ∀ x, o = Some x → P x.
Proof.
  destruct o as [y|]; cbn.
  - rewrite Forall_singleton. split; [by intros ? ? [= <-] | eauto].
  - split; [done | constructor].
Qed.

Lemma Forall_omap_id {A} (P : A → Prop) (l : list (option A)) :
  Forall P (omap (λ x : option A, x) l) ↔ Forall (λ o, ∀ x, o = Some x → P x) l.
Proof.
  induction l as [|[y|] l IH]; cbn.
  - split; constructor.
  - rewrite !Forall_cons, IH. split; intros [? ?]; split; try done.
    + by intros ? [= <-].
    + eauto.
  - rewrite Forall_cons, IH. split; [by split | by intros [_ ?]].
Qed.

(** ** Loops *)

Lemma wp_mapM {A B} (f : A → M B) (R : A → B → Prop) l h0 h Φ :
  Forall (λ x, ∀ h1 (Ψ : B → heap → Prop), heap_ext h0 h1 →
               (∀ y h2, R x y → heap_ext h0 h2 → Ψ y h2) → wp (f x) h1 Ψ) l →
  heap_ext h0 h →
  (∀ l' h', Forall2 R l l' → heap_ext h0 h' → Φ l' h') →
  wp (mapM f l) h Φ.
Proof.
  intros Hl. revert h Φ. induction Hl as [|x l Hx Hl IH]; intros h Φ E K.
  - apply wp_ret, K; [constructor | done].
  - cbn [mapM]. apply wp_bind, Hx; [done|]. intros y h1 Ry E1.
    apply wp_bind, IH; [done|]. intros l' h2 Rl E2.
    apply wp_ret, K; [by constructor | done].
Qed.

Lemma wp_mapM_option {A B} (f : A → M B) (R : A → B → Prop) o h0 h Φ :
  (∀ x, o = Some x → ∀ h1 (Ψ : B → heap → Prop), heap_ext h0 h1 →
        (∀ y h2, R x y → heap_ext h0 h2 → Ψ y h2) → wp (f x) h1 Ψ) →
  heap_ext h0 h →
  (∀ o' h', option_Forall2 R o o' → heap_ext h0 h' → Φ o' h') →
  wp (mapM_option f o) h Φ.
Proof.
  intros Ho E K. destruct o as [x|]; cbn [mapM_option].
  - apply wp_bind, (Ho x); [done..|]. intros y h1 Ry E1.
    apply wp_ret, K; [by constructor | done].
  - apply wp_ret, K; [constructor | done].
Qed.

Lemma Forall2_erase (P : ast → Prop) l l' :
  Forall2 (λ x y, erase y = erase x ∧ P y) l l' →
  erase <$> l' = erase <$> l ∧ Forall P l'.
Proof.
  induction 1 as [|x y l l' [E Py] _ [IH1 IH2]]; [by split; [|constructor]|].
  cbn. split; [congruence | by constructor].
Qed.

Lemma option_Forall2_erase (P : ast → Prop) o o' :
  option_Forall2 (λ x y, erase y = erase x ∧ P y) o o' →
  erase <$> o' = erase <$> o ∧ ∀ y, o' = Some y → P y.
Proof.
  destruct 1 as [x y [E Py]|]; cbn; [|done].
  split; [congruence | by intros ? [= <-]].
Qed.

Lemma Forall2_option_erase (P : ast → Prop) l l' :
  Forall2 (option_Forall2 (λ x y, erase y = erase x ∧ P y)) l l' →
  (λ o : option ast, erase <$> o) <$> l' = (λ o : option ast, erase <$> o) <$> l ∧
  Forall (λ o, ∀ y, o = Some y → P y) l'.
Proof.
  induction 1 as [|x y l l' [E Py]%option_Forall2_erase _ [IH1 IH2]];
    [by split; [|constructor]|].
  cbn. split; [congruence | by constructor].
Qed.

(** ** The handlers of the scope tree builder *)

Section handler_specs.
Variable rec : ast → nat → M ast.
Variable bound : nat.
Hypothesis Hrec : rec_ok rec bound.

Lemma wp_rec n ns h0 h Φ :
  ok bound n → ns < length h0 → heap_ext h0 h →
  (∀ n' h', erase n' = erase n → owned_by ns n' → heap_ext h0 h' → Φ n' h') →
  wp (rec n ns) h Φ.
Proof.
  intros [Hh Ht] L E K. eapply wp_mono.
  - apply Hrec; [done..|]. apply heap_ext_length in E. lia.
  - intros n' h' (? & ? & ?). apply K; eauto using heap_ext_trans.
Qed.

Lemma wp_rec_list l ns h0 h Φ :
  Forall (ok bound) l → ns < length h0 → heap_ext h0 h →
  (∀ l' h', erase <$> l' = erase <$> l → Forall (owned_by ns) l' →
            heap_ext h0 h' → Φ l' h') →
  wp (mapM (λ n, rec n ns) l) h Φ.
Proof.
  intros Hl L E K.
  apply (wp_mapM _ (λ x y, erase y = erase x ∧ owned_by ns y) l h0); [|done|].
  - eapply Forall_impl; [exact Hl|]. intros x Hx h1 Ψ E1 K1. cbv beta.
    apply (wp_rec x ns h0); [done..|]. intros. by apply K1.
  - intros l' h' [? ?]%Forall2_erase ?. by apply K.
Qed.

Lemma wp_rec_option o ns h0 h Φ :
  (∀ x, o = Some x → ok bound x) → ns < length h0 → heap_ext h0 h →
  (∀ o' h', erase <$> o' = erase <$> o → (∀ y, o' = Some y → owned_by ns y) →
            heap_ext h0 h' → Φ o' h') →
  wp (mapM_option (λ n, rec n ns) o) h Φ.
Proof.
  intros Ho L E K.
  apply (wp_mapM_option _ (λ x y, erase y = erase x ∧ owned_by ns y) o h0);
    [|done|].
  - intros x Hx h1 Ψ E1 K1. cbv beta.
    apply (wp_rec x ns h0); [by apply Ho|done..|]. intros. by apply K1.
  - intros o' h' [? ?]%option_Forall2_erase ?. by apply K.
Qed.

Lemma wp_rec_options l ns h0 h Φ :
  Forall (λ o, ∀ x, o = Some x → ok bound x) l → ns < length h0 →
  heap_ext h0 h →
  (∀ l' h', (λ o : option ast, erase <$> o) <$> l'
            = (λ o : option ast, erase <$> o) <$> l →
            Forall (λ o, ∀ y, o = Some y → owned_by ns y) l' →
            heap_ext h0 h' → Φ l' h') →
  wp (mapM (mapM_option (λ n, rec n ns)) l) h Φ.
Proof.
  intros Hl L E K.
  apply (wp_mapM _ (option_Forall2 (λ x y, erase y = erase x ∧ owned_by ns y))
           l h0); [|done|].
  - eapply Forall_impl; [exact Hl|]. intros o Ho h1 Ψ E1 K1. cbv beta.
    apply (wp_mapM_option _ (λ x y, erase y = erase x ∧ owned_by ns y) o h0);
      [|done|done].
    intros x Hx h2 Ψ2 E2 K2. cbv beta.
    apply (wp_rec x ns h0); [by apply Ho|done..|]. intros. by apply K2.
  - intros l' h' [? ?]%Forall2_option_erase ?. by apply K.
Qed.

Lemma is_arg_erase_eq a a' : erase a' = erase a → is_arg a' = is_arg a.
Proof. intros E. by rewrite <- (is_arg_erase a'), E, is_arg_erase. Qed.

Lemma wp_assign_arg p f a h0 h Φ :
  ok bound a → p < length h0 → f < length h0 → heap_ext h0 h →
  (∀ a' h', erase a' = erase a → arg_assigned p f a' → heap_ext h0 h' →
            Φ a' h') →
  wp (assign_arg rec p f a) h Φ.
Proof.
  intros Hok Lp Lf E K. unfold assign_arg.
  apply wp_bind, (wp_rec a f h0); [done..|]. intros a1 h1 E1 O1 X1.
  pose proof (ok_erase_eq _ _ _ E1 Hok) as Hok1.
  destruct (annotation_of a1) as [an|] eqn:An.
  - destruct a1; try done. cbn in An. subst annotation.
    apply ok_children in Hok1. cbn in Hok1. apply Forall_inv in Hok1.
    apply wp_bind, (wp_rec an p h0); [done..|]. intros an' h2 E2 O2 X2.
    apply wp_ret, K; [|split|done].
    + rewrite <- E1. cbn. by rewrite E2.
    + exact O1.
    + cbn. by intros ? [= <-].
  - apply wp_ret, K; [done| |done]. split; [done|]. by rewrite An.
Qed.

Lemma wp_assign_kwonlyarg p f a h0 h Φ :
  ok bound a → is_arg a = true → p < length h0 → f < length h0 →
  heap_ext h0 h →
  (∀ a' h', erase a' = erase a → arg_assigned p f a' → heap_ext h0 h' →
            Φ a' h') →
  wp (assign_kwonlyarg rec p f a) h Φ.
Proof.
  intros Hok Ha Lp Lf E K. unfold assign_kwonlyarg.
  apply wp_bind, (wp_rec a f h0); [done..|]. intros a1 h1 E1 O1 X1.
  pose proof (ok_erase_eq _ _ _ E1 Hok) as Hok1.
  rewrite <- (is_arg_erase_eq _ _ E1) in Ha.
  destruct a1; try done. cbn [getattr_annotation].
  apply wp_bind, wp_ret. destruct annotation as [an|].
  - apply ok_children in Hok1. cbn in Hok1. apply Forall_inv in Hok1.
    apply wp_bind, (wp_rec an p h0); [done..|]. intros an' h2 E2 O2 X2.
    apply wp_ret, K; [|split|done].
    + rewrite <- E1. cbn. by rewrite E2.
    + exact O1.
    + cbn. by intros ? [= <-].
  - apply wp_ret, K; [done| |done]. by split.
Qed.

Lemma forallb_Forall_true {A} (p : A → bool) (l : list A) :
  forallb p l = true ↔ Forall (λ x, p x = true) l.
Proof.
  induction l as [|x l IH]; cbn; [by split; [constructor|]|].
  by rewrite andb_true_iff, IH, Forall_cons.
Qed.

Lemma wp_assign_arguments args p f h0 h Φ :
  ok bound args → is_arguments args = true → p < length h0 → f < length h0 →
  heap_ext h0 h →
  (∀ args' h', erase args' = erase args → arguments_assigned p f args' →
               heap_ext h0 h' → Φ args' h') →
  wp (assign_arguments_to_namespace rec args p f) h Φ.
Proof.
  intros Hok Ha Lp Lf E K. destruct args; try done. clear Ha.
  pose proof (proj1 (tree_ok_unfold _) (proj2 Hok)) as [Hn _]. cbn in Hn.
  apply forallb_Forall_true in Hn.
  apply ok_children in Hok. cbn [child_nodes] in Hok.
  rewrite !Forall_app, !Forall_option_list, Forall_omap_id in Hok.
  destruct Hok as (Hpo & Har & Hva & Hko & Hkd & Hkw & Hde).
  cbn [assign_arguments_to_namespace].
  apply wp_bind, (wp_mapM _ (λ x y, erase y = erase x ∧ arg_assigned p f y)
                    posonlyargs h0); [|done|].
  { eapply Forall_impl; [exact Hpo|]. intros x Hx h1 Ψ E1 K1. cbv beta.
    apply (wp_assign_arg p f x h0); [done..|]. intros. by apply K1. }
  intros po' h1 [Epo Apo]%Forall2_erase X1.
  apply wp_bind, (wp_mapM _ (λ x y, erase y = erase x ∧ arg_assigned p f y)
                    args h0); [|done|].
  { eapply Forall_impl; [exact Har|]. intros x Hx h2 Ψ E2 K2. cbv beta.
    apply (wp_assign_arg p f x h0); [done..|]. intros. by apply K2. }
  intros ar' h2 [Ear Aar]%Forall2_erase X2.
  apply wp_bind, (wp_mapM _ (λ x y, erase y = erase x ∧ arg_assigned p f y)
                    kwonlyargs h0); [|done|].
  { rewrite Forall_forall in Hko, Hn. apply Forall_forall.
    intros x Hx h3 Ψ E3 K3. cbv beta.
    apply (wp_assign_kwonlyarg p f x h0); [by apply Hko|by apply Hn|done..|].
    intros. by apply K3. }
  intros ko' h3 [Eko Ako]%Forall2_erase X3.
  apply wp_bind, (wp_rec_options kw_defaults p h0); [done..|].
  intros kd' h4 Ekd Okd X4.
  apply wp_bind, (wp_rec_list defaults p h0); [done..|].
  intros de' h5 Ede Ode X5.
  apply wp_bind, (wp_rec_option vararg f h0); [done..|].
  intros va' h6 Eva Ova X6.
  apply wp_bind, (wp_rec_option kwarg f h0); [done..|].
  intros kw' h7 Ekw Okw X7.
  apply wp_ret, K; [|by repeat split|done].
  cbn. by rewrite Epo, Ear, Eko, Ekd, Ede, Eva, Ekw.
Qed.

Lemma introduced_by_stable n c p N N' :
  stable N N' → introduced_by n c p N → introduced_by n c p N'.
Proof.
  intros (K & _ & Nd & P & _) (? & ? & ?). unfold introduced_by, namespace_node in *.
  repeat split; congruence.
Qed.

Lemma introduced_by_ext n c p h h' i N :
  heap_ext h h' → h !! i = Some N → introduced_by n c p N →
  ∃ N', h' !! i = Some N' ∧ introduced_by n c p N'.
Proof.
  intros E L I. destruct (heap_ext_lookup _ _ _ _ E L) as (N' & L' & St).
  exists N'. split; [done | by eapply introduced_by_stable].
Qed.

Lemma scopes_introduced_ext n c ns h h1 h' t F :
  heap_ext h1 h' → scopes_introduced n c ns h h1 t F →
  scopes_introduced n c ns h h' t F.
Proof.
  intros E. unfold scopes_introduced. destruct t as [|x t].
  - intros (-> & N & L & I). split; [done|]. by eapply introduced_by_ext.
  - intros (-> & (NA & LA & IA) & (N & L & I) & Ht). split; [done|].
    split; [by eapply introduced_by_ext|]. split; [by eapply introduced_by_ext|done].
Qed.

Lemma introduced_by_new r c p nm :
  introduced_by r c p (set_parent_namespace p (Namespace_init c r nm)).
Proof. done. Qed.

(** The creation of the namespaces of a function or class definition. *)
Lemma wp_scopes c node nm ns t h (Φ : nat * list ast → heap → Prop) :
  c ≠ ModuleNamespace → Forall (ok bound) t → ns < length h →
  (∀ F t' h', heap_ext h h' → F < length h' →
              erase <$> t' = erase <$> t →
              scopes_introduced (ref_of node) c ns h h' t' F → Φ (F, t') h') →
  wp match t with
     | _ :: _ =>
         annotation_namespace <-
           alloc (Namespace_init AnnotationNamespace (ref_of node) nm) ;;
         add_child ns annotation_namespace ;;
         inner <- alloc (Namespace_init c (ref_of node) nm) ;;
         add_child annotation_namespace inner ;;
         t <- mapM (λ n, rec n annotation_namespace) t ;;
         ret (inner, t)
     | [] =>
         inner <- alloc (Namespace_init c (ref_of node) nm) ;;
         add_child ns inner ;;
         ret (inner, t)
     end h Φ.
Proof.
  intros Hc Ht L K. destruct t as [|x t].
  - apply wp_new_child; [done..|]. intros h1 E1 Len1 L1.
    apply wp_ret, K; [done|lia|done|].
    split; [done|]. eexists. split; [done | apply introduced_by_new].
  - apply wp_new_child; [done..|]. intros h1 E1 Len1 L1.
    apply wp_new_child; [lia|done|]. intros h2 E2 Len2 L2.
    apply wp_bind, (wp_rec_list (x :: t) (length h) h2);
      [done|lia|apply heap_ext_refl|].
    intros t' h3 Et Ot E3.
    apply wp_ret, K.
    + eauto using heap_ext_trans.
    + apply heap_ext_length in E3. lia.
    + done.
    + destruct t' as [|x' t']; [done|].
      split; [lia|]. split; [|split; [|done]].
      * eapply introduced_by_ext; [exact (heap_ext_trans _ _ _ E2 E3)|exact L1|].
        apply introduced_by_new.
      * eapply introduced_by_ext; [exact E3|exact L2|].
        apply introduced_by_new.
Qed.

Lemma wp_assign_generators k gs : ∀ it h0 h (Φ : list ast → heap → Prop),
  Forall (ok bound) gs → forallb is_comprehension gs = true →
  k < length h0 → it < length h0 → heap_ext h0 h →
  (∀ gs' h', erase <$> gs' = erase <$> gs → generators_assigned k it gs' →
             heap_ext h0 h' → Φ gs' h') →
  wp (assign_generators rec k it gs) h Φ.
Proof.
  induction gs as [|g gs IH]; intros it h0 h Φ Hok Hc Lk Li E K.
  - apply wp_ret, K; done.
  - apply Forall_cons in Hok as [Hg Hgs]. cbn in Hc.
    apply andb_true_iff in Hc as [Hcg Hcgs].
    destruct g as [| | | | | |ga target iter ifs| | | | | | |]; try done.
    apply ok_children in Hg. cbn in Hg. apply Forall_cons in Hg as [Ht Hg].
    apply Forall_cons in Hg as [Hi Hf].
    cbn [assign_generators].
    apply wp_bind, (wp_rec target k h0); [done..|]. intros t' h1 Et Ot X1.
    apply wp_bind, (wp_rec iter it h0); [done..|]. intros i' h2 Ei Oi X2.
    apply wp_bind, (wp_rec_list ifs k h0); [done..|]. intros f' h3 Ef Of X3.
    apply wp_bind, (IH k h0); [done..|]. intros gs' h4 Egs Ags X4.
    apply wp_ret, K; [|by repeat split|done].
    cbn. by rewrite Et, Ei, Ef, Egs.
Qed.

Lemma wp_create_comprehension_namespace node ns h :
  (∃ a c e g, node = Comp a c e g) ∨ (∃ a k v g, node = DictComp a k v g) →
  Forall (ok bound) (child_nodes node) → node_ok node = true → ns < length h →
  wp (create_comprehension_namespace rec node ns) h
    (λ node' h', erase node' = erase node ∧ attrs_of node' = attrs_of node ∧
                 heap_ext h h' ∧ scope_assigned (ref_of node) ns h h' node').
Proof.
  intros [(a & c & e & g & ->)|(a & k & v & g & ->)] Hok Hn L.
  - cbn in Hok, Hn. apply Forall_cons in Hok as [He Hg].
    unfold create_comprehension_namespace.
    apply wp_new_child; [done..|]. intros h1 E1 Len1 L1.
    apply wp_bind, (wp_rec e (length h) h1); [done|lia|apply heap_ext_refl|].
    intros e' h2 Ee Oe X2.
    apply wp_bind, (wp_assign_generators (length h) g ns h1);
      [done|done|lia|lia|done|].
    intros g' h3 Eg Ag X3.
    apply wp_ret. split; [cbn; by rewrite Ee, Eg|]. split; [done|].
    split; [eauto using heap_ext_trans|].
    exists (length h). split; [|done]. split; [done|].
    eapply introduced_by_ext; [exact X3|exact L1|apply introduced_by_new].
  - cbn in Hok, Hn. apply Forall_cons in Hok as [Hk Hok].
    apply Forall_cons in Hok as [Hv Hg].
    unfold create_comprehension_namespace.
    apply wp_new_child; [done..|]. intros h1 E1 Len1 L1.
    apply wp_bind, (wp_rec k (length h) h1); [done|lia|apply heap_ext_refl|].
    intros k' h2 Ek Ok' X2.
    apply wp_bind, (wp_rec v (length h) h1); [done|lia|done|].
    intros v' h3 Ev Ov X3.
    apply wp_bind, (wp_assign_generators (length h) g ns h1);
      [done|done|lia|lia|done|].
    intros g' h4 Eg Ag X4.
    apply wp_ret. split; [cbn; by rewrite Ek, Ev, Eg|]. split; [done|].
    split; [eauto using heap_ext_trans|].
    exists (length h). split; [|done]. split; [done|].
    eapply introduced_by_ext; [exact X4|exact L1|apply introduced_by_new].
Qed.

Lemma wp_create_functiondef_namespace a y nm ar b d r t ns h :
  let node := FunctionDef a y nm ar b d r t in
  Forall (ok bound) (child_nodes node) → node_ok node = true → ns < length h →
  wp (create_functiondef_namespace rec node ns) h
    (λ node' h', erase node' = erase node ∧ attrs_of node' = attrs_of node ∧
                 heap_ext h h' ∧ scope_assigned (ref_of node) ns h h' node').
Proof.
  intros node Hok Hn L. cbn in Hok, Hn.
  rewrite !Forall_app, !Forall_option_list in Hok.
  destruct Hok as (Har & Hb & Hd & Hr & Ht).
  unfold create_functiondef_namespace, node.
  apply wp_bind, wp_scopes; [done..|]. intros F t' h0 E0 LF Et St.
  assert (ns < length h0) as L0 by (apply heap_ext_length in E0; lia).
  apply wp_bind,
    (wp_mapM_option _ (λ x y, erase y = erase x ∧ arguments_assigned ns F y)
       ar h0); [|apply heap_ext_refl|].
  { intros x -> h1 Ψ E1 K1. cbn in Hn.
    apply (wp_assign_arguments x ns F h0); [by apply Har|done..|].
    intros. by apply K1. }
  intros ar' h1 [Ear Aar]%option_Forall2_erase X1.
  apply wp_bind, (wp_rec_list b F h0); [done..|]. intros b' h2 Eb Ob X2.
  apply wp_bind, (wp_rec_list d ns h0); [done..|]. intros d' h3 Ed Od X3.
  apply wp_bind, (wp_rec_option r ns h0); [done..|]. intros r' h4 Er Or X4.
  apply wp_ret. split; [cbn; by rewrite Ear, Eb, Ed, Er, Et|]. split; [done|].
  split; [eauto using heap_ext_trans|].
  exists F. split; [by eapply scopes_introduced_ext|done].
Qed.

Lemma wp_create_lambda_namespace a ar b ns h :
  let node := Lambda a ar b in
  Forall (ok bound) (child_nodes node) → node_ok node = true → ns < length h →
  wp (create_lambda_namespace rec node ns) h
    (λ node' h', erase node' = erase node ∧ attrs_of node' = attrs_of node ∧
                 heap_ext h h' ∧ scope_assigned (ref_of node) ns h h' node').
Proof.
  intros node Hok Hn L. cbn in Hok, Hn.
  apply Forall_cons in Hok as [Har Hb]. apply Forall_inv in Hb.
  unfold create_lambda_namespace, node.
  apply wp_new_child; [done..|]. intros h1 E1 Len1 L1.
  apply wp_bind, (wp_assign_arguments ar ns (length h) h1);
    [done|done|lia|lia|apply heap_ext_refl|].
  intros ar' h2 Ear Aar X2.
  apply wp_bind, (wp_rec b (length h) h1); [done|lia|done|].
  intros b' h3 Eb Ob X3.
  apply wp_ret. split; [cbn; by rewrite Ear, Eb|]. split; [done|].
  split; [eauto using heap_ext_trans|].
  exists (length h). split; [|done]. split; [done|].
  eapply introduced_by_ext; [exact X3|exact L1|apply introduced_by_new].
Qed.

Lemma wp_create_class_namespace a nm ba k b d t ns h :
  let node := ClassDef a nm ba k b d t in
  Forall (ok bound) (child_nodes node) → ns < length h →
  wp (create_class_namespace rec node ns) h
    (λ node' h', erase node' = erase node ∧ attrs_of node' = attrs_of node ∧
                 heap_ext h h' ∧ scope_assigned (ref_of node) ns h h' node').
Proof.
  intros node Hok L. cbn in Hok. rewrite !Forall_app in Hok.
  destruct Hok as (Hba & Hk & Hb & Hd & Ht).
  unfold create_class_namespace, node.
  apply wp_bind, wp_scopes; [done..|]. intros C t' h0 E0 LC Et St.
  assert (ns < length h0) as L0 by (apply heap_ext_length in E0; lia).
  apply wp_bind, (wp_rec_list ba ns h0); [done|done|apply heap_ext_refl|].
  intros ba' h1 Eba Oba X1.
  apply wp_bind, (wp_rec_list k ns h0); [done..|]. intros k' h2 Ek Ok' X2.
  apply wp_bind, (wp_rec_list b C h0); [done..|]. intros b' h3 Eb Ob X3.
  apply wp_bind, (wp_rec_list d ns h0); [done..|]. intros d' h4 Ed Od X4.
  apply wp_ret. split; [cbn; by rewrite Eba, Ek, Eb, Ed, Et|]. split; [done|].
  split; [eauto using heap_ext_trans|].
  exists C. split; [by eapply scopes_introduced_ext|done].
Qed.

Lemma visit_name_eq a i c ns h :
  node_ok (Name a i c) = true →
  visit_name (Name a i c) ns h = Ok (Name a i c, after_name a i c ns h).
Proof.
  intros Hn. unfold visit_name, after_name, bind at 1, get_heap.
  destruct (isinstance_ns h ns ClassNamespace); [|done].
  destruct c; cbn; [done| |done].
  cbn in Hn. apply bool_decide_eq_true in Hn as [p Hp]. rewrite Hp. cbn.
  by destruct (bool_decide (ref_class p = "AugAssign")).
Qed.

Lemma heap_ext_after_name a i c ns h : heap_ext h (after_name a i c ns h).
Proof.
  unfold after_name. destruct (_ && _); [|apply heap_ext_refl].
  apply heap_ext_alter, stable_update_nonlocal_names.
Qed.

Lemma wp_visit_children n ns h :
  Forall (ok bound) (child_nodes n) → ns < length h →
  wp (visit_children (λ child, rec child ns) n) h
    (λ n' h', erase n' = erase n ∧ attrs_of n' = attrs_of n ∧ heap_ext h h').
Proof.
  intros Hok L.
  destruct n; cbn [child_nodes] in Hok; cbn [visit_children];
    rewrite ?Forall_app, ?Forall_option_list, ?Forall_omap_id, ?Forall_cons in Hok;
    destruct_and?;
    repeat first
      [ apply wp_bind, (wp_rec_list _ ns h);
        [done|done|first [apply heap_ext_refl|done]|]; intros ? ? ? ? ?
      | apply wp_bind, (wp_rec_option _ ns h);
        [done|done|first [apply heap_ext_refl|done]|]; intros ? ? ? ? ?
      | apply wp_bind, (wp_rec_options _ ns h);
        [done|done|first [apply heap_ext_refl|done]|]; intros ? ? ? ? ?
      | apply wp_bind, (wp_rec _ ns h);
        [done|done|first [apply heap_ext_refl|done]|]; intros ? ? ? ? ? ];
    apply wp_ret; (split; [cbn; congruence|]); (split; [done|]);
    first [done | apply heap_ext_refl].
Qed.
End handler_specs.

(** ** create_child_namespaces *)

(** One call of [create_child_namespaces], given that the calls with the
    remaining fuel behave. *)
Lemma create_child_namespaces_step fuel n ns h :
  rec_ok (create_child_namespaces fuel) fuel →
  height n < S fuel → tree_ok n → ns < length h →
  wp (create_child_namespaces (S fuel) n ns) h
    (λ n' h', visited n ns h n' h' ∧
              attrs_of n' = attrs_of (set_namespace ns n) ∧
              (introduces_scope n = true →
               scope_assigned (ref_of n) ns h h' n')).
Proof.
  intros IH Hh Ht L.
  pose proof (ok_children_S fuel n Hh Ht) as Hc.
  apply tree_ok_unfold in Ht as [Hn _].
  rewrite <- (child_nodes_set_namespace ns) in Hc.
  rewrite <- (node_ok_set_namespace ns) in Hn.
  assert (∀ n' h', erase n' = erase (set_namespace ns n) →
                   attrs_of n' = attrs_of (set_namespace ns n) →
                   heap_ext h h' → visited n ns h n' h') as Hv.
  { intros n' h' E A X. split; [by rewrite E, erase_set_namespace|].
    split; [|done]. unfold owned_by, namespace_of.
    by rewrite A, attrs_of_set_namespace. }
  rewrite <- (ref_of_set_namespace ns n).
  assert (introduces_scope (set_namespace ns n) = introduces_scope n) as <-
    by by destruct n.
  cbn [create_child_namespaces].
  destruct (set_namespace ns n) as
    [a b|a y nm ar b d r t|a ar b|a nm ba k b d t|a c e g|a k v g|a t i fs
    |a po ar va ko kd kw de|a nm an|a names|a names|a i c|a v|a c fs] eqn:En.
  all: try (eapply wp_mono;
            [apply (wp_visit_children _ fuel IH); done|];
            intros n' h' (E & A & X); by split; [apply Hv|]).
  - eapply wp_mono;
      [apply (wp_create_functiondef_namespace _ fuel IH); done|].
    intros n' h' (E & A & X & S). by split; [apply Hv|].
  - eapply wp_mono;
      [apply (wp_create_lambda_namespace _ fuel IH); done|].
    intros n' h' (E & A & X & S). by split; [apply Hv|].
  - eapply wp_mono;
      [apply (wp_create_class_namespace _ fuel IH); done|].
    intros n' h' (E & A & X & S). by split; [apply Hv|].
  - eapply wp_mono;
      [apply (wp_create_comprehension_namespace _ fuel IH); [left; eauto|done..]|].
    intros n' h' (E & A & X & S). by split; [apply Hv|].
  - eapply wp_mono;
      [apply (wp_create_comprehension_namespace _ fuel IH); [right; eauto|done..]|].
    intros n' h' (E & A & X & S). by split; [apply Hv|].
  - apply wp_bind, wp_modify, wp_ret.
    split; [|done]. apply Hv; [done..|].
    apply heap_ext_alter, stable_update_global_names.
  - apply wp_bind, wp_modify, wp_ret.
    split; [|done]. apply Hv; [done..|].
    apply heap_ext_alter, stable_update_nonlocal_names.
  - eapply wp_intro; [by apply visit_name_eq|].
    split; [|done]. apply Hv; [done..|]. apply heap_ext_after_name.
Qed.

(** The builder is total: a call with more fuel than the height of the tree
    returns, whatever the enclosing namespace. *)
Theorem create_child_namespaces_ok fuel :
  rec_ok (create_child_namespaces fuel) fuel.
Proof.
  induction fuel as [|fuel IH]; intros n ns h Hh Ht L; [lia|].
  eapply wp_mono; [by apply create_child_namespaces_step|].
  by intros n' h' (? & _).
Qed.

(** With more fuel than the height of the tree, a call returns the
    annotated tree and an extended heap. *)
Lemma create_child_namespaces_spec fuel n ns h :
  height n < fuel → tree_ok n → ns < length h →
  ∃ n' h', create_child_namespaces fuel n ns h = Ok (n', h') ∧
           visited n ns h n' h' ∧
           attrs_of n' = attrs_of (set_namespace ns n) ∧
           (introduces_scope n = true →
            scope_assigned (ref_of n) ns h h' n').
Proof.
  intros Hh Ht L. destruct fuel as [|fuel]; [lia|].
  apply wp_elim.
  apply create_child_namespaces_step; [apply create_child_namespaces_ok|done..].
Qed.

(** ** The scopes that the builder assigns *)

Lemma ref_of_erase n : ref_of (erase n) = ref_of n.
Proof. by destruct n as [| ? [] | | | ? [] | | | | | | | | |]. Qed.

Lemma ref_of_erase_eq n n' : erase n' = erase n → ref_of n' = ref_of n.
Proof. intros E. by rewrite <- (ref_of_erase n'), E, ref_of_erase. Qed.

Lemma generators_assigned_clauses K gs : ∀ it,
  generators_assigned K it gs →
  ∀ i g, gs !! i = Some g → generator_assigned K (if decide (i = 0) then it else K) g.
Proof.
  induction gs as [|g0 gs IH]; intros it Hg i g Hi; [done|].
  destruct Hg as [H0 Hgs]. destruct i as [|i]; cbn in Hi.
  - by injection Hi as <-.
  - specialize (IH K Hgs i g Hi). by destruct (decide (i = 0)).
Qed.

Lemma tree_ok_node_ok n : tree_ok n → node_ok n = true.
Proof. by intros [? _]%tree_ok_unfold. Qed.

(** C5.  For a generator expression or a set, list or dict comprehension the
    builder creates a function namespace below the enclosing namespace; the
    element (or the key and the value), the target and the conditions of
    every clause, and the iterables of all clauses but the first are
    annotated with it, and the iterable of the first clause with the
    enclosing namespace. *)
Theorem comprehension_scope fuel node ns h :
  is_comprehension_expr node = true →
  height node < fuel → tree_ok node → ns < length h →
  ∃ node' h' N,
    create_child_namespaces fuel node ns h = Ok (node', h') ∧
    h' !! length h = Some N ∧ ns_kind N = FunctionNamespace ∧
    parent_namespace N = Some ns ∧ namespace_node N = ref_of node ∧
    owned_by ns node' ∧
    comprehension_assigned (length h) ns node'.
Proof.
  intros Hc Hh Ht L.
  destruct (create_child_namespaces_spec fuel node ns h Hh Ht L)
    as (node' & h' & R & (E & O & X) & A & S).
  assert (introduces_scope node = true) as Hi by by destruct node.
  specialize (S Hi).
  assert (∃ N, h' !! length h = Some N ∧
               introduced_by (ref_of node) FunctionNamespace ns N ∧
               comprehension_assigned (length h) ns node') as (N & HN & I & CA).
  { assert (is_comprehension_expr node' = true) as Hc'.
    { destruct node; try done; destruct node'; done. }
    destruct node'; try done; cbn in S.
    - destruct S as (K & (-> & N & HN & I) & Oe & Hg).
      exists N. split; [done|]. split; [done|]. split; [done|].
      exact (generators_assigned_clauses _ _ _ Hg).
    - destruct S as (K & (-> & N & HN & I) & Ok' & Ov & Hg).
      exists N. split; [done|]. split; [done|]. split; [done|]. split; [done|].
      exact (generators_assigned_clauses _ _ _ Hg). }
  exists node', h', N. destruct I as (K & Nd & P). by repeat split.
Qed.

(** C5 at [listcomp_example], visited from the module namespace. *)
Lemma comprehension_scope_witness :
  ∃ node' h' N,
    create_child_namespaces 4 (add_parent listcomp_example None) 0 eval_module_heap
    = Ok (node', h') ∧
    h' !! 1 = Some N ∧ ns_kind N = FunctionNamespace ∧
    parent_namespace N = Some 0 ∧ comprehension_assigned 1 0 node'.
Proof.
  destruct (comprehension_scope 4 (add_parent listcomp_example None) 0
              eval_module_heap)
    as (node' & h' & N & R & HN & K & P & _ & _ & C).
  - reflexivity.
  - vm_compute. lia.
  - vm_compute. reflexivity.
  - cbn. lia.
  - exists node', h', N. repeat split; [exact R|exact HN|exact K|exact P|exact C].
Defined.

Lemma scope_class_erase_eq n n' : erase n' = erase n → scope_class n' = scope_class n.
Proof. intros E. by destruct n; destruct n'. Qed.

Lemma scope_assigned_scopes r ns h h' n' :
  scope_assigned r ns h h' n' →
  ∃ inner, scopes_introduced r (scope_class n') ns h h' (type_params_of n') inner.
Proof.
  destruct n'; try done; cbn.
  - intros (F & S & _). eauto.
  - intros (F & S & _). eauto.
  - intros (F & S & _). eauto.
  - intros (F & S & _). eauto.
  - intros (F & S & _). eauto.
Qed.

(** C10.  A node that introduces a scope is itself annotated with the
    enclosing namespace [ns]; the namespace that it introduces is a new
    object, which refers to the node as its introducing node (as does the
    annotation namespace put in between for type parameters). *)
Theorem scope_node_owned_by_enclosing_scope fuel node ns h :
  introduces_scope node = true →
  height node < fuel → tree_ok node → ns < length h →
  ∃ node' h' inner N,
    create_child_namespaces fuel node ns h = Ok (node', h') ∧
    owned_by ns node' ∧ ref_of node' = ref_of node ∧
    ns < inner ∧ h' !! inner = Some N ∧ h !! inner = None ∧
    ns_kind N = scope_class node ∧ namespace_node N = ref_of node' ∧
    (inner = length h ∧ parent_namespace N = Some ns
     ∨ inner = S (length h) ∧ parent_namespace N = Some (length h) ∧
       ∃ NA, h' !! length h = Some NA ∧
             introduced_by (ref_of node') AnnotationNamespace ns NA).
Proof.
  intros Hi Hh Ht L.
  destruct (create_child_namespaces_spec fuel node ns h Hh Ht L)
    as (node' & h' & R & (E & O & X) & A & S).
  specialize (S Hi). apply scope_assigned_scopes in S as [inner S].
  rewrite (scope_class_erase_eq _ _ E) in S.
  rewrite <- (ref_of_erase_eq _ _ E) in S.
  unfold scopes_introduced in S.
  destruct (type_params_of node') as [|x t].
  - destruct S as (-> & N & HN & K & Nd & P).
    exists node', h', (length h), N.
    repeat split; try done; [by apply ref_of_erase_eq|by apply lookup_ge_None|].
    by left.
  - destruct S as (-> & (NA & HA & IA) & (N & HN & K & Nd & P) & _).
    exists node', h', (S (length h)), N.
    repeat split; try done;
      [by apply ref_of_erase_eq|lia|apply lookup_ge_None; lia|].
    right. eauto.
Qed.

(** C10 at the generic function definition [generic_def_example]. *)
Lemma scope_node_owned_by_enclosing_scope_witness :
  ∃ node' h' N,
    create_child_namespaces 5 (add_parent generic_def_example None) 0
      eval_module_heap = Ok (node', h') ∧
    namespace_of node' = Some 0 ∧
    h' !! 2 = Some N ∧ ns_kind N = FunctionNamespace ∧
    namespace_node N = NodeRef 4 "FunctionDef".
Proof.
  destruct (scope_node_owned_by_enclosing_scope 5
              (add_parent generic_def_example None) 0 eval_module_heap)
    as (node' & h' & inner & N & R & O & Rf & Li & HN & _ & K & Nd & _).
  - reflexivity.
  - vm_compute. lia.
  - vm_compute. reflexivity.
  - cbn. lia.
  - assert (inner = 2) as ->.
    { vm_compute in R. injection R as <- <-.
      destruct inner as [|[|[|inner]]];
        [lia
        |vm_compute in HN; injection HN as <-; vm_compute in K; discriminate K
        |reflexivity
        |vm_compute in HN; discriminate HN]. }
    exists node', h', N. rewrite Rf in Nd.
    repeat split; [exact R|exact O|exact HN|exact K|exact Nd].
Defined.

Lemma type_params_of_erase n :
  type_params_of (erase n) = erase <$> type_params_of n.
Proof. by destruct n. Qed.

(** C4 as stated fails: the type parameter [T] of [generic_function] is
    bound in the annotation namespace 1, while the annotation of the
    parameter [x] and the return annotation are annotated with the enclosing
    namespace 0, from which [T] resolves to a binding of the module
    namespace. *)
Lemma type_parameter_not_visible_to_annotations :
  let tree := built_tree generic_function in
  let h := generic_function_heap in
  namespace_of <$> find_node 11 tree = Some (Some 1) ∧
  isinstance_ns h 1 AnnotationNamespace = true ∧
  lookup_binding h (1, 0) = Some (new_binding NameBinding "T") ∧
  namespace_of <$> find_node 7 tree = Some (Some 0) ∧
  namespace_of <$> find_node 10 tree = Some (Some 0) ∧
  owner_of (get_binding some_builtins 3 "T" 0 h) = Some 0 ∧
  get_binding some_builtins 3 "T" 0 h ≠ Ok ((1, 0), h).
Proof.
  repeat split; try (vm_compute; reflexivity).
  intros H. apply (f_equal owner_of) in H. vm_compute in H. discriminate H.
Qed.

(** ** Names in class scope *)

Section class_scope.
Variable dir_builtins : list string.

(** A name that a scope other than the module scope declares global or
    nonlocal resolves to a binding of an older namespace. *)
Lemma declared_name_resolves_outside h ns N nm fuel :
  wf_heap h → h !! ns = Some N → ns_kind N ≠ ModuleNamespace →
  nm ∈ global_names N ∨ nm ∈ nonlocal_names N → ns < fuel →
  ∃ o, owner_of (get_binding dir_builtins (S fuel) nm ns h) = Some o ∧ o < ns.
Proof.
  intros W E K D L.
  destruct (wf_heap_not_module h ns N W E K) as [q Q].
  destruct (wf_heap_parent h ns N q W E Q) as (Lq & _ & _).
  destruct (decide (nm ∈ global_names N)) as [G|G].
  - rewrite (get_binding_global _ _ _ _ _ _ E K G).
    rewrite get_global_namespace_root by eauto.
    destruct (get_binding_total dir_builtins h nm W fuel 0)
      as (o & i & h' & b & R & Lo & _); [by eapply wf_heap_root|lia|].
    exists o. rewrite R. split; [done | lia].
  - destruct D as [D|D]; [done|].
    rewrite (get_binding_nonlocal _ _ _ _ _ _ E K G D).
    rewrite get_nonlocal_namespace_nearest by eauto.
    destruct (nearest_enclosing_non_class_is_Some h ns N W E K) as [p P].
    destruct (nearest_enclosing_non_class_Some h ns p W P) as (Lp & Sp & _).
    rewrite P.
    destruct (get_binding_total dir_builtins h nm W fuel p Sp)
      as (o & i & h' & b & R & Lo & _); [lia|].
    exists o. rewrite R. split; [done | lia].
Qed.

(** C3.  When the builder visits a plain name with a class namespace as the
    enclosing namespace, a name that is read, or that is the target of an
    augmented assignment, is added to the declared-nonlocal set of the class
    namespace, and it then resolves to a binding outside the class, whatever
    the class binds; for any other name (a simple write) the heap is left as
    it is. *)
Theorem class_scope_name_is_nonlocal fuel a i c ns h N :
  wf_heap h → h !! ns = Some N → ns_kind N = ClassNamespace →
  (c = Store → is_Some (parent a)) →
  ∃ node' h' N',
    create_child_namespaces (S fuel) (Name a i c) ns h = Ok (node', h') ∧
    owned_by ns node' ∧ h' !! ns = Some N' ∧ bindings N' = bindings N ∧
    (deferred a c = true →
     nonlocal_names N' = nonlocal_names N ∪ {[i]} ∧
     ∀ fuel', ns < fuel' →
       ∃ o, owner_of (get_binding dir_builtins (S fuel') i ns h') = Some o ∧
            o < ns) ∧
    (deferred a c = false → h' = h).
Proof.
  intros W E K Hp.
  assert (isinstance_ns h ns ClassNamespace = true) as I
    by (apply isinstance_ns_true; eauto).
  cbn [create_child_namespaces set_namespace with_attrs].
  rewrite visit_name_eq.
  2:{ destruct c; try done. cbn. by apply bool_decide_eq_true, Hp. }
  unfold after_name. rewrite I. cbn [andb parent].
  fold (deferred a c). destruct (deferred a c) eqn:D.
  - eexists _, _, (update_nonlocal_names [i] N). split; [done|].
    split; [done|]. split; [by rewrite list_lookup_alter_eq, E|].
    split; [done|]. split; [|done]. intros _.
    split; [cbn; by rewrite (right_id_L ∅ (∪))|].
    intros fuel' L.
    apply (declared_name_resolves_outside _ _ (update_nonlocal_names [i] N));
      [|by rewrite list_lookup_alter_eq, E|cbn; by rewrite K
       |right; cbn; apply elem_of_union_r, elem_of_union_l; by apply elem_of_singleton
       |done].
    eapply heap_ext_wf; [exact W|].
    apply heap_ext_alter, stable_update_nonlocal_names.
  - eexists _, h, N. by repeat split.
Qed.
End class_scope.

(** C3 at the target of [count += 1] in a class that binds [count]. *)
Lemma class_scope_name_is_nonlocal_witness :
  ∃ node' h' N',
    create_child_namespaces 1
      (Name {| nid := 16; lineno := 3; col_offset := 0;
               parent := Some (NodeRef 15 "AugAssign"); namespace := None |}
         "count" Store) 1 class_heap = Ok (node', h') ∧
    h' !! 1 = Some N' ∧ "count" ∈ nonlocal_names N' ∧
    owner_of (get_binding some_builtins 3 "count" 1 h') = Some 0.
Proof.
  destruct (class_scope_name_is_nonlocal some_builtins 0
              {| nid := 16; lineno := 3; col_offset := 0;
                 parent := Some (NodeRef 15 "AugAssign"); namespace := None |}
              "count" Store 1 class_heap
              (namespace_at class_heap 1))
    as (node' & h' & N' & R & _ & HN & _ & D & _).
  - apply wf_heapb_correct. vm_compute. reflexivity.
  - reflexivity.
  - reflexivity.
  - intros _. eexists. reflexivity.
  - destruct (D eq_refl) as [Hn Hr].
    destruct (Hr 2) as (o & Ho & Lo); [lia|].
    exists node', h', N'. split; [exact R|]. split; [exact HN|].
    split; [rewrite Hn; apply elem_of_union_r; by apply elem_of_singleton|].
    rewrite Ho. f_equal. lia.
Defined.

(** ** The pipeline: Parent Linker, then Scope Tree Builder *)

Lemma all_nodes_unfold (p : ast → bool) n :
  forallb p (nodes n) = true ↔
  p n = true ∧ Forall (λ c, forallb p (nodes c) = true) (child_nodes n).
Proof.
  rewrite nodes_unfold. cbn [forallb].
  rewrite andb_true_iff. apply and_iff_compat_l.
  induction (child_nodes n) as [|c l IH]; cbn.
  - split; [by constructor | done].
  - rewrite forallb_app, andb_true_iff, IH, Forall_cons. done.
Qed.

Lemma add_parent_unfold n p :
  add_parent n p =
  let n' := map_children (λ child, add_parent child (Some (ref_of n))) n in
  match p with Some p => set_parent p n' | None => n' end.
Proof. by destruct n. Qed.

Lemma child_nodes_add_parent n p :
  child_nodes (add_parent n p)
  = (λ child, add_parent child (Some (ref_of n))) <$> child_nodes n.
Proof.
  rewrite add_parent_unfold. cbv zeta.
  destruct p; [unfold set_parent; rewrite child_nodes_with_attrs|];
    apply child_nodes_map_children.
Qed.

Lemma is_arguments_add_parent n p : is_arguments (add_parent n p) = is_arguments n.
Proof. by destruct n, p. Qed.

Lemma is_arg_add_parent n p : is_arg (add_parent n p) = is_arg n.
Proof. by destruct n, p. Qed.

Lemma is_comprehension_add_parent n p :
  is_comprehension (add_parent n p) = is_comprehension n.
Proof. by destruct n, p. Qed.

Lemma node_ok_add_parent n p : node_ok (add_parent n (Some p)) = node_typed n.
Proof.
  destruct n as
    [a b|a y nm ar b d r t|a ar b|a nm ba k b d t|a c e g|a k v g|a t i fs
    |a po ar va ko kd kw de|a nm an|a names|a names|a i c|a v|a c fs];
    cbn; try done.
  - destruct ar as [x|]; cbn; [apply is_arguments_add_parent|done].
  - apply is_arguments_add_parent.
  - rewrite forallb_fmap. apply forallb_ext_eq. intros x.
    apply is_comprehension_add_parent.
  - rewrite forallb_fmap. apply forallb_ext_eq. intros x.
    apply is_comprehension_add_parent.
  - rewrite forallb_fmap. apply forallb_ext_eq. intros x. apply is_arg_add_parent.
  - by destruct c.
Qed.

(** After [add_parent], below the root, the tree is as the builder needs
    it. *)
Lemma tree_ok_add_parent n : ∀ p, typed n → tree_ok (add_parent n (Some p)).
Proof.
  induction n as [n IH] using ast_child_ind. intros p [Hn Hc]%all_nodes_unfold.
  apply tree_ok_unfold. rewrite node_ok_add_parent, child_nodes_add_parent.
  split; [done|]. rewrite Forall_fmap.
  rewrite Forall_forall in IH, Hc. apply Forall_forall. intros c Hin.
  apply IH; [done|]. by apply Hc.
Qed.

Lemma tree_ok_add_parent_module a body :
  typed (Module a body) → tree_ok (add_parent (Module a body) None).
Proof.
  intros [Hn Hc]%all_nodes_unfold.
  apply tree_ok_unfold. rewrite child_nodes_add_parent.
  split; [done|]. rewrite Forall_fmap.
  rewrite Forall_forall in Hc. apply Forall_forall. intros c Hin.
  apply tree_ok_add_parent. by apply Hc.
Qed.

Lemma wf_heap_singleton N :
  parent_namespace N = None → ns_kind N = ModuleNamespace → wf_heap [N].
Proof.
  intros P K [|i] N' E; [|by destruct i]. injection E as <-. by rewrite P.
Qed.

(** X6.  The builder is total on the tree of a module: it returns the
    annotated tree and a well-formed namespace tree whose root, the
    namespace 0, is the module namespace. *)
Theorem create_all_namespaces_total a body :
  typed (Module a body) →
  let module := add_parent (Module a body) None in
  ∃ module' h N0,
    create_all_namespaces module [] = Ok ((0, module'), h) ∧
    wf_heap h ∧ h !! 0 = Some N0 ∧ ns_kind N0 = ModuleNamespace ∧
    namespace_node N0 = ref_of module ∧
    erase module' = erase module ∧ owned_by 0 module'.
Proof.
  intros Ht module.
  pose proof (tree_ok_add_parent_module a body Ht) as Hok. fold module in Hok.
  unfold create_all_namespaces.
  assert (ModuleNamespace_init (ref_of module)
          = Some (Namespace_init ModuleNamespace (ref_of module) EmptyString)) as -> by done.
  unfold bind at 1, alloc. cbn [length app].
  set (N := Namespace_init ModuleNamespace (ref_of module) EmptyString).
  destruct (create_child_namespaces_spec (S (height module)) module 0 [N])
    as (module' & h & R & (E & O & X) & _); [lia|done|cbn; lia|].
  unfold bind. rewrite R. cbn [ret].
  destruct (heap_ext_lookup [N] h 0 N X eq_refl) as (N0 & H0 & St).
  exists module', h, N0. split; [done|].
  split; [apply (heap_ext_wf [N] h); [by apply wf_heap_singleton|done]|].
  destruct St as (K & _ & Nd & _). by repeat split.
Qed.

(** ** The expected trees of the test suite *)

(** [test_global_nonlocal] of [test_create_namespaces.py]. *)
Example test_global_nonlocal_namespaces :
  summary <$> built_heap test_global_nonlocal =
  [(ModuleNamespace, EmptyString, None, ∅, ∅);
   (FunctionNamespace, "A", Some 0, {["A"; "B"]}, ∅);
   (FunctionNamespace, "n", Some 1, {["B"]}, {["A"]});
   (FunctionNamespace, "c", Some 1, {["c"]}, ∅)].
Proof. vm_compute. reflexivity. Qed.

(** The third scenario of the spec: the class namespace has [A] in its
    declared-nonlocal set. *)
Example class_free_variable_namespaces :
  summary <$> built_heap class_free_variable =
  [(ModuleNamespace, EmptyString, None, ∅, ∅);
   (ClassNamespace, "Class", Some 0, ∅, {["A"]})].
Proof. vm_compute. reflexivity. Qed.

(** [test_typeparam] of [test_create_namespaces.py]: the names of the
    annotations of [generic_method] are recorded in the class namespace of
    [C], its enclosing scope. *)
Example test_typeparam_namespaces :
  summary <$> built_heap test_typeparam =
  [(ModuleNamespace, EmptyString, None, ∅, ∅);
   (AnnotationNamespace, "f", Some 0, ∅, ∅);
   (FunctionNamespace, "f", Some 1, ∅, ∅);
   (AnnotationNamespace, "C", Some 2, ∅, ∅);
   (ClassNamespace, "C", Some 3, ∅, {["Nested"; "T"]});
   (AnnotationNamespace, "generic_method", Some 4, ∅, ∅);
   (FunctionNamespace, "generic_method", Some 5, ∅, ∅)].
Proof. vm_compute. reflexivity. Qed.

(** The method of [classmethod_example] is in the class namespace; its
    decorator is read in the class body. *)
Example classmethod_example_namespaces :
  summary <$> built_heap classmethod_example =
  [(ModuleNamespace, EmptyString, None, ∅, ∅);
   (ClassNamespace, "A", Some 0, ∅, {["classmethod"]});
   (FunctionNamespace, "b", Some 1, ∅, ∅)].
Proof. vm_compute. reflexivity. Qed.

(** ** More on resolution *)

Section resolution_more.
Variable dir_builtins : list string.

(** The ways in which [get_binding] returns. *)
Lemma get_binding_inv fuel nm ns h r h' :
  get_binding dir_builtins (S fuel) nm ns h = Ok (r, h') →
  ∃ N, h !! ns = Some N ∧
    (ns_kind N = ModuleNamespace ∧
     resolve_at_module dir_builtins nm ns N h = (r, h')
     ∨ ns_kind N ≠ ModuleNamespace ∧ (nm ∈ global_names N) ∧
       (∃ g, get_global_namespace fuel h ns = Ok g ∧
             get_binding dir_builtins fuel nm g h = Ok (r, h'))
     ∨ ns_kind N ≠ ModuleNamespace ∧ (nm ∉ global_names N) ∧
       (nm ∉ nonlocal_names N) ∧
       (∃ i b, list_find (λ b, b_name b = nm) (bindings N) = Some (i, b) ∧
               r = (ns, i) ∧ h' = h)
     ∨ ns_kind N ≠ ModuleNamespace ∧ (nm ∉ global_names N) ∧
       ((nm ∈ nonlocal_names N) ∨
        list_find (λ b, b_name b = nm) (bindings N) = None) ∧
       (∃ p, get_nonlocal_namespace fuel h ns = Ok (Some p) ∧
             get_binding dir_builtins fuel nm p h = Ok (r, h'))).
Proof.
  intros R. destruct (h !! ns) as [N|] eqn:E.
  2:{ cbn [get_binding] in R. unfold bind, get_heap in R. by rewrite E in R. }
  exists N. split; [done|].
  destruct (decide (ns_kind N = ModuleNamespace)) as [K|K].
  { left. rewrite (get_binding_module _ _ _ _ _ _ E K) in R. by injection R. }
  right. destruct (decide (nm ∈ global_names N)) as [G|G].
  { left. rewrite (get_binding_global _ _ _ _ _ _ E K G) in R.
    destruct (get_global_namespace fuel h ns) as [g|]; [|done]. eauto 6. }
  right. destruct (decide (nm ∈ nonlocal_names N)) as [Nl|Nl].
  { right. rewrite (get_binding_nonlocal _ _ _ _ _ _ E K G Nl) in R.
    destruct (get_nonlocal_namespace fuel h ns) as [[p|]|]; [|done..].
    repeat split; eauto. }
  destruct (list_find (λ b, b_name b = nm) (bindings N)) as [[i b]|] eqn:F.
  - left. rewrite (get_binding_local _ _ _ _ _ _ _ _ E K G Nl F) in R.
    injection R as <- <-. repeat split; eauto.
  - right. rewrite (get_binding_enclosing _ _ _ _ _ _ E K G Nl F) in R.
    destruct (get_nonlocal_namespace fuel h ns) as [[p|]|]; [|done..].
    repeat split; eauto.
Qed.

Lemma resolved_refl N : resolved N N.
Proof. by repeat split. Qed.

Lemma resolved_trans N1 N2 N3 : resolved N1 N2 → resolved N2 N3 → resolved N1 N3.
Proof.
  intros (K1&?&?&?&?&?&?&?&?&B1&E1) (K2&?&?&?&?&?&?&?&?&B2&E2).
  repeat split; try congruence; [by etrans|].
  intros K. rewrite <- (E1 K). apply E2. by rewrite K1.
Qed.

Lemma resolution_frame_refl h : resolution_frame h h.
Proof. split; [done|]. intros i N E. exists N. split; [done|apply resolved_refl]. Qed.

Lemma resolution_frame_trans h1 h2 h3 :
  resolution_frame h1 h2 → resolution_frame h2 h3 → resolution_frame h1 h3.
Proof.
  intros [L1 F1] [L2 F2]. split; [congruence|]. intros i N E.
  destruct (F1 i N E) as (N2 & E2 & R2). destruct (F2 i N2 E2) as (N3 & E3 & R3).
  exists N3. split; [done | by eapply resolved_trans].
Qed.

Lemma resolution_frame_alter h m N f :
  h !! m = Some N → ns_kind N = ModuleNamespace → resolved N (f N) →
  resolution_frame h (alter f m h).
Proof.
  intros E K R. split; [by rewrite length_alter|]. intros i Ni Ei.
  destruct (decide (i = m)) as [->|Ne].
  - rewrite list_lookup_alter_eq, E. simplify_eq. eauto.
  - rewrite list_lookup_alter_ne by done. eauto using resolved_refl.
Qed.

Lemma resolve_at_module_frame nm m N h :
  h !! m = Some N → ns_kind N = ModuleNamespace →
  resolution_frame h (resolve_at_module dir_builtins nm m N h).2.
Proof.
  intros E K. unfold resolve_at_module.
  destruct (list_find _ (bindings N)) as [[i b]|]; [apply resolution_frame_refl|].
  destruct (bool_decide (nm ∈ dir_builtins)); cbn [snd].
  - destruct (bool_decide (nm ∈ introspecting_builtins)).
    + eapply resolution_frame_trans.
      * apply (resolution_frame_alter h m N set_tainted E K).
        by repeat split.
      * apply (resolution_frame_alter _ m (set_tainted N)); [|done|].
        { by rewrite list_lookup_alter_eq, E. }
        repeat split; try done. by apply prefix_app_r.
    + apply (resolution_frame_alter h m N _ E K).
      repeat split; try done. by apply prefix_app_r.
  - apply (resolution_frame_alter h m N _ E K).
    repeat split; try done. by apply prefix_app_r.
Qed.

Lemma get_binding_resolution_frame fuel nm ns h r h' :
  get_binding dir_builtins fuel nm ns h = Ok (r, h') → resolution_frame h h'.
Proof.
  revert ns h r h'. induction fuel as [|fuel IH]; intros ns h r h' R; [done|].
  apply get_binding_inv in R
    as (N & E & [(K & R)|[(K & G & g & _ & R)|[(K & G & Nl & i & b & F & -> & ->)
                |(K & G & _ & p & _ & R)]]]).
  - pose proof (resolve_at_module_frame nm ns N h E K) as F. by rewrite R in F.
  - by eapply IH.
  - apply resolution_frame_refl.
  - by eapply IH.
Qed.

(** X3.  A resolution keeps every namespace object in place: only a module
    namespace changes, by bindings added at the end of its list, so every
    reference to a binding stays valid and refers to the same binding. *)
Theorem get_binding_frame fuel nm ns h r h' :
  get_binding dir_builtins fuel nm ns h = Ok (r, h') →
  resolution_frame h h' ∧
  ∀ r0 b, lookup_binding h r0 = Some b → lookup_binding h' r0 = Some b.
Proof.
  intros R. pose proof (get_binding_resolution_frame _ _ _ _ _ _ R) as F.
  split; [done|]. intros [o i] b. unfold lookup_binding. cbn.
  destruct (h !! o) as [N|] eqn:E; [|done]. cbn. intros Hb.
  destruct (proj2 F o N E) as (N' & -> & (_&_&_&_&_&_&_&_&_&P&_)). cbn.
  by eapply prefix_lookup_Some.
Qed.

Lemma resolution_frame_isinstance h h' ns c :
  resolution_frame h h' → isinstance_ns h' ns c = isinstance_ns h ns c.
Proof.
  intros [L F]. unfold isinstance_ns. destruct (h !! ns) as [N|] eqn:E.
  - destruct (F ns N E) as (N' & -> & K & _). by rewrite K.
  - apply lookup_ge_None in E. rewrite <- L in E.
    apply lookup_ge_None in E. by rewrite E.
Qed.

Lemma resolution_frame_parent h h' ns :
  resolution_frame h h' →
  h' !! ns ≫= parent_namespace = h !! ns ≫= parent_namespace.
Proof.
  intros [L F]. destruct (h !! ns) as [N|] eqn:E.
  - destruct (F ns N E) as (N' & -> & _ & _ & _ & P & _). cbn. done.
  - apply lookup_ge_None in E. rewrite <- L in E.
    apply lookup_ge_None in E. by rewrite E.
Qed.

Lemma get_global_namespace_frame h h' :
  resolution_frame h h' →
  ∀ fuel ns, get_global_namespace fuel h' ns = get_global_namespace fuel h ns.
Proof.
  intros F. induction fuel as [|fuel IH]; intros ns; [done|].
  cbn [get_global_namespace]. rewrite (resolution_frame_isinstance _ _ _ _ F).
  destruct (isinstance_ns h ns ModuleNamespace); [done|].
  pose proof (resolution_frame_parent h h' ns F) as P.
  destruct (h' !! ns) as [N'|], (h !! ns) as [N|]; cbn in P; try done.
  - rewrite P. destruct (parent_namespace N); [apply IH|done].
  - by rewrite P.
  - by rewrite <- P.
Qed.

Lemma get_nonlocal_namespace_frame h h' :
  resolution_frame h h' →
  ∀ fuel ns, get_nonlocal_namespace fuel h' ns = get_nonlocal_namespace fuel h ns.
Proof.
  intros F. induction fuel as [|fuel IH]; intros ns; [done|].
  cbn [get_nonlocal_namespace].
  pose proof (resolution_frame_parent h h' ns F) as P.
  destruct F as [L F0].
  destruct (h !! ns) as [N|] eqn:E.
  - destruct (F0 ns N E) as (N' & -> & _ & _ & _ & P' & _). rewrite P'.
    destruct (parent_namespace N) as [p|]; [|done].
    rewrite (resolution_frame_isinstance h h') by done.
    destruct (isinstance_ns h p ClassNamespace); [apply IH|done].
  - apply lookup_ge_None in E. rewrite <- L in E.
    apply lookup_ge_None in E. by rewrite E.
Qed.

Lemma resolve_at_module_again nm m N h r h' :
  h !! m = Some N → ns_kind N = ModuleNamespace →
  resolve_at_module dir_builtins nm m N h = (r, h') →
  ∃ N', h' !! m = Some N' ∧ ns_kind N' = ModuleNamespace ∧
        resolve_at_module dir_builtins nm m N' h' = (r, h').
Proof.
  intros E K. unfold resolve_at_module at 1.
  destruct (list_find (λ b, b_name b = nm) (bindings N)) as [[i b]|] eqn:F.
  - intros [= <- <-]. exists N. split; [done|]. split; [done|].
    unfold resolve_at_module. by rewrite F.
  - assert (∀ b0 (N1 : Namespace) h1,
              b_name b0 = nm → bindings N1 = bindings N →
              ns_kind N1 = ModuleNamespace → h1 !! m = Some N1 →
              ∃ N', alter (append_binding b0) m h1 !! m = Some N' ∧
                    ns_kind N' = ModuleNamespace ∧
                    resolve_at_module dir_builtins nm m N'
                      (alter (append_binding b0) m h1)
                    = ((m, length (bindings N)), alter (append_binding b0) m h1))
      as Hnew.
    { intros b0 N1 h1 Hb HB HK H1. exists (append_binding b0 N1).
      split; [by rewrite list_lookup_alter_eq, H1|]. split; [done|].
      unfold resolve_at_module. cbn [bindings append_binding]. rewrite HB.
      assert (list_find (λ b, b_name b = nm) (bindings N ++ [b0])
              = Some (length (bindings N), b0)) as ->; [|done].
      apply list_find_Some. split; [|split; [done|]].
      - by rewrite lookup_app_r, Nat.sub_diag by done.
      - intros j b Hj Lj. rewrite lookup_app_l in Hj by done.
        apply list_find_None in F. rewrite Forall_forall in F.
        apply F. by eapply list_elem_of_lookup_2. }
    destruct (bool_decide (nm ∈ dir_builtins)).
    + intros [= <- <-].
      destruct (bool_decide (nm ∈ introspecting_builtins)).
      * apply (Hnew _ (set_tainted N)); try done.
        by rewrite list_lookup_alter_eq, E.
      * by apply (Hnew _ N).
    + intros [= <- <-]. by apply (Hnew _ N).
Qed.

(** X4.  Resolving a name a second time, from the same namespace in the heap
    that the first resolution left, returns the same binding and changes
    nothing. *)
Theorem get_binding_again fuel nm ns h r h' :
  get_binding dir_builtins fuel nm ns h = Ok (r, h') →
  get_binding dir_builtins fuel nm ns h' = Ok (r, h').
Proof.
  revert ns h r h'. induction fuel as [|fuel IH]; intros ns h r h' R; [done|].
  pose proof (get_binding_resolution_frame _ _ _ _ _ _ R) as F.
  apply get_binding_inv in R
    as (N & E & [(K & R)|[(K & G & g & Hg & R)|[(K & G & Nl & i & b & Fd & -> & ->)
                |(K & G & D & p & Hp & R)]]]).
  - destruct (resolve_at_module_again nm ns N h r h' E K R) as (N' & E' & K' & R').
    by rewrite (get_binding_module _ _ _ _ _ _ E' K'), R'.
  - destruct (proj2 F ns N E) as (N' & E' & (_&_&_&_&_&_&_&_&_&_&Eq)).
    rewrite (Eq K) in E'.
    rewrite (get_binding_global _ _ _ _ _ _ E' K G).
    rewrite (get_global_namespace_frame h h' F), Hg. by apply (IH g h).
  - by rewrite (get_binding_local _ _ _ _ _ _ _ _ E K G Nl Fd).
  - destruct (proj2 F ns N E) as (N' & E' & (_&_&_&_&_&_&_&_&_&_&Eq)).
    rewrite (Eq K) in E'.
    destruct D as [Nl|Fd].
    + rewrite (get_binding_nonlocal _ _ _ _ _ _ E' K G Nl).
      rewrite (get_nonlocal_namespace_frame h h' F), Hp. by apply (IH p h).
    + destruct (decide (nm ∈ nonlocal_names N)) as [Nl|Nl].
      * rewrite (get_binding_nonlocal _ _ _ _ _ _ E' K G Nl).
        rewrite (get_nonlocal_namespace_frame h h' F), Hp. by apply (IH p h).
      * rewrite (get_binding_enclosing _ _ _ _ _ _ E' K G Nl Fd).
        rewrite (get_nonlocal_namespace_frame h h' F), Hp. by apply (IH p h).
Qed.

Lemma resolve_at_module_owner nm m N h :
  (resolve_at_module dir_builtins nm m N h).1.1 = m.
Proof.
  unfold resolve_at_module.
  destruct (list_find _ (bindings N)) as [[i b]|]; [done|].
  by destruct (bool_decide (nm ∈ dir_builtins)).
Qed.

Lemma chain_unfold h ns N p :
  wf_heap h → h !! ns = Some N → parent_namespace N = Some p →
  enclosing_scopes (length h) h ns = p :: enclosing_scopes (length h) h p.
Proof.
  intros W E P. destruct (wf_heap_parent h ns N p W E P) as (Lt & _ & _).
  apply lookup_lt_Some in E as L.
  destruct (length h) as [|k] eqn:Hk; [lia|].
  rewrite (enclosing_scopes_unfold k h ns N p E P). f_equal.
  apply (enclosing_scopes_fuel h W); lia.
Qed.

Lemma chain_trans h :
  wf_heap h → ∀ ns p, p ∈ enclosing_scopes (length h) h ns →
  enclosing_scopes (length h) h p ⊆ enclosing_scopes (length h) h ns.
Proof.
  intros W ns. induction (lt_wf ns) as [ns _ IH]. intros p Hp.
  destruct (h !! ns) as [N|] eqn:E.
  2:{ destruct (length h); cbn in Hp; [|rewrite E in Hp]; by apply elem_of_nil in Hp. }
  destruct (parent_namespace N) as [q|] eqn:P.
  2:{ destruct (length h); cbn in Hp; [|rewrite E in Hp; cbn in Hp; rewrite P in Hp];
      by apply elem_of_nil in Hp. }
  rewrite (chain_unfold h ns N q W E P) in Hp |- *.
  destruct (wf_heap_parent h ns N q W E P) as (Lt & _ & _).
  apply elem_of_cons in Hp as [->|Hp].
  - intros x Hx. by apply elem_of_cons; right.
  - intros x Hx. apply elem_of_cons; right. by apply (IH q Lt p Hp).
Qed.

Lemma get_global_namespace_chain h :
  wf_heap h → ∀ fuel ns g, get_global_namespace fuel h ns = Ok g →
  isinstance_ns h g ModuleNamespace = true ∧
  (g = ns ∨ g ∈ enclosing_scopes (length h) h ns).
Proof.
  intros W. induction fuel as [|fuel IH]; intros ns g; [done|].
  cbn [get_global_namespace].
  destruct (isinstance_ns h ns ModuleNamespace) eqn:I.
  { intros [= <-]. auto. }
  destruct (h !! ns) as [N|] eqn:E; [|done].
  destruct (parent_namespace N) as [p|] eqn:P; [|done].
  intros R. destruct (IH p g R) as [Ig Hg]. split; [done|]. right.
  rewrite (chain_unfold h ns N p W E P). apply elem_of_cons.
  destruct Hg as [->|Hg]; auto.
Qed.

Lemma get_nonlocal_namespace_chain h :
  wf_heap h → ∀ fuel ns p, get_nonlocal_namespace fuel h ns = Ok (Some p) →
  isinstance_ns h p ClassNamespace = false ∧
  p ∈ enclosing_scopes (length h) h ns.
Proof.
  intros W. induction fuel as [|fuel IH]; intros ns p; [done|].
  cbn [get_nonlocal_namespace].
  destruct (h !! ns) as [N|] eqn:E; [|done].
  destruct (parent_namespace N) as [q|] eqn:P; [|done].
  rewrite (chain_unfold h ns N q W E P).
  destruct (isinstance_ns h q ClassNamespace) eqn:I.
  - intros R. destruct (IH q p R) as [Ip Hp]. split; [done|].
    by apply elem_of_cons; right.
  - intros [= <-]. split; [done|]. by apply elem_of_cons; left.
Qed.

(** X2.  The binding that a resolution returns belongs to the namespace the
    name is used in, or to an enclosing namespace of it that is not a class
    namespace: never to a class that encloses the use, and never to a
    namespace off the chain of enclosing namespaces. *)
Theorem get_binding_owner_encloses fuel nm ns h o i h' :
  wf_heap h →
  get_binding dir_builtins fuel nm ns h = Ok ((o, i), h') →
  o = ns ∨ (o ∈ enclosing_scopes (length h) h ns ∧
            isinstance_ns h o ClassNamespace = false).
Proof.
  intros W. revert ns. induction fuel as [|fuel IH]; intros ns R; [done|].
  assert (∀ p, p ∈ enclosing_scopes (length h) h ns →
               isinstance_ns h p ClassNamespace = false →
               get_binding dir_builtins fuel nm p h = Ok ((o, i), h') →
               o = ns ∨ (o ∈ enclosing_scopes (length h) h ns ∧
                         isinstance_ns h o ClassNamespace = false)) as Up.
  { intros p Hp Ip Rp. right. destruct (IH p Rp) as [->|[Ho Io]]; [done|].
    split; [|done]. by apply (chain_trans h W ns p Hp). }
  apply get_binding_inv in R
    as (N & E & [(K & R)|[(K & G & g & Hg & R)|[(K & G & Nl & j & b & Fd & [= -> ->] & ->)
                |(K & G & D & p & Hp & R)]]]).
  - left. pose proof (resolve_at_module_owner nm ns N h) as Ho.
    by rewrite R in Ho.
  - destruct (get_global_namespace_chain h W fuel ns g Hg) as [Ig [->|Hc]].
    { by apply IH. }
    apply (Up g Hc); [|done]. unfold isinstance_ns in *.
    destruct (h !! g) as [Ng|]; [|done]. by destruct (ns_kind Ng).
  - by left.
  - destruct (get_nonlocal_namespace_chain h W fuel ns p Hp) as [Ip Hc].
    by apply (Up p).
Qed.

Lemma resolution_frame_wf h h' : resolution_frame h h' → wf_heap h → wf_heap h'.
Proof.
  intros [L F] W i N' E'.
  destruct (h !! i) as [N|] eqn:E.
  - destruct (F i N E) as (N2 & E2 & K & _ & _ & P & _).
    rewrite E' in E2. injection E2 as <-. rewrite K, P. by apply (W i N).
  - apply lookup_ge_None in E. apply lookup_lt_Some in E'. lia.
Qed.

(** X1.  In a well-formed namespace tree a resolution never fails and never
    returns nothing: from every namespace and for every name it returns a
    reference to a binding of that name, and it leaves the namespace tree
    well formed, so that the next resolution succeeds as well. *)
Theorem get_binding_returns_binding h nm ns fuel :
  wf_heap h → is_Some (h !! ns) → ns + 1 < fuel →
  ∃ r h' b, get_binding dir_builtins fuel nm ns h = Ok (r, h') ∧
            lookup_binding h' r = Some b ∧ b_name b = nm ∧
            wf_heap h' ∧ is_Some (h' !! ns).
Proof.
  intros W Hs L.
  destruct (get_binding_total dir_builtins h nm W fuel ns Hs L)
    as (o & i & h' & b & R & _ & Hb & Hn).
  exists (o, i), h', b. repeat split; try done.
  - eapply resolution_frame_wf; [|done].
    apply (get_binding_resolution_frame _ _ _ _ _ _ R).
  - destruct Hs as [N E].
    destruct (proj2 (get_binding_resolution_frame _ _ _ _ _ _ R) ns N E) as (N' & -> & _).
    done.
Qed.
End resolution_more.

(** ** Names that are unresolved at module scope *)

Section unresolved.
Variable dir_builtins : list string.



End unresolved.



(** X1 at the method of [nonlocal_in_method]: [len], bound nowhere, is
    resolved. *)
Lemma get_binding_returns_binding_witness :
  ∃ r h' b, get_binding some_builtins 5 "len" 3 nonlocal_in_method_heap = Ok (r, h') ∧
            lookup_binding h' r = Some b ∧ b_name b = "len" ∧
            wf_heap h' ∧ is_Some (h' !! 3).
Proof.
  apply (get_binding_returns_binding some_builtins nonlocal_in_method_heap "len" 3 5).
  - apply wf_heapb_correct. vm_compute. reflexivity.
  - vm_compute. eexists. reflexivity.
  - lia.
Defined.

(** X2 at the method of [nonlocal_in_method]: the owner of [x] is [f], which
    encloses the method and is not a class. *)
Lemma get_binding_owner_encloses_witness :
  1 = 3 ∨ (1 ∈ enclosing_scopes (length nonlocal_in_method_heap) nonlocal_in_method_heap 3 ∧
           isinstance_ns nonlocal_in_method_heap 1 ClassNamespace = false).
Proof.
  apply (get_binding_owner_encloses some_builtins 5 "x" 3 nonlocal_in_method_heap 1 0
           nonlocal_in_method_heap).
  - apply wf_heapb_correct. vm_compute. reflexivity.
  - vm_compute. reflexivity.
Defined.

(** X3 at the method of [nonlocal_in_method], for the name [len]. *)
Lemma get_binding_frame_witness :
  resolution_frame nonlocal_in_method_heap len_in_method_heap ∧
  ∀ r0 b, lookup_binding nonlocal_in_method_heap r0 = Some b →
          lookup_binding len_in_method_heap r0 = Some b.
Proof.
  apply (get_binding_frame some_builtins 5 "len" 3 nonlocal_in_method_heap (0, 1)).
  vm_compute. reflexivity.
Defined.

(** X4 at the method of [nonlocal_in_method], for the name [len]. *)
Lemma get_binding_again_witness :
  get_binding some_builtins 5 "len" 3 len_in_method_heap
  = Ok ((0, 1), len_in_method_heap).
Proof.
  apply (get_binding_again some_builtins 5 "len" 3 nonlocal_in_method_heap).
  vm_compute. reflexivity.
Defined.

(** ** More on the scope tree builder *)

(** X5 at the module namespace of [nonlocal_in_method], for [print]. *)
Lemma builtin_binding_created_once_witness :
  ∃ h', get_binding some_builtins 1 "print" 0 nonlocal_in_method_heap
        = Ok ((0, 1), h') ∧
        lookup_binding h' (0, 1) = Some (new_binding BuiltinBinding "print") ∧
        (∃ N', h' !! 0 = Some N' ∧
               bindings N' = bindings (namespace_at nonlocal_in_method_heap 0)
                             ++ [new_binding BuiltinBinding "print"]) ∧
        ∀ fuel', get_binding some_builtins (S fuel') "print" 0 h' = Ok ((0, 1), h').
Proof.
  apply (builtin_binding_created_once some_builtins nonlocal_in_method_heap 0
           (namespace_at nonlocal_in_method_heap 0) "print" 0).
  - vm_compute. reflexivity.
  - vm_compute. reflexivity.
  - intros b Hb. vm_compute in Hb. apply list_elem_of_singleton in Hb as ->.
    vm_compute. discriminate.
  - apply (bool_decide_unpack _). vm_compute. exact I.
Defined.

(** X6 at [nonlocal_in_method]. *)
Lemma create_all_namespaces_total_witness :
  ∃ module' h N0,
    create_all_namespaces (add_parent nonlocal_in_method None) [] = Ok ((0, module'), h) ∧
    wf_heap h ∧ h !! 0 = Some N0 ∧ ns_kind N0 = ModuleNamespace ∧
    namespace_node N0 = ref_of (add_parent nonlocal_in_method None) ∧
    erase module' = erase (add_parent nonlocal_in_method None) ∧ owned_by 0 module'.
Proof.
  unfold nonlocal_in_method.
  apply (create_all_namespaces_total _ _). vm_compute. reflexivity.
Defined.

(** X7.  The builder creates no binding: after [create_all_namespaces] the
    list of bindings of every namespace is empty. *)
Theorem create_all_namespaces_adds_no_binding a body r h :
  typed (Module a body) →
  create_all_namespaces (add_parent (Module a body) None) [] = Ok (r, h) →
  ∀ i N, h !! i = Some N → bindings N = [].
Proof.
  intros Ht. set (module := add_parent (Module a body) None).
  pose proof (tree_ok_add_parent_module a body Ht) as Hok. fold module in Hok.
  unfold create_all_namespaces.
  assert (ModuleNamespace_init (ref_of module)
          = Some (Namespace_init ModuleNamespace (ref_of module) EmptyString)) as -> by done.
  unfold bind at 1, alloc. cbn [length app].
  set (N0 := Namespace_init ModuleNamespace (ref_of module) EmptyString).
  destruct (create_child_namespaces_spec (S (height module)) module 0 [N0])
    as (module' & h1 & R & (_ & _ & X) & _); [lia|done|cbn; lia|].
  unfold bind. rewrite R. cbn [ret]. intros [= _ <-] i N E.
  destruct X as (_ & St & Fr). destruct i as [|i].
  - destruct (St 0 N0 eq_refl) as (N' & E' & (_&_&_&_&B&_)).
    rewrite E in E'. injection E' as <-. by rewrite B.
  - destruct (Fr (S i) N E) as (_ & _ & B); [cbn; lia|done].
Qed.

Lemma create_all_namespaces_adds_no_binding_witness :
  Forall (λ N, bindings N = []) (built_heap classmethod_example).
Proof.
  apply Forall_lookup_2. intros i N.
  apply (create_all_namespaces_adds_no_binding (attrs_of classmethod_example)
           (child_nodes classmethod_example) (0, built_tree classmethod_example)).
  - vm_compute. reflexivity.
  - vm_compute. reflexivity.
Defined.

(** X8.  [create_all_namespaces] asserts that its argument is a [Module]: on
    a node of another class it raises [AssertionError], whatever the heap,
    before any namespace is created. *)
Theorem create_all_namespaces_asserts_module n h :
  class_name n ≠ "Module" → create_all_namespaces n h = Raise AssertionError.
Proof.
  intros C. unfold create_all_namespaces, ModuleNamespace_init.
  by rewrite decide_False.
Qed.

Lemma create_all_namespaces_asserts_module_witness :
  create_all_namespaces (Name (fresh_attrs 0 1) "x" Load) []
  = Raise AssertionError.
Proof. apply create_all_namespaces_asserts_module. vm_compute. discriminate. Defined.

(** X9.  A function definition, lambda or class definition without type
    parameters gets one namespace, a child of the enclosing namespace [ns].
    The parameters and the body are annotated with the new namespace; the
    annotations and defaults of the parameters, the return annotation, the
    decorators, and the bases and keywords of a class, with [ns]. *)
Theorem definition_scope fuel node ns h :
  is_definition node = true → type_params_of node = [] →
  height node < fuel → tree_ok node → ns < length h →
  ∃ node' h' N,
    create_child_namespaces fuel node ns h = Ok (node', h') ∧
    h' !! length h = Some N ∧
    introduced_by (ref_of node) (scope_class node) ns N ∧
    owned_by ns node' ∧ erase node' = erase node ∧
    definition_assigned (length h) ns node'.
Proof.
  intros Hd Hp Hh Ht L.
  destruct (create_child_namespaces_spec fuel node ns h Hh Ht L)
    as (node' & h' & R & (E & O & X) & A & S).
  assert (introduces_scope node = true) as Hi by by destruct node.
  specialize (S Hi).
  assert (type_params_of node' = []) as Hp'.
  { pose proof (f_equal type_params_of E) as Et.
    rewrite !type_params_of_erase, Hp in Et. by apply fmap_nil_inv in Et. }
  assert (is_definition node' = true) as Hd'.
  { rewrite <- Hd. rewrite (erase_unfold node), (erase_unfold node') in E.
    by destruct node, node'. }
  pose proof (scope_class_erase_eq _ _ E) as Hc.
  exists node', h'.
  destruct node'; try done; cbn in S, Hp', Hc; rewrite <- Hc.
  - destruct S as (F & St & Ha & Hb & Hdec & Hr). subst type_params.
    destruct St as (-> & N & HN & IN). exists N.
    repeat split; try done; apply IN.
  - destruct S as (F & St & Ha & Hb).
    destruct St as (-> & N & HN & IN). exists N.
    repeat split; try done; apply IN.
  - destruct S as (C & St & Hba & Hk & Hb & Hdec). subst type_params.
    destruct St as (-> & N & HN & IN). exists N.
    repeat split; try done; apply IN.
Qed.

(** X9 at [lambda_example], in a module namespace. *)
Lemma definition_scope_witness :
  ∃ node' h' N,
    create_child_namespaces 4 lambda_example 0 eval_module_heap = Ok (node', h') ∧
    h' !! length eval_module_heap = Some N ∧
    introduced_by (ref_of lambda_example) (scope_class lambda_example) 0 N ∧
    owned_by 0 node' ∧ erase node' = erase lambda_example ∧
    definition_assigned (length eval_module_heap) 0 node'.
Proof.
  apply (definition_scope 4 lambda_example 0 eval_module_heap).
  - reflexivity.
  - reflexivity.
  - vm_compute. lia.
  - vm_compute. reflexivity.
  - vm_compute. lia.
Defined.

Section statements.
Variable dir_builtins : list string.

(** X10.  A [global] statement adds its names to the declared-global set of
    the namespace it is in and changes nothing else; from then on each of
    these names, used in that namespace, resolves to a binding of the module
    namespace. *)
Theorem global_statement_resolves_in_module fuel a names ns h N nm :
  wf_heap h → h !! ns = Some N → ns_kind N ≠ ModuleNamespace → nm ∈ names →
  let h' := alter (update_global_names names) ns h in
  create_child_namespaces (S fuel) (Global a names) ns h
    = Ok (set_namespace ns (Global a names), h') ∧
  h' !! ns = Some (update_global_names names N) ∧
  (∀ i, i ≠ ns → h' !! i = h !! i) ∧
  ∀ fuel', ns < fuel' →
    owner_of (get_binding dir_builtins (S fuel') nm ns h') = Some 0.
Proof.
  intros W E K Hn h'.
  assert (h' !! ns = Some (update_global_names names N)) as E'.
  { unfold h'. by rewrite list_lookup_alter_eq, E. }
  assert (wf_heap h') as W'.
  { apply (heap_ext_wf h h' W), heap_ext_alter, stable_update_global_names. }
  split; [done|]. split; [done|]. split.
  { intros i Hi. unfold h'. by rewrite list_lookup_alter_ne. }
  intros fuel' L.
  assert (nm ∈ global_names (update_global_names names N)) as G.
  { cbn. apply elem_of_union_r, elem_of_list_to_set. done. }
  rewrite (get_binding_global _ _ _ _ _ _ E' K G).
  rewrite get_global_namespace_root by eauto.
  destruct (wf_heap_root h' ns _ W' E') as [N0 E0].
  pose proof (wf_heap_root_module h' N0 W' E0) as K0.
  destruct fuel' as [|fuel']; [lia|].
  rewrite (get_binding_module _ _ _ _ _ _ E0 K0).
  pose proof (resolve_at_module_owner dir_builtins nm 0 N0 h') as Ho.
  destruct (resolve_at_module dir_builtins nm 0 N0 h') as [[o i] h''].
  cbn in Ho. cbn. by rewrite Ho.
Qed.

(** X11.  A [nonlocal] statement adds its names to the declared-nonlocal set
    of the namespace it is in and changes nothing else; from then on each of
    these names that is not declared global there is resolved from the
    nearest enclosing namespace that is not a class namespace. *)
Theorem nonlocal_statement_resolves_outside fuel a names ns h N nm :
  wf_heap h → h !! ns = Some N → ns_kind N ≠ ModuleNamespace → nm ∈ names →
  nm ∉ global_names N →
  let h' := alter (update_nonlocal_names names) ns h in
  create_child_namespaces (S fuel) (Nonlocal a names) ns h
    = Ok (set_namespace ns (Nonlocal a names), h') ∧
  h' !! ns = Some (update_nonlocal_names names N) ∧
  (∀ i, i ≠ ns → h' !! i = h !! i) ∧
  ∃ p, nearest_enclosing_non_class h' ns = Some p ∧ p < ns ∧
       isinstance_ns h' p ClassNamespace = false ∧
       ∀ fuel', ns < fuel' →
         get_binding dir_builtins (S fuel') nm ns h'
         = get_binding dir_builtins fuel' nm p h'.
Proof.
  intros W E K Hn G h'.
  assert (h' !! ns = Some (update_nonlocal_names names N)) as E'.
  { unfold h'. by rewrite list_lookup_alter_eq, E. }
  assert (wf_heap h') as W'.
  { apply (heap_ext_wf h h' W), heap_ext_alter, stable_update_nonlocal_names. }
  split; [done|]. split; [done|]. split.
  { intros i Hi. unfold h'. by rewrite list_lookup_alter_ne. }
  destruct (nearest_enclosing_non_class_is_Some h' ns _ W' E' K) as [p P].
  destruct (nearest_enclosing_non_class_Some h' ns p W' P) as (Lp & Sp & Cp).
  exists p. repeat split; [done..|]. intros fuel' L.
  assert (nm ∈ nonlocal_names (update_nonlocal_names names N)) as Nl.
  { cbn. apply elem_of_union_r, elem_of_list_to_set. done. }
  rewrite (get_binding_nonlocal _ _ _ _ _ _ E' K G Nl).
  by rewrite get_nonlocal_namespace_nearest, P by eauto.
Qed.

(** X12.  Outside a class namespace a name changes no namespace: the builder
    only annotates the node. *)
Theorem name_outside_class_changes_nothing fuel a i c ns h :
  isinstance_ns h ns ClassNamespace = false →
  create_child_namespaces (S fuel) (Name a i c) ns h
  = Ok (set_namespace ns (Name a i c), h).
Proof.
  intros I. cbn. unfold bind at 1, get_heap. by rewrite I.
Qed.

(** X13.  The builder reads the attribute [parent] of a name that is
    written to in a class namespace, so it depends on the Parent Linker: on
    a node without a parent it raises [AttributeError]. *)
Theorem store_name_in_class_needs_parent fuel a i ns h :
  isinstance_ns h ns ClassNamespace = true → parent a = None →
  create_child_namespaces (S fuel) (Name a i Store) ns h
  = Raise (AttributeError "parent").
Proof.
  intros I P. cbn. unfold bind at 1, get_heap. by rewrite I, P.
Qed.
End statements.

(** X10 at the class of [class_heap], which binds [count]: after
    [global count] the name resolves in the module namespace. *)
Lemma global_statement_resolves_in_module_witness :
  owner_of (get_binding some_builtins 3 "count" 1
              (alter (update_global_names ["count"]) 1 class_heap)) = Some 0.
Proof.
  destruct (global_statement_resolves_in_module some_builtins 0 (fresh_attrs 9 1)
              ["count"] 1 class_heap (namespace_at class_heap 1) "count")
    as (_ & _ & _ & R).
  - apply wf_heapb_correct. vm_compute. reflexivity.
  - vm_compute. reflexivity.
  - vm_compute. discriminate.
  - apply (bool_decide_unpack _). vm_compute. exact I.
  - apply (R 2). lia.
Defined.

(** X11 at the method of [nonlocal_in_method]. *)
Lemma nonlocal_statement_resolves_outside_witness :
  ∃ p, nearest_enclosing_non_class
         (alter (update_nonlocal_names ["x"]) 3 nonlocal_in_method_heap) 3 = Some p ∧
       p < 3 ∧
       isinstance_ns (alter (update_nonlocal_names ["x"]) 3 nonlocal_in_method_heap)
         p ClassNamespace = false ∧
       ∀ fuel', 3 < fuel' →
         get_binding some_builtins (S fuel') "x" 3
           (alter (update_nonlocal_names ["x"]) 3 nonlocal_in_method_heap)
         = get_binding some_builtins fuel' "x" p
             (alter (update_nonlocal_names ["x"]) 3 nonlocal_in_method_heap).
Proof.
  destruct (nonlocal_statement_resolves_outside some_builtins 0 (fresh_attrs 13 6)
              ["x"] 3 nonlocal_in_method_heap
              (namespace_at nonlocal_in_method_heap 3) "x")
    as (_ & _ & _ & R).
  - apply wf_heapb_correct. vm_compute. reflexivity.
  - vm_compute. reflexivity.
  - vm_compute. discriminate.
  - apply (bool_decide_unpack _). vm_compute. exact I.
  - vm_compute. discriminate.
  - exact R.
Defined.

(** X12 in the module namespace of [class_heap]. *)
Lemma name_outside_class_changes_nothing_witness :
  create_child_namespaces 1 (Name (fresh_attrs 5 1) "count" Load) 0 class_heap
  = Ok (set_namespace 0 (Name (fresh_attrs 5 1) "count" Load), class_heap).
Proof.
  apply (name_outside_class_changes_nothing 0). vm_compute. reflexivity.
Defined.

(** X13 in the class namespace of [class_heap]. *)
Lemma store_name_in_class_needs_parent_witness :
  create_child_namespaces 1 (Name (fresh_attrs 5 1) "count" Store) 1 class_heap
  = Raise (AttributeError "parent").
Proof.
  apply (store_name_in_class_needs_parent 0).
  - vm_compute. reflexivity.
  - reflexivity.
Defined.

(** ** More on the Parent Linker *)

Lemma fmap_option_ext_Forall (f g : ast → ast) (o : option ast) :
  Forall (λ c, f c = g c) (option_list o) → f <$> o = g <$> o.
Proof. destruct o as [x|]; [|done]. intros H%Forall_inv. cbn. by rewrite H. Qed.

Lemma fmap_options_ext_Forall (f g : ast → ast) (l : list (option ast)) :
  Forall (λ c, f c = g c) (omap (λ x : option ast, x) l) →
  (λ o : option ast, f <$> o) <$> l = (λ o : option ast, g <$> o) <$> l.
Proof.
  induction l as [|[x|] l IH]; cbn; [done| |].
  - intros [H Hl]%Forall_cons. by rewrite H, IH.
  - intros Hl. by rewrite IH.
Qed.

Lemma map_children_ext f g n :
  Forall (λ c, f c = g c) (child_nodes n) → map_children f n = map_children g n.
Proof.
  destruct n; cbn; rewrite ?Forall_app, ?Forall_cons; intros H; destruct_and?;
    f_equal;
    auto using fmap_option_ext_Forall, fmap_options_ext_Forall, Forall_fmap_ext_1.
Qed.

Lemma map_children_compose f g n :
  map_children f (map_children g n) = map_children (f ∘ g) n.
Proof.
  destruct n; cbn; rewrite <- ?list_fmap_compose, <- ?option_fmap_compose; try done.
  f_equal. apply list_fmap_ext. intros _ [x|] _; done.
Qed.

Lemma map_children_with_attrs f g n :
  map_children f (with_attrs g n) = with_attrs g (map_children f n).
Proof. by destruct n. Qed.

Lemma with_attrs_compose f g n :
  with_attrs f (with_attrs g n) = with_attrs (f ∘ g) n.
Proof. by destruct n. Qed.

Lemma attrs_of_with_attrs f n : attrs_of (with_attrs f n) = f (attrs_of n).
Proof. by destruct n. Qed.

Lemma attrs_of_map_children f n : attrs_of (map_children f n) = attrs_of n.
Proof. by destruct n. Qed.

Lemma ref_of_add_parent n p : ref_of (add_parent n p) = ref_of n.
Proof.
  rewrite add_parent_unfold. cbv zeta.
  by destruct p, n as [| ? [] | | | ? [] | | | | | | | | |].
Qed.

Lemma strip_parents_unfold n :
  strip_parents n = with_attrs clear_parent (map_children strip_parents n).
Proof. by destruct n. Qed.

Lemma add_parent_links_aux n p :
  parents_linked (add_parent n p) ∧
  parent (attrs_of (add_parent n p))
  = match p with Some q => Some q | None => parent (attrs_of n) end.
Proof.
  split.
  - revert p. induction n as [n IH] using ast_child_ind. intros p.
    unfold parents_linked. rewrite nodes_unfold. apply Forall_cons. split.
    + rewrite child_nodes_add_parent, ref_of_add_parent, Forall_fmap.
      apply Forall_true. intros c. cbn. rewrite add_parent_unfold. cbv zeta.
      unfold set_parent. by rewrite attrs_of_with_attrs.
    + apply Forall_concat. rewrite child_nodes_add_parent, !Forall_fmap.
      eapply Forall_impl; [exact IH|]. intros c Hc. apply Hc.
  - rewrite add_parent_unfold. cbv zeta. destruct p as [q|].
    + unfold set_parent. by rewrite attrs_of_with_attrs.
    + by rewrite attrs_of_map_children.
Qed.

(** X14.  After [add_parent] every child node of every node of the tree that
    is an object of its own has that node as its [parent]; the root has the
    parent that was passed, and keeps what it had when none was passed.  The
    shared context and operator objects, which [add_parent] is called on as
    well, are not child nodes in this sense ([child_nodes]): their [parent]
    is assigned at every node that refers to them. *)
Theorem add_parent_links n p :
  parents_linked (add_parent n p) ∧
  parent (attrs_of (add_parent n p))
  = match p with Some q => Some q | None => parent (attrs_of n) end.
Proof. apply add_parent_links_aux. Qed.

(** X15.  [add_parent] changes nothing but [parent] attributes: with these
    erased, the tree is what it was. *)
Theorem add_parent_only_sets_parent n p :
  strip_parents (add_parent n p) = strip_parents n.
Proof.
  revert p. induction n as [n IH] using ast_child_ind. intros p.
  rewrite (strip_parents_unfold n), strip_parents_unfold, add_parent_unfold.
  cbv zeta.
  assert (map_children strip_parents
            (map_children (λ child, add_parent child (Some (ref_of n))) n)
          = map_children strip_parents n) as Hc.
  { rewrite map_children_compose. apply map_children_ext.
    eapply Forall_impl; [exact IH|]. intros c Hc. apply Hc. }
  destruct p as [q|].
  - unfold set_parent. rewrite map_children_with_attrs, with_attrs_compose, Hc.
    by destruct n.
  - by rewrite Hc.
Qed.

(** X16.  Running [add_parent] a second time changes nothing. *)
Theorem add_parent_idempotent n p :
  add_parent (add_parent n p) p = add_parent n p.
Proof.
  revert p. induction n as [n IH] using ast_child_ind. intros p.
  rewrite (add_parent_unfold (add_parent n p)), ref_of_add_parent.
  rewrite (add_parent_unfold n). cbv zeta.
  set (F := λ child, add_parent child (Some (ref_of n))).
  assert (map_children F (map_children F n) = map_children F n) as Hc.
  { rewrite map_children_compose. apply map_children_ext.
    eapply Forall_impl; [exact IH|]. intros c Hc. apply Hc. }
  destruct p as [q|].
  - unfold set_parent. rewrite map_children_with_attrs, with_attrs_compose, Hc.
    by destruct n.
  - by rewrite Hc.
Qed.

Lemma attrs_of_erase n : attrs_of (erase n) = clear_namespace (attrs_of n).
Proof. by destruct n. Qed.

(** X17.  [SuiteTransformer.add_child] links a new subtree into a tree whose
    namespaces are built: the result is the subtree after [add_parent], with
    namespaces assigned; its root has [parent] as its parent and is
    annotated with the namespace of [parent]; the namespace tree is
    extended and stays well formed. *)
Theorem add_child_links_and_builds child parent_node ns h :
  typed child → namespace_of parent_node = Some ns → ns < length h →
  ∃ child' h',
    SuiteTransformer_add_child child parent_node h = Ok (child', h') ∧
    erase child' = erase (add_parent child (Some (ref_of parent_node))) ∧
    parent (attrs_of child') = Some (ref_of parent_node) ∧
    owned_by ns child' ∧
    heap_ext h h' ∧ (wf_heap h → wf_heap h').
Proof.
  intros Ht Hns L. unfold SuiteTransformer_add_child. rewrite Hns.
  set (c := add_parent child (Some (ref_of parent_node))).
  destruct (create_child_namespaces_spec (S (height c)) c ns h)
    as (child' & h' & R & (E & O & X) & _);
    [lia | by apply tree_ok_add_parent | done |].
  exists child', h'. split; [done|]. split; [done|].
  split; [|split; [done|split; [done|]]].
  - pose proof (f_equal (λ n, parent (attrs_of n)) E) as Hp. cbn in Hp.
    rewrite !attrs_of_erase in Hp. cbn in Hp. rewrite Hp.
    apply (proj2 (add_parent_links_aux child (Some (ref_of parent_node)))).
  - intros W. by apply (heap_ext_wf h h').
Qed.

(** X17 at [print_statement], added to the body of the module of
    [classmethod_example]. *)
Lemma add_child_links_and_builds_witness :
  ∃ child' h',
    SuiteTransformer_add_child print_statement (built_tree classmethod_example)
      (built_heap classmethod_example) = Ok (child', h') ∧
    erase child'
    = erase (add_parent print_statement
               (Some (ref_of (built_tree classmethod_example)))) ∧
    parent (attrs_of child') = Some (ref_of (built_tree classmethod_example)) ∧
    owned_by 0 child' ∧
    heap_ext (built_heap classmethod_example) h' ∧
    (wf_heap (built_heap classmethod_example) → wf_heap h').
Proof.
  apply (add_child_links_and_builds print_statement
           (built_tree classmethod_example) 0 (built_heap classmethod_example)).
  - vm_compute. reflexivity.
  - vm_compute. reflexivity.
  - vm_compute. lia.
Defined.

(** ** More on [arg_rename_in_place] *)

(** X18.  A variadic parameter ([*args], [**kwargs]) and a position-only
    parameter of a function or lambda can always be renamed in place, in
    whatever namespace the function is defined and whatever its
    decorators. *)
Theorem variadic_or_position_only_is_eligible
    tree node h ns N func_node fns po ar va kw :
  namespace_of node = Some ns → h !! ns = Some N →
  find_node (ref_id (namespace_node N)) tree = Some func_node →
  namespace_of func_node = Some fns →
  signature func_node = Some (po, ar, va, kw) →
  variadic_or_position_only po va kw node = true →
  arg_rename_in_place tree node h = Ok (true, h).
Proof.
  intros Hns HN Hf Hfns Hs Hv.
  destruct (arg_rename_in_place_eq tree node h ns N func_node fns po ar va kw)
    as (b & R & Ht & _); try done.
  by rewrite R, (Ht Hv).
Qed.

(** X19.  A parameter that can be passed by keyword is not renamed in place:
    for a parameter that is neither variadic nor position-only, and is not
    the first parameter of a named function defined in a class namespace,
    [arg_rename_in_place] returns false.  This holds in particular for every
    such parameter of a lambda. *)
Theorem keyword_parameter_is_not_eligible
    tree node h ns N func_node fns po ar va kw :
  namespace_of node = Some ns → h !! ns = Some N →
  find_node (ref_id (namespace_node N)) tree = Some func_node →
  namespace_of func_node = Some fns →
  signature func_node = Some (po, ar, va, kw) →
  variadic_or_position_only po va kw node = false →
  first_of_method h func_node ar node = false →
  arg_rename_in_place tree node h = Ok (false, h).
Proof.
  intros Hns HN Hf Hfns Hs Hv Hm.
  destruct (arg_rename_in_place_eq tree node h ns N func_node fns po ar va kw)
    as (b & R & _ & Hfalse); try done.
  by rewrite R, (Hfalse Hv Hm).
Qed.

(** X18 at [*rest] of the method [b] of [classmethod_example]. *)
Lemma variadic_or_position_only_is_eligible_witness :
  arg_rename_in_place (built_tree classmethod_example)
    (node_at (built_tree classmethod_example) 6) (built_heap classmethod_example)
  = Ok (true, built_heap classmethod_example).
Proof.
  eapply (variadic_or_position_only_is_eligible
            (built_tree classmethod_example)
            (node_at (built_tree classmethod_example) 6)
            (built_heap classmethod_example) 2
            (namespace_at (built_heap classmethod_example) 2)
            (node_at (built_tree classmethod_example) 2) 1).
  - vm_compute. reflexivity.
  - vm_compute. reflexivity.
  - vm_compute. reflexivity.
  - vm_compute. reflexivity.
  - vm_compute. reflexivity.
  - vm_compute. reflexivity.
Defined.

(** X19 at the parameter [x] of the method [b] of [classmethod_example]. *)
Lemma keyword_parameter_is_not_eligible_witness :
  arg_rename_in_place (built_tree classmethod_example)
    (node_at (built_tree classmethod_example) 5) (built_heap classmethod_example)
  = Ok (false, built_heap classmethod_example).
Proof.
  eapply (keyword_parameter_is_not_eligible
            (built_tree classmethod_example)
            (node_at (built_tree classmethod_example) 5)
            (built_heap classmethod_example) 2
            (namespace_at (built_heap classmethod_example) 2)
            (node_at (built_tree classmethod_example) 2) 1).
  - vm_compute. reflexivity.
  - vm_compute. reflexivity.
  - vm_compute. reflexivity.
  - vm_compute. reflexivity.
  - vm_compute. reflexivity.
  - vm_compute. reflexivity.
  - vm_compute. reflexivity.
Defined.

(** ** More on the visitors *)

(** X20.  For a constant whose value is of a known type [visit_Constant]
    never raises: it calls the method of the visitor for the kind of the
    value, and [generic_visit] when the visitor has no such method. *)
Theorem visit_Constant_known_value {R}
    (getattr_self : string → option (ast → result R))
    (generic_visit : ast → result R) (a : attrs) (v : constant_value) :
  (∀ t, v ≠ VOther t) →
  ∃ method,
    visit_Constant_method v = Ok method ∧
    method ∈ ["visit_NameConstant"; "visit_Num"; "visit_Str"; "visit_Bytes";
              "visit_Ellipsis"] ∧
    visit_Constant getattr_self generic_visit (Constant a v)
    = default generic_visit (getattr_self method) (Constant a v).
Proof.
  intros Hv. unfold visit_Constant, visit_Constant_method.
  destruct (in_None_True_False v) eqn:E.
  { eexists. split; [reflexivity|]. split; [|reflexivity]. set_solver. }
  destruct v as [| | | | | | | |t|t []]; try discriminate E;
    try (eexists; split; [reflexivity|]; split; [set_solver|reflexivity]).
  by destruct (Hv t).
Qed.

Lemma visit_Constant_known_value_witness :
  ∃ method,
    visit_Constant_method (VStr "doc") = Ok method ∧
    method ∈ ["visit_NameConstant"; "visit_Num"; "visit_Str"; "visit_Bytes";
              "visit_Ellipsis"] ∧
    visit_Constant (λ _, None) (λ _, Ok tt) (Constant (fresh_attrs 0 1) (VStr "doc"))
    = default (λ _, Ok tt) ((λ _ : string, @None (ast → result unit)) method)
        (Constant (fresh_attrs 0 1) (VStr "doc")).
Proof.
  apply (visit_Constant_known_value (λ _, None) (λ _, Ok tt) (fresh_attrs 0 1)
           (VStr "doc")).
  intros t. discriminate.
Defined.

(** X21.  The test [node.value in [None, True, False]] compares by equality,
    under which 0 and 1 equal [False] and [True]: the integer constants 0
    and 1 are dispatched to [visit_NameConstant], every other integer to
    [visit_Num]. *)
Theorem integer_constant_dispatch {R}
    (getattr_self : string → option (ast → result R))
    (generic_visit : ast → result R) (a : attrs) (z : Z) :
  visit_Constant getattr_self generic_visit (Constant a (VInt z))
  = default generic_visit
      (getattr_self (if bool_decide (z = 0 ∨ z = 1)%Z
                     then "visit_NameConstant" else "visit_Num"))
      (Constant a (VInt z)).
Proof.
  unfold visit_Constant, visit_Constant_method, in_None_True_False.
  destruct (Z.eqb_spec z 1) as [->|H1]; [done|].
  destruct (Z.eqb_spec z 0) as [->|H0]; [done|].
  cbn [orb]. rewrite bool_decide_eq_false_2; [done|]. by intros [?|?].
Qed.

Lemma head_omap_app {A B} (f : A → option B) (l1 l2 : list A) :
  head (omap f (l1 ++ l2))
  = match head (omap f l1) with Some x => Some x | None => head (omap f l2) end.
Proof. rewrite omap_app. by destruct (omap f l1). Qed.

Lemma visit_each_first_failure visit (l : list ast) :
  Forall (λ c, visit c = match head (omap visit_failure (nodes c)) with
                         | Some e => Raise e
                         | None => Ok tt
                         end) l →
  visit_each visit l
  = match head (omap visit_failure (concat (nodes <$> l))) with
    | Some e => Raise e
    | None => Ok tt
    end.
Proof.
  induction 1 as [|c l Hc Hl IH]; [done|].
  cbn [visit_each fmap list_fmap concat]. rewrite head_omap_app, Hc.
  by destruct (head (omap visit_failure (nodes c))).
Qed.

(** X22.  The traversal of [NodeVisitor] visits the nodes in pre-order and
    stops at the first [Constant] node at which [visit_Constant] raises,
    with that error; a tree without such a node is traversed to the end.
    [visit_Constant] raises at a value of an unknown type that is equal to
    none of [None], [True], [False] and [Ellipsis] (C9, X20). *)
Theorem NodeVisitor_visit_first_failure fuel n :
  height n < fuel →
  NodeVisitor_visit fuel n
  = match head (omap visit_failure (nodes n)) with
    | Some e => Raise e
    | None => Ok tt
    end.
Proof.
  revert n. induction fuel as [|fuel IH]; intros n Hh; [lia|].
  assert (visit_each (NodeVisitor_visit fuel) (child_nodes n)
          = match head (omap visit_failure (concat (nodes <$> child_nodes n))) with
            | Some e => Raise e
            | None => Ok tt
            end) as Hg.
  { apply visit_each_first_failure, Forall_forall. intros c Hc.
    apply IH. pose proof (height_child n c Hc). lia. }
  cbn [NodeVisitor_visit]. rewrite nodes_unfold. cbn [omap list_omap].
  destruct (bool_decide (class_name n = "Constant")) eqn:Hcl.
  - apply bool_decide_eq_true in Hcl.
    destruct n as [| ? [] | | | ? [] | | | | | | | |a v|a cls fs]; try done.
    + unfold visit_failure at 1. cbn.
      by destruct (visit_Constant_method v) as [m|e].
    + cbn in Hcl. subst cls. unfold visit_failure at 1. by cbn.
  - unfold visit_failure at 1. rewrite Hcl. exact Hg.
Qed.

(** X22 at [folded_tuple_example]: the traversal passes the [Fraction] and
    stops at the tuple. *)
Lemma NodeVisitor_visit_first_failure_witness :
  NodeVisitor_visit 4 folded_tuple_example
  = Raise (RuntimeError "Unknown Constant value <class 'tuple'>").
Proof.
  rewrite (NodeVisitor_visit_first_failure 4 folded_tuple_example).
  - vm_compute. reflexivity.
  - vm_compute. lia.
Defined.

(** ** [insert] *)

Lemma insert_from_inserted {A} (stays_first : A → bool) suite new_node :
  insert_from stays_first true suite new_node = suite.
Proof. induction suite as [|node suite IH]; [done|]. cbn. by rewrite IH. Qed.

(** X23.  [insert] yields every node of the suite, in order, and the new
    node once: after the longest run of leading nodes that pass the test
    (docstrings and [from __future__] imports) and before the first node
    that does not. *)
Theorem insert_after_prologue {A} (stays_first : A → bool) suite new_node :
  ∃ prologue rest,
    suite = prologue ++ rest ∧
    insert stays_first suite new_node = prologue ++ new_node :: rest ∧
    Forall (λ node, stays_first node = true) prologue ∧
    ∀ node, head rest = Some node → stays_first node = false.
Proof.
  unfold insert. induction suite as [|node suite IH].
  - exists [], []. by repeat split.
  - cbn [insert_from negb]. destruct (stays_first node) eqn:E.
    + destruct IH as (prologue & rest & -> & -> & Hp & Hr).
      exists (node :: prologue), rest. repeat split; [by constructor | done].
    + exists [], (node :: suite). rewrite insert_from_inserted.
      repeat split; [constructor|]. by intros ? [= <-].
Qed.

(** ** The renaming options *)

Lemma apply_rename_option_flag rename preserve b :
  b_class (apply_rename_option rename preserve b) = b_class b ∧
  b_name (apply_rename_option rename preserve b) = b_name b ∧
  references (apply_rename_option rename preserve b) = references b ∧
  allow_rename (apply_rename_option rename preserve b)
  = allow_rename b && rename && negb (bool_decide (b_name b ∈ preserve)).
Proof.
  unfold apply_rename_option.
  destruct rename, (bool_decide (b_name b ∈ preserve)), b as [c n [] r]; done.
Qed.

Lemma apply_rename_option_idemp rename preserve b :
  apply_rename_option rename preserve (apply_rename_option rename preserve b)
  = apply_rename_option rename preserve b.
Proof.
  unfold apply_rename_option.
  destruct rename, (bool_decide (b_name b ∈ preserve)) eqn:E; cbn; rewrite ?E; done.
Qed.

(** X24.  [apply_global_rename_options] changes only the bindings of the
    module namespace, and of these only the rename-allowed flag: the
    bindings stay in place with their names and references, and the flag of
    a binding stays on exactly when it was on, [rename_globals] is true and
    the name is neither in [preserve_globals] nor in [__all__].  The list
    [preserve_globals] is extended by the names of [__all__]. *)
Theorem apply_global_rename_options_flags
    all_names m rename_globals preserve_globals h N :
  h !! m = Some N →
  let preserve := default [] preserve_globals ++ all_names in
  let N' := rename_options_applied rename_globals preserve N in
  apply_global_rename_options all_names m rename_globals preserve_globals h
  = Ok (preserve, <[m := N']> h) ∧
  set_bindings (bindings N) N' = N ∧
  length (bindings N') = length (bindings N) ∧
  ∀ i b, bindings N !! i = Some b →
    ∃ b', bindings N' !! i = Some b' ∧
          b_class b' = b_class b ∧ b_name b' = b_name b ∧
          references b' = references b ∧
          allow_rename b'
          = allow_rename b && rename_globals
            && negb (bool_decide (b_name b ∈ preserve)).
Proof.
  intros E preserve N'. split; [|split; [|split]].
  - unfold apply_global_rename_options, bind at 1, get_heap. rewrite E.
    unfold bind, modify, ret. do 2 f_equal.
    apply list_eq. intros j. destruct (decide (j = m)) as [->|Ne].
    + rewrite list_lookup_alter_eq, E, list_lookup_insert_eq; [done|].
      by eapply lookup_lt_Some.
    + by rewrite list_lookup_alter_ne, list_lookup_insert_ne.
  - by destruct N.
  - cbn. by rewrite length_fmap.
  - intros i b Hb. exists (apply_rename_option rename_globals preserve b).
    split; [cbn; by rewrite list_lookup_fmap, Hb|].
    apply apply_rename_option_flag.
Qed.

(** X24 at [global_shadow_heap], with [x] preserved. *)
Lemma apply_global_rename_options_flags_witness :
  apply_global_rename_options [] 0 true (Some ["x"]) global_shadow_heap
  = Ok (["x"],
        <[0 := rename_options_applied true ["x"]
                 (namespace_at global_shadow_heap 0)]> global_shadow_heap) ∧
  allow_rename <$> bindings (rename_options_applied true ["x"]
                               (namespace_at global_shadow_heap 0))
  = [false; true].
Proof.
  destruct (apply_global_rename_options_flags [] 0 true (Some ["x"])
              global_shadow_heap (namespace_at global_shadow_heap 0))
    as (R & _).
  - vm_compute. reflexivity.
  - split; [exact R|]. vm_compute. reflexivity.
Defined.

Section local_options.
Variable rename : bool.
Variable preserve : list string.

Lemma local_options_applied_idemp N :
  local_options_applied rename preserve (local_options_applied rename preserve N)
  = local_options_applied rename preserve N.
Proof.
  unfold local_options_applied.
  destruct (bool_decide (ns_kind N = ModuleNamespace)) eqn:K; [by rewrite K|].
  cbn [rename_options_applied set_bindings ns_kind]. rewrite K.
  unfold rename_options_applied, set_bindings. cbn. f_equal.
  rewrite <- list_fmap_compose. apply list_fmap_ext. intros i b _.
  apply apply_rename_option_idemp.
Qed.

Lemma local_options_applied_fields N :
  ns_kind (local_options_applied rename preserve N) = ns_kind N ∧
  children (local_options_applied rename preserve N) = children N ∧
  parent_namespace (local_options_applied rename preserve N) = parent_namespace N.
Proof.
  unfold local_options_applied.
  by destruct (bool_decide (ns_kind N = ModuleNamespace)).
Qed.

Lemma options_step_refl h : options_step rename preserve h h.
Proof. split; [done|]. intros j N E. by left. Qed.

Lemma options_step_trans h1 h2 h3 :
  options_step rename preserve h1 h2 → options_step rename preserve h2 h3 →
  options_step rename preserve h1 h3.
Proof.
  intros [L1 S1] [L2 S2]. split; [congruence|]. intros j N E.
  destruct (S1 j N E) as [E2|E2]; destruct (S2 j _ E2) as [E3|E3]; auto.
  rewrite local_options_applied_idemp in E3. auto.
Qed.

Lemma options_step_updated h h' j N :
  options_step rename preserve h h' →
  h !! j = Some (local_options_applied rename preserve N) →
  h' !! j = Some (local_options_applied rename preserve N).
Proof.
  intros [_ S] E. destruct (S j _ E) as [E'|E']; [done|].
  by rewrite local_options_applied_idemp in E'.
Qed.

Lemma options_step_alter h ns N :
  h !! ns = Some N → ns_kind N ≠ ModuleNamespace →
  options_step rename preserve h
    (alter (rename_options_applied rename preserve) ns h).
Proof.
  intros E K. split; [by rewrite length_alter|]. intros j Nj Ej.
  destruct (decide (j = ns)) as [->|Ne].
  - right. rewrite list_lookup_alter_eq, E. rewrite E in Ej. injection Ej as <-.
    cbn. unfold local_options_applied. by rewrite bool_decide_eq_false_2.
  - left. by rewrite list_lookup_alter_ne.
Qed.

Lemma reach_inv h ns j :
  reach h ns j →
  j = ns ∨ ∃ N c, h !! ns = Some N ∧ c ∈ children N ∧ reach h c j.
Proof. destruct 1; [by left | right; eauto]. Qed.

Lemma reach_trans h a b c : reach h a b → reach h b c → reach h a c.
Proof.
  induction 1 as [|ns N x j E Hx Hr IH]; [done|].
  intros Hc. eapply reach_child; eauto.
Qed.

Lemma reach_from_root h :
  wf_heap h → children_linked h → ∀ j, is_Some (h !! j) → reach h 0 j.
Proof.
  intros W Hl j. induction (lt_wf j) as [j _ IH]. intros [N E].
  destruct (parent_namespace N) as [p|] eqn:P.
  - destruct (wf_heap_parent h j N p W E P) as (Lt & _ & Sp).
    destruct (Hl j N p E P) as (Np & Ep & Hin).
    apply (reach_trans h 0 p j); [by apply IH|].
    eapply reach_child; [done..|]. constructor.
  - pose proof (W j N E) as Hw. rewrite P in Hw. destruct Hw as [-> _].
    constructor.
Qed.

Lemma apply_local_rename_options_reach h0 :
  children_bounded h0 →
  ∀ fuel ns h po,
    default [] po = preserve → options_step rename preserve h0 h →
    ns < length h0 → length h0 < fuel + ns →
    ∃ h', apply_local_rename_options fuel ns rename po h = Ok (tt, h') ∧
          options_step rename preserve h h' ∧
          ∀ j N0, reach h0 ns j → h0 !! j = Some N0 →
                  h' !! j = Some (local_options_applied rename preserve N0).
Proof.
  intros Hb. induction fuel as [|fuel IH]; intros ns h po Hpo H0 L Lf; [lia|].
  destruct (lookup_lt_is_Some_2 h0 ns L) as [N0 E0].
  assert (∃ N, h !! ns = Some N ∧ children N = children N0 ∧
               ns_kind N = ns_kind N0 ∧
               local_options_applied rename preserve N
               = local_options_applied rename preserve N0) as (N & E & HC & HK & HU).
  { destruct (proj2 H0 ns N0 E0) as [E|E]; eexists; (split; [exact E|]).
    - done.
    - destruct (local_options_applied_fields N0) as (K & C & _).
      by rewrite local_options_applied_idemp. }
  cbn [apply_local_rename_options]. rewrite Hpo.
  unfold bind at 1, get_heap. rewrite E.
  unfold isinstance_ns. rewrite E.
  set (h1 := if bool_decide (ns_kind N = ModuleNamespace) then h
             else alter (rename_options_applied rename preserve) ns h).
  assert (options_step rename preserve h h1 ∧
          h1 !! ns = Some (local_options_applied rename preserve N0)) as [H1 E1].
  { unfold h1. destruct (bool_decide (ns_kind N = ModuleNamespace)) eqn:K.
    - split; [apply options_step_refl|]. rewrite E, <- HU.
      unfold local_options_applied. by rewrite K.
    - apply bool_decide_eq_false in K. split; [by eapply options_step_alter|].
      rewrite list_lookup_alter_eq, E, <- HU. cbn.
      unfold local_options_applied. by rewrite bool_decide_eq_false_2. }
  assert (∀ l h_a,
            (∀ c, c ∈ l → ns < c < length h0) →
            options_step rename preserve h0 h_a →
            ∃ h_b,
              iterM (λ c, apply_local_rename_options fuel c rename (Some preserve))
                l h_a = Ok (tt, h_b) ∧
              options_step rename preserve h_a h_b ∧
              ∀ c j Nj, c ∈ l → reach h0 c j → h0 !! j = Some Nj →
                        h_b !! j = Some (local_options_applied rename preserve Nj))
    as Hiter.
  { induction l as [|c l IHl]; intros h_a Hl Ha.
    - exists h_a. split; [done|]. split; [apply options_step_refl|].
      intros c j Nj Hc. by apply elem_of_nil in Hc.
    - destruct (IH c h_a (Some preserve)) as (h_c & Rc & Sc & Uc);
        [done | done | | |].
      { apply Hl. by left. }
      { assert (ns < c < length h0) by (apply Hl; by left). lia. }
      destruct (IHl h_c) as (h_b & Rb & Sb & Ub).
      { intros x Hx. apply Hl. by right. }
      { by eapply options_step_trans. }
      exists h_b. split; [|split; [by eapply options_step_trans|]].
      + cbn [iterM]. unfold bind. by rewrite Rc.
      + intros x j Nj [->|Hx]%elem_of_cons Hr Ej.
        * eapply options_step_updated; [exact Sb|]. by eapply Uc.
        * by eapply Ub. }
  destruct (Hiter (children N) h1) as (h' & R & S' & U').
  { intros c Hc. rewrite HC in Hc. by eapply Hb. }
  { by eapply options_step_trans. }
  exists h'. split; [|split; [by eapply options_step_trans|]].
  - unfold bind. fold h1.
    destruct (bool_decide (ns_kind N = ModuleNamespace)); exact R.
  - intros j Nj Hr Ej. apply reach_inv in Hr as [->|(N0' & c & E0' & Hc & Hr)].
    + rewrite E0 in Ej. injection Ej as <-.
      by eapply options_step_updated.
    + rewrite E0 in E0'. injection E0' as <-. rewrite <- HC in Hc.
      by eapply U'.
Qed.

(** X25.  On a namespace tree whose [children] lists agree with the parent
    references, [apply_local_rename_options], called on the module
    namespace, visits every namespace: in each one that is not a module
    namespace it turns off the flag of every binding when [rename_locals] is
    false, and of the bindings named in [preserve_locals] otherwise; the
    module namespace and everything else is left as it was. *)
Theorem apply_local_rename_options_all h po :
  default [] po = preserve →
  wf_heap h → children_bounded h → children_linked h → is_Some (h !! 0) →
  apply_local_rename_options (S (length h)) 0 rename po h
  = Ok (tt, local_options_applied rename preserve <$> h).
Proof.
  intros Hpo W Hb Hl H0.
  destruct (apply_local_rename_options_reach h Hb (S (length h)) 0 h po)
    as (h' & R & [L S'] & U); [done | apply options_step_refl | | lia |].
  { by apply lookup_lt_is_Some. }
  rewrite R. do 2 f_equal. apply list_eq. intros j.
  rewrite list_lookup_fmap. destruct (h !! j) as [N|] eqn:E; cbn.
  - apply U; [|done]. by apply reach_from_root.
  - apply lookup_ge_None. rewrite L. by apply lookup_ge_None.
Qed.
End local_options.

Lemma children_boundedb_correct h : children_boundedb h = true → children_bounded h.
Proof.
  unfold children_boundedb. rewrite forallb_forall. intros H i N c E Hc.
  assert (In (i, N) (imap pair h)) as Hin.
  { apply list_elem_of_In, list_elem_of_lookup. exists i.
    by rewrite list_lookup_imap, E. }
  specialize (H _ Hin). cbn in H. rewrite forallb_forall in H.
  apply list_elem_of_In in Hc. specialize (H c Hc).
  by apply bool_decide_eq_true in H.
Qed.

Lemma children_linkedb_correct h : children_linkedb h = true → children_linked h.
Proof.
  unfold children_linkedb. rewrite forallb_forall. intros H j N p E P.
  assert (In (j, N) (imap pair h)) as Hin.
  { apply list_elem_of_In, list_elem_of_lookup. exists j.
    by rewrite list_lookup_imap, E. }
  specialize (H _ Hin). cbn in H. rewrite P in H.
  destruct (h !! p) as [Np|]; [|done].
  exists Np. split; [done|]. by apply bool_decide_eq_true in H.
Qed.

(** X25 at [nonlocal_in_method_heap], with [self] preserved. *)
Lemma apply_local_rename_options_all_witness :
  apply_local_rename_options (S (length nonlocal_in_method_heap)) 0 true
    (Some ["self"]) nonlocal_in_method_heap
  = Ok (tt, local_options_applied true ["self"] <$> nonlocal_in_method_heap).
Proof.
  apply (apply_local_rename_options_all true ["self"] nonlocal_in_method_heap
           (Some ["self"])).
  - reflexivity.
  - apply wf_heapb_correct. vm_compute. reflexivity.
  - apply children_boundedb_correct. vm_compute. reflexivity.
  - apply children_linkedb_correct. vm_compute. reflexivity.
  - vm_compute. eexists. reflexivity.
Defined.

(** ** The shape of the namespace tree *)

Lemma is_namespace_class n : is_namespace n = true → class_name n ∈ namespace_nodes.
Proof.
  destruct n as [| ? [] | | | ? [] | | | | | | | | |]; try done; intros _;
    unfold namespace_nodes; set_solver.
Qed.

Lemma grows_trans h1 h2 h3 : grows h1 h2 → grows h2 h3 → grows h1 h3.
Proof.
  induction 1; intros H3; [done|..].
  - eapply grows_child; eauto.
  - eapply grows_global; eauto.
  - eapply grows_nonlocal; eauto.
Qed.

Lemma grows_length h h' : grows h h' → length h ≤ length h'.
Proof.
  induction 1 as [|h c r nm p h' Lp Hc Hr H IH|h ns names h' H IH|h ns names h' H IH];
    [done|..]; rewrite length_alter in IH; [|done..].
  rewrite length_app in IH. cbn in IH. lia.
Qed.

Lemma namespace_tree_alter f ns h :
  (∀ N, children (f N) = children N ∧ parent_namespace (f N) = parent_namespace N ∧
        namespace_node (f N) = namespace_node N) →
  namespace_tree h → namespace_tree (alter f ns h).
Proof.
  intros Hf [Hb Hl Hp Hd Hn].
  assert (∀ i N', alter f ns h !! i = Some N' →
            ∃ N, h !! i = Some N ∧ children N' = children N ∧
                 parent_namespace N' = parent_namespace N ∧
                 namespace_node N' = namespace_node N) as Hback.
  { intros i N' E. destruct (decide (i = ns)) as [->|Ne].
    - rewrite list_lookup_alter_eq in E. destruct (h !! ns) as [N|]; [|done].
      injection E as <-. exists N. split; [done | apply Hf].
    - rewrite list_lookup_alter_ne in E by done. eauto. }
  assert (∀ i N, h !! i = Some N →
            ∃ N', alter f ns h !! i = Some N' ∧ children N' = children N ∧
                  parent_namespace N' = parent_namespace N) as Hfwd.
  { intros i N E. destruct (decide (i = ns)) as [->|Ne].
    - rewrite list_lookup_alter_eq, E. eexists. split; [done|].
      destruct (Hf N) as (? & ? & _). done.
    - rewrite list_lookup_alter_ne by done. eauto. }
  split.
  - intros i N' c E Hc. destruct (Hback i N' E) as (N & E0 & C & _).
    rewrite length_alter. rewrite C in Hc. eauto.
  - intros j N' p E P. destruct (Hback j N' E) as (N & E0 & _ & P0 & _).
    rewrite P0 in P. destruct (Hl j N p E0 P) as (Np & Ep & Hin).
    destruct (Hfwd p Np Ep) as (Np' & Ep' & C' & _).
    exists Np'. by rewrite C'.
  - intros i N' c E Hc. destruct (Hback i N' E) as (N & E0 & C & _).
    rewrite C in Hc. destruct (Hp i N c E0 Hc) as (Nc & Ec & Pc).
    destruct (Hfwd c Nc Ec) as (Nc' & Ec' & _ & P').
    exists Nc'. by rewrite P'.
  - intros i N' E. destruct (Hback i N' E) as (N & E0 & C & _).
    rewrite C. eauto.
  - intros i N' E. destruct (Hback i N' E) as (N & E0 & _ & _ & Nd).
    rewrite Nd. eauto.
Qed.

Lemma namespace_tree_child h c r nm p :
  p < length h → ref_class r ∈ namespace_nodes → namespace_tree h →
  namespace_tree (alter (append_child (length h)) p
                    (h ++ [set_parent_namespace p (Namespace_init c r nm)])).
Proof.
  intros Lp Hr [Hb Hl Hp Hd Hn].
  set (Nnew := set_parent_namespace p (Namespace_init c r nm)).
  set (h2 := alter (append_child (length h)) p (h ++ [Nnew])).
  assert (length h2 = S (length h)) as L2.
  { unfold h2. rewrite length_alter, length_app. cbn. lia. }
  assert (∀ i N2, h2 !! i = Some N2 →
            (∃ N, h !! i = Some N ∧ parent_namespace N2 = parent_namespace N ∧
                  namespace_node N2 = namespace_node N ∧
                  (i ≠ p ∧ children N2 = children N
                   ∨ i = p ∧ children N2 = children N ++ [length h]))
            ∨ (i = length h ∧ N2 = Nnew)) as Hback.
  { intros i N2 E. unfold h2 in E. destruct (decide (i = p)) as [->|Ne].
    - rewrite list_lookup_alter_eq, lookup_app_l in E by done.
      destruct (h !! p) as [N|] eqn:Ep; [|done]. injection E as <-.
      left. exists N. repeat split; try done. by right.
    - rewrite list_lookup_alter_ne in E by done.
      destruct (decide (i < length h)) as [Lt|Ge].
      + rewrite lookup_app_l in E by done. left. exists N2.
        repeat split; try done. by left.
      + rewrite lookup_app_r in E by lia.
        destruct (i - length h) as [|k] eqn:Hk; [|by destruct k].
        injection E as <-. right. split; [lia|done]. }
  assert (∀ i N, h !! i = Some N →
            ∃ N2, h2 !! i = Some N2 ∧ parent_namespace N2 = parent_namespace N ∧
                  (∀ x, x ∈ children N → x ∈ children N2)) as Hfwd.
  { intros i N E. apply lookup_lt_Some in E as Li. unfold h2.
    destruct (decide (i = p)) as [->|Ne].
    - rewrite list_lookup_alter_eq, lookup_app_l, E by done.
      eexists. split; [done|]. split; [done|]. intros x Hx. cbn.
      apply elem_of_app. by left.
    - rewrite list_lookup_alter_ne, lookup_app_l, E by done. eauto. }
  assert (h2 !! length h = Some Nnew) as Enew.
  { unfold h2. rewrite list_lookup_alter_ne by lia.
    by rewrite lookup_app_r, Nat.sub_diag by done. }
  split.
  - intros i N2 x E Hx. rewrite L2.
    destruct (Hback i N2 E) as [(N & E0 & _ & _ & [[_ C]|[-> C]])|[-> ->]].
    + rewrite C in Hx. pose proof (Hb i N x E0 Hx). lia.
    + rewrite C in Hx. apply elem_of_app in Hx as [Hx|Hx].
      * pose proof (Hb p N x E0 Hx). lia.
      * apply list_elem_of_singleton in Hx as ->. lia.
    + by apply elem_of_nil in Hx.
  - intros j N2 q E P.
    destruct (Hback j N2 E) as [(N & E0 & P0 & _)|[-> ->]].
    + rewrite P0 in P. destruct (Hl j N q E0 P) as (Nq & Eq & Hin).
      destruct (Hfwd q Nq Eq) as (Nq2 & Eq2 & _ & Hsub). eauto.
    + cbn in P. injection P as <-.
      destruct (lookup_lt_is_Some_2 h p Lp) as [Np Ep].
      exists (append_child (length h) Np). split.
      * unfold h2. by rewrite list_lookup_alter_eq, lookup_app_l, Ep.
      * cbn. apply elem_of_app. right. by apply list_elem_of_singleton.
  - intros i N2 x E Hx.
    destruct (Hback i N2 E) as [(N & E0 & _ & _ & [[_ C]|[-> C]])|[-> ->]].
    + rewrite C in Hx. destruct (Hp i N x E0 Hx) as (Nx & Ex & Px).
      destruct (Hfwd x Nx Ex) as (Nx2 & Ex2 & Px2 & _).
      exists Nx2. by rewrite Px2.
    + rewrite C in Hx. apply elem_of_app in Hx as [Hx|Hx].
      * destruct (Hp p N x E0 Hx) as (Nx & Ex & Px).
        destruct (Hfwd x Nx Ex) as (Nx2 & Ex2 & Px2 & _).
        exists Nx2. by rewrite Px2.
      * apply list_elem_of_singleton in Hx as ->. by exists Nnew.
    + by apply elem_of_nil in Hx.
  - intros i N2 E.
    destruct (Hback i N2 E) as [(N & E0 & _ & _ & [[_ C]|[-> C]])|[-> ->]].
    + rewrite C. eauto.
    + rewrite C. apply NoDup_app. split; [eauto|]. split; [|apply NoDup_singleton].
      intros x Hx ->%list_elem_of_singleton. pose proof (Hb p N _ E0 Hx). lia.
    + constructor.
  - intros i N2 E.
    destruct (Hback i N2 E) as [(N & E0 & _ & Nd & _)|[-> ->]].
    + rewrite Nd. eauto.
    + done.
Qed.

Lemma grows_namespace_tree h h' : grows h h' → namespace_tree h → namespace_tree h'.
Proof.
  induction 1 as [|h c r nm p h' Lp Hc Hr H IH|h ns names h' H IH|h ns names h' H IH];
    intros T; [done|..]; apply IH.
  - by apply namespace_tree_child.
  - by apply namespace_tree_alter.
  - by apply namespace_tree_alter.
Qed.

Lemma pc_bind {A B} (m : M A) (k : A → M B) h Φ :
  pc m h (λ a h1, pc (k a) h1 Φ) → pc (bind m k) h Φ.
Proof.
  unfold pc, bind. intros H b h' E.
  destruct (m h) as [[a h1]|] eqn:Em; [|done]. by eapply H.
Qed.

Lemma pc_mono {A} (m : M A) h (Φ Ψ : A → heap → Prop) :
  pc m h Φ → (∀ a h', Φ a h' → Ψ a h') → pc m h Ψ.
Proof. unfold pc. eauto. Qed.

Lemma pc_ret {A} (a : A) h (Φ : A → heap → Prop) : Φ a h → pc (ret a) h Φ.
Proof. by intros H ? ? [= <- <-]. Qed.

Lemma pc_raise {A} e h (Φ : A → heap → Prop) : pc (raise e) h Φ.
Proof. by intros ? ?. Qed.

(** Sequencing, for computations under which the heap grows. *)
Lemma pc_seq {A B} h0 h (m : M A) (k : A → M B) (R : A → heap → Prop) :
  grows h0 h →
  pc m h (λ a h1, grows h h1 ∧ R a h1) →
  (∀ a h1, grows h0 h1 → length h ≤ length h1 → R a h1 →
           pc (k a) h1 (λ _ h', grows h0 h')) →
  pc (bind m k) h (λ _ h', grows h0 h').
Proof.
  intros G Hm Hk. apply pc_bind. intros a h1 E. destruct (Hm a h1 E) as [G1 HR].
  apply Hk; [by eapply grows_trans | by apply grows_length | done].
Qed.

Lemma pc_done {A} h0 h (a : A) :
  grows h0 h → pc (ret a) h (λ _ h', grows h0 h').
Proof. intros G. by apply pc_ret. Qed.

Lemma pc_new_child_gen {B} c r nm p (k : nat → M B) h Φ :
  pc (k (length h))
     (alter (append_child (length h)) p
        (h ++ [set_parent_namespace p (Namespace_init c r nm)])) Φ →
  pc (x <- alloc (Namespace_init c r nm) ;; add_child p x ;; k x) h Φ.
Proof.
  intros Hk.
  pose proof (new_child_heap c r nm p h) as E.
  unfold pc. unfold bind in *. cbn in *.
  unfold alloc, modify in *. cbn in *. injection E as E. rewrite E.
  apply Hk.
Qed.

Lemma grows_new_child c r nm p h :
  p < length h → c ≠ ModuleNamespace → ref_class r ∈ namespace_nodes →
  let h1 := alter (append_child (length h)) p
              (h ++ [set_parent_namespace p (Namespace_init c r nm)]) in
  grows h h1 ∧ length h1 = S (length h).
Proof.
  intros Lp Hc Hr h1. split.
  - eapply grows_child; [done..|]. constructor.
  - unfold h1. rewrite length_alter, length_app. cbn. lia.
Qed.

Lemma pc_new_child {B} c r nm p (k : nat → M B) h0 h :
  grows h0 h → p < length h → c ≠ ModuleNamespace →
  ref_class r ∈ namespace_nodes →
  (∀ h1, grows h0 h1 → length h1 = S (length h) →
         pc (k (length h)) h1 (λ _ h', grows h0 h')) →
  pc (x <- alloc (Namespace_init c r nm) ;; add_child p x ;; k x) h
     (λ _ h', grows h0 h').
Proof.
  intros G Lp Hc Hr Hk. apply pc_new_child_gen.
  destruct (grows_new_child c r nm p h Lp Hc Hr) as [G1 L1].
  apply Hk; [by eapply grows_trans | done].
Qed.

Lemma pc_mapM {A B} (f : A → M B) l h :
  (∀ x h1, length h ≤ length h1 → pc (f x) h1 (λ _ h2, grows h1 h2)) →
  pc (mapM f l) h (λ _ h', grows h h' ∧ True).
Proof.
  intros Hf. revert h Hf. induction l as [|x l IH]; intros h Hf.
  - apply pc_ret. split; [constructor|done].
  - cbn [mapM]. apply pc_bind. intros y h1 E1.
    pose proof (Hf x h (le_n _) y h1 E1) as G1. cbn in G1.
    apply pc_bind. intros l' h2 E2.
    destruct (IH h1) with (a := l') (h' := h2) as [G2 _]; [|done|].
    { intros z h3 L3. apply Hf. apply grows_length in G1. lia. }
    apply pc_ret. split; [by eapply grows_trans|done].
Qed.

Lemma pc_mapM_option {A B} (f : A → M B) o h :
  (∀ x, pc (f x) h (λ _ h2, grows h h2)) →
  pc (mapM_option f o) h (λ _ h', grows h h' ∧ True).
Proof.
  intros Hf. destruct o as [x|]; cbn [mapM_option].
  - apply pc_bind. intros y h1 E1. apply pc_ret. split; [by eapply Hf|done].
  - apply pc_ret. split; [constructor|done].
Qed.

Section shape.
Variable rec : ast → nat → M ast.
Hypothesis Hrec : ∀ n ns h, ns < length h → pc (rec n ns) h (λ _ h', grows h h').

Lemma pc_rec n ns h :
  ns < length h → pc (rec n ns) h (λ _ h', grows h h' ∧ True).
Proof. intros L a h' E. split; [by eapply Hrec|done]. Qed.

Lemma pc_rec_list l ns h :
  ns < length h → pc (mapM (λ n, rec n ns) l) h (λ _ h', grows h h' ∧ True).
Proof. intros L. apply pc_mapM. intros x h1 L1. apply Hrec. lia. Qed.

Lemma pc_rec_option o ns h :
  ns < length h →
  pc (mapM_option (λ n, rec n ns) o) h (λ _ h', grows h h' ∧ True).
Proof. intros L. apply pc_mapM_option. intros x. by apply Hrec. Qed.

Lemma pc_rec_options l ns h :
  ns < length h →
  pc (mapM (mapM_option (λ n, rec n ns)) l) h (λ _ h', grows h h' ∧ True).
Proof.
  intros L. apply pc_mapM. intros o h1 L1.
  eapply pc_mono; [apply pc_rec_option; lia|]. by intros ? ? [? _].
Qed.

Lemma pc_assign_arg p F a h :
  p < length h → F < length h →
  pc (assign_arg rec p F a) h (λ _ h', grows h h').
Proof.
  intros Lp LF. unfold assign_arg.
  apply (pc_seq h h _ _ (λ _ _, True)); [constructor|by apply pc_rec|].
  intros a' h1 G1 L1 _. destruct (annotation_of a') as [an|]; [|by apply pc_done].
  apply (pc_seq h h1 _ _ (λ _ _, True)); [done|apply pc_rec; lia|].
  intros an' h2 G2 L2 _. by apply pc_done.
Qed.

Lemma pc_assign_kwonlyarg p F a h :
  p < length h → F < length h →
  pc (assign_kwonlyarg rec p F a) h (λ _ h', grows h h').
Proof.
  intros Lp LF. unfold assign_kwonlyarg.
  apply (pc_seq h h _ _ (λ _ _, True)); [constructor|by apply pc_rec|].
  intros a' h1 G1 L1 _. destruct a'; try apply pc_raise.
  cbn [getattr_annotation]. apply pc_bind. intros an h1' E.
  injection E as -> <-.
  destruct an as [an|]; [|by apply pc_done].
  apply (pc_seq h h1 _ _ (λ _ _, True)); [done|apply pc_rec; lia|].
  intros an' h2 G2 L2 _. by apply pc_done.
Qed.

Lemma pc_assign_arguments args p F h :
  p < length h → F < length h →
  pc (assign_arguments_to_namespace rec args p F) h (λ _ h', grows h h' ∧ True).
Proof.
  intros Lp LF. eapply pc_mono; [|intros a h' G; split; [exact G|done]].
  destruct args; try apply pc_raise. cbn [assign_arguments_to_namespace].
  apply (pc_seq h h _ _ (λ _ _, True)); [constructor| |].
  { apply pc_mapM. intros x h1 L1. apply pc_assign_arg; lia. }
  intros po' h1 G1 L1 _.
  apply (pc_seq h h1 _ _ (λ _ _, True)); [done| |].
  { apply pc_mapM. intros x h2 L2. apply pc_assign_arg; lia. }
  intros ar' h2 G2 L2 _.
  apply (pc_seq h h2 _ _ (λ _ _, True)); [done| |].
  { apply pc_mapM. intros x h3 L3. apply pc_assign_kwonlyarg; lia. }
  intros ko' h3 G3 L3 _.
  apply (pc_seq h h3 _ _ (λ _ _, True)); [done|apply pc_rec_options; lia|].
  intros kd' h4 G4 L4 _.
  apply (pc_seq h h4 _ _ (λ _ _, True)); [done|apply pc_rec_list; lia|].
  intros de' h5 G5 L5 _.
  apply (pc_seq h h5 _ _ (λ _ _, True)); [done|apply pc_rec_option; lia|].
  intros va' h6 G6 L6 _.
  apply (pc_seq h h6 _ _ (λ _ _, True)); [done|apply pc_rec_option; lia|].
  intros kw' h7 G7 L7 _. by apply pc_done.
Qed.

Lemma pc_assign_generators g : ∀ K it h0 h,
  grows h0 h → K < length h → it < length h →
  pc (assign_generators rec K it g) h (λ _ h', grows h0 h').
Proof.
  induction g as [|x g IH]; intros K it h0 h G LK Li; [by apply pc_done|].
  destruct x; try apply pc_raise. cbn [assign_generators].
  apply (pc_seq h0 h _ _ (λ _ _, True)); [done|by apply pc_rec|].
  intros t' h1 G1 L1 _.
  apply (pc_seq h0 h1 _ _ (λ _ _, True)); [done|apply pc_rec; lia|].
  intros i' h2 G2 L2 _.
  apply (pc_seq h0 h2 _ _ (λ _ _, True)); [done|apply pc_rec_list; lia|].
  intros fs' h3 G3 L3 _.
  apply pc_bind. intros g' h4 E4.
  pose proof (IH K K h0 h3 G3 ltac:(lia) ltac:(lia) g' h4 E4) as G4.
  by apply pc_done.
Qed.

Lemma pc_scopes c node nm ns t h :
  c ≠ ModuleNamespace → class_name node ∈ namespace_nodes → ns < length h →
  pc match t with
     | _ :: _ =>
         annotation_namespace <-
           alloc (Namespace_init AnnotationNamespace (ref_of node) nm) ;;
         add_child ns annotation_namespace ;;
         inner <- alloc (Namespace_init c (ref_of node) nm) ;;
         add_child annotation_namespace inner ;;
         t <- mapM (λ n, rec n annotation_namespace) t ;;
         ret (inner, t)
     | [] =>
         inner <- alloc (Namespace_init c (ref_of node) nm) ;;
         add_child ns inner ;;
         ret (inner, t)
     end h (λ created h', grows h h' ∧ created.1 < length h').
Proof.
  intros Hc Hn L. destruct t as [|x t].
  - apply pc_new_child_gen.
    destruct (grows_new_child c (ref_of node) nm ns h L Hc Hn) as [G1 L1].
    apply pc_ret. cbn [fst]. split; [done | lia].
  - apply pc_new_child_gen.
    destruct (grows_new_child AnnotationNamespace (ref_of node) nm ns h L)
      as [G1 L1]; [done..|].
    set (h1 := alter (append_child (length h)) ns
                 (h ++ [set_parent_namespace ns
                          (Namespace_init AnnotationNamespace (ref_of node) nm)])) in *.
    pose proof (pc_new_child_gen c (ref_of node) nm (length h)
                  (λ inner, t0 <- mapM (λ n, rec n (length h)) (x :: t) ;;
                            ret (inner, t0)) h1
                  (λ created h', grows h h' ∧ created.1 < length h')) as Hstep.
    apply Hstep. clear Hstep.
    destruct (grows_new_child c (ref_of node) nm (length h) h1) as [G2 L2];
      [lia|done..|].
    set (h2 := alter (append_child (length h1)) (length h)
                 (h1 ++ [set_parent_namespace (length h)
                           (Namespace_init c (ref_of node) nm)])) in *.
    apply pc_bind. intros t0 h3 Em.
    destruct (pc_rec_list (x :: t) (length h) h2 ltac:(lia) t0 h3 Em) as [G3 _].
    apply pc_ret. cbn [fst]. split; [eauto using grows_trans|].
    apply grows_length in G3. lia.
Qed.

Lemma pc_create_comprehension_namespace node ns h :
  ns < length h →
  pc (create_comprehension_namespace rec node ns) h (λ _ h', grows h h').
Proof.
  intros L. destruct node as [| | | |a c e g|a k v g| | | | | | | |];
    try apply pc_raise.
  - cbn [create_comprehension_namespace].
    apply pc_new_child; [constructor|done|done|by apply is_namespace_class|].
    intros h1 G1 L1.
    apply (pc_seq h h1 _ _ (λ _ _, True)); [done|apply pc_rec; lia|].
    intros e' h2 G2 L2 _.
    apply pc_bind. intros g' h3 E3.
    pose proof (pc_assign_generators g (length h) ns h h2 G2 ltac:(lia) ltac:(lia)
                  g' h3 E3) as G3.
    by apply pc_done.
  - cbn [create_comprehension_namespace].
    apply pc_new_child; [constructor|done|done|by apply is_namespace_class|].
    intros h1 G1 L1.
    apply (pc_seq h h1 _ _ (λ _ _, True)); [done|apply pc_rec; lia|].
    intros k' h2 G2 L2 _.
    apply (pc_seq h h2 _ _ (λ _ _, True)); [done|apply pc_rec; lia|].
    intros v' h3 G3 L3 _.
    apply pc_bind. intros g' h4 E4.
    pose proof (pc_assign_generators g (length h) ns h h3 G3 ltac:(lia) ltac:(lia)
                  g' h4 E4) as G4.
    by apply pc_done.
Qed.

Lemma pc_create_functiondef_namespace node ns h :
  ns < length h →
  pc (create_functiondef_namespace rec node ns) h (λ _ h', grows h h').
Proof.
  intros L. destruct node as [|a y nm ar b d r t| | | | | | | | | | | |];
    try apply pc_raise.
  unfold create_functiondef_namespace.
  apply (pc_seq h h _ _ (λ created h1, created.1 < length h1)); [constructor| |].
  { apply pc_scopes; [done|by apply is_namespace_class|done]. }
  intros [F t'] h1 G1 L1 LF. cbn [fst] in LF.
  apply (pc_seq h h1 _ _ (λ _ _, True)); [done| |].
  { apply pc_mapM_option. intros x.
    eapply pc_mono; [apply pc_assign_arguments; lia|]. by intros ? ? [? _]. }
  intros ar' h2 G2 L2 _.
  apply (pc_seq h h2 _ _ (λ _ _, True)); [done|apply pc_rec_list; lia|].
  intros b' h3 G3 L3 _.
  apply (pc_seq h h3 _ _ (λ _ _, True)); [done|apply pc_rec_list; lia|].
  intros d' h4 G4 L4 _.
  apply (pc_seq h h4 _ _ (λ _ _, True)); [done|apply pc_rec_option; lia|].
  intros r' h5 G5 L5 _. by apply pc_done.
Qed.

Lemma pc_create_lambda_namespace node ns h :
  ns < length h →
  pc (create_lambda_namespace rec node ns) h (λ _ h', grows h h').
Proof.
  intros L. destruct node as [| |a ar b| | | | | | | | | | |];
    try apply pc_raise.
  cbn [create_lambda_namespace].
  apply pc_new_child; [constructor|done|done|by apply is_namespace_class|].
  intros h1 G1 L1.
  apply (pc_seq h h1 _ _ (λ _ _, True)); [done|apply pc_assign_arguments; lia|].
  intros ar' h2 G2 L2 _.
  apply (pc_seq h h2 _ _ (λ _ _, True)); [done|apply pc_rec; lia|].
  intros b' h3 G3 L3 _. by apply pc_done.
Qed.

Lemma pc_create_class_namespace node ns h :
  ns < length h →
  pc (create_class_namespace rec node ns) h (λ _ h', grows h h').
Proof.
  intros L. destruct node as [| | |a nm ba k b d t| | | | | | | | | |];
    try apply pc_raise.
  unfold create_class_namespace.
  apply (pc_seq h h _ _ (λ created h1, created.1 < length h1)); [constructor| |].
  { apply pc_scopes; [done|by apply is_namespace_class|done]. }
  intros [C t'] h1 G1 L1 LC. cbn [fst] in LC.
  apply (pc_seq h h1 _ _ (λ _ _, True)); [done|apply pc_rec_list; lia|].
  intros ba' h2 G2 L2 _.
  apply (pc_seq h h2 _ _ (λ _ _, True)); [done|apply pc_rec_list; lia|].
  intros k' h3 G3 L3 _.
  apply (pc_seq h h3 _ _ (λ _ _, True)); [done|apply pc_rec_list; lia|].
  intros b' h4 G4 L4 _.
  apply (pc_seq h h4 _ _ (λ _ _, True)); [done|apply pc_rec_list; lia|].
  intros d' h5 G5 L5 _. by apply pc_done.
Qed.

Lemma grows_alter_nonlocal names ns h :
  grows h (alter (update_nonlocal_names names) ns h).
Proof. eapply grows_nonlocal. constructor. Qed.

Lemma pc_visit_name node ns h :
  pc (visit_name node ns) h (λ _ h', grows h h').
Proof.
  destruct node as [| | | | | | | | | | |a i c| |]; try apply pc_raise.
  unfold visit_name, bind at 1, get_heap. intros n' h'.
  destruct (isinstance_ns h ns ClassNamespace); [|intros [= _ <-]; constructor].
  destruct c.
  - intros [= _ <-]. apply grows_alter_nonlocal.
  - destruct (parent a) as [q|]; [|done].
    destruct (bool_decide (ref_class q = "AugAssign")).
    + intros [= _ <-]. apply grows_alter_nonlocal.
    + intros [= _ <-]. constructor.
  - intros [= _ <-]. constructor.
Qed.

Lemma pc_visit_children node ns h :
  ns < length h →
  pc (visit_children (λ child, rec child ns) node) h (λ _ h', grows h h').
Proof.
  intros L.
  destruct node as
    [a b|a y nm ar b d r t|a ar b|a nm ba k b d t|a c e g|a k v g|a t i fs
    |a po ar va ko kd kw de|a nm an|a names|a names|a i c|a v|a c fs];
    cbn [visit_children]; try (apply pc_done; constructor).
  - apply (pc_seq h h _ _ (λ _ _, True)); [constructor|by apply pc_rec_list|].
    intros; by apply pc_done.
  - apply (pc_seq h h _ _ (λ _ _, True)); [constructor|by apply pc_rec_option|].
    intros ? h1 G1 L1 _.
    apply (pc_seq h h1 _ _ (λ _ _, True)); [done|apply pc_rec_list; lia|].
    intros ? h2 G2 L2 _.
    apply (pc_seq h h2 _ _ (λ _ _, True)); [done|apply pc_rec_list; lia|].
    intros ? h3 G3 L3 _.
    apply (pc_seq h h3 _ _ (λ _ _, True)); [done|apply pc_rec_option; lia|].
    intros ? h4 G4 L4 _.
    apply (pc_seq h h4 _ _ (λ _ _, True)); [done|apply pc_rec_list; lia|].
    intros; by apply pc_done.
  - apply (pc_seq h h _ _ (λ _ _, True)); [constructor|by apply pc_rec|].
    intros ? h1 G1 L1 _.
    apply (pc_seq h h1 _ _ (λ _ _, True)); [done|apply pc_rec; lia|].
    intros; by apply pc_done.
  - apply (pc_seq h h _ _ (λ _ _, True)); [constructor|by apply pc_rec_list|].
    intros ? h1 G1 L1 _.
    apply (pc_seq h h1 _ _ (λ _ _, True)); [done|apply pc_rec_list; lia|].
    intros ? h2 G2 L2 _.
    apply (pc_seq h h2 _ _ (λ _ _, True)); [done|apply pc_rec_list; lia|].
    intros ? h3 G3 L3 _.
    apply (pc_seq h h3 _ _ (λ _ _, True)); [done|apply pc_rec_list; lia|].
    intros ? h4 G4 L4 _.
    apply (pc_seq h h4 _ _ (λ _ _, True)); [done|apply pc_rec_list; lia|].
    intros; by apply pc_done.
  - apply (pc_seq h h _ _ (λ _ _, True)); [constructor|by apply pc_rec|].
    intros ? h1 G1 L1 _.
    apply (pc_seq h h1 _ _ (λ _ _, True)); [done|apply pc_rec_list; lia|].
    intros; by apply pc_done.
  - apply (pc_seq h h _ _ (λ _ _, True)); [constructor|by apply pc_rec|].
    intros ? h1 G1 L1 _.
    apply (pc_seq h h1 _ _ (λ _ _, True)); [done|apply pc_rec; lia|].
    intros ? h2 G2 L2 _.
    apply (pc_seq h h2 _ _ (λ _ _, True)); [done|apply pc_rec_list; lia|].
    intros; by apply pc_done.
  - apply (pc_seq h h _ _ (λ _ _, True)); [constructor|by apply pc_rec|].
    intros ? h1 G1 L1 _.
    apply (pc_seq h h1 _ _ (λ _ _, True)); [done|apply pc_rec; lia|].
    intros ? h2 G2 L2 _.
    apply (pc_seq h h2 _ _ (λ _ _, True)); [done|apply pc_rec_list; lia|].
    intros; by apply pc_done.
  - apply (pc_seq h h _ _ (λ _ _, True)); [constructor|by apply pc_rec_list|].
    intros ? h1 G1 L1 _.
    apply (pc_seq h h1 _ _ (λ _ _, True)); [done|apply pc_rec_list; lia|].
    intros ? h2 G2 L2 _.
    apply (pc_seq h h2 _ _ (λ _ _, True)); [done|apply pc_rec_option; lia|].
    intros ? h3 G3 L3 _.
    apply (pc_seq h h3 _ _ (λ _ _, True)); [done|apply pc_rec_list; lia|].
    intros ? h4 G4 L4 _.
    apply (pc_seq h h4 _ _ (λ _ _, True)); [done|apply pc_rec_options; lia|].
    intros ? h5 G5 L5 _.
    apply (pc_seq h h5 _ _ (λ _ _, True)); [done|apply pc_rec_option; lia|].
    intros ? h6 G6 L6 _.
    apply (pc_seq h h6 _ _ (λ _ _, True)); [done|apply pc_rec_list; lia|].
    intros; by apply pc_done.
  - apply (pc_seq h h _ _ (λ _ _, True)); [constructor|by apply pc_rec_option|].
    intros; by apply pc_done.
  - apply (pc_seq h h _ _ (λ _ _, True)); [constructor|by apply pc_rec_list|].
    intros; by apply pc_done.
Qed.
End shape.

Lemma create_child_namespaces_grows fuel :
  ∀ n ns h, ns < length h →
    pc (create_child_namespaces fuel n ns) h (λ _ h', grows h h').
Proof.
  induction fuel as [|fuel IH]; intros n ns h L; [apply pc_raise|].
  cbn [create_child_namespaces].
  destruct (set_namespace ns n) as
    [a b|a y nm ar b d r t|a ar b|a nm ba k b d t|a c e g|a k v g|a t i fs
    |a po ar va ko kd kw de|a nm an|a names|a names|a i c|a v|a c fs].
  all: try (by apply (pc_visit_children _ IH)).
  - by apply (pc_create_functiondef_namespace _ IH).
  - by apply (pc_create_lambda_namespace _ IH).
  - by apply (pc_create_class_namespace _ IH).
  - by apply (pc_create_comprehension_namespace _ IH).
  - by apply (pc_create_comprehension_namespace _ IH).
  - intros ? ? [= _ <-]. eapply grows_global. constructor.
  - intros ? ? [= _ <-]. apply grows_alter_nonlocal.
  - apply pc_visit_name.
Qed.

Lemma namespace_tree_singleton N :
  children N = [] → parent_namespace N = None →
  ref_class (namespace_node N) ∈ namespace_nodes → namespace_tree [N].
Proof.
  intros C P Hn. split.
  - intros [|i] N' c E Hc; [|by destruct i]. injection E as <-.
    rewrite C in Hc. by apply elem_of_nil in Hc.
  - intros [|j] N' p E Hp; [|by destruct j]. injection E as <-. congruence.
  - intros [|i] N' c E Hc; [|by destruct i]. injection E as <-.
    rewrite C in Hc. by apply elem_of_nil in Hc.
  - intros [|i] N' E; [|by destruct i]. injection E as <-. rewrite C. constructor.
  - intros [|i] N' E; [|by destruct i]. by injection E as <-.
Qed.

(** X26.  The namespace tree that the builder returns for a module is
    consistent: a namespace is among the children of its parent, once, and
    of no other namespace; children are younger than their parent; and every
    namespace was introduced by a node of a class listed in
    [is_namespace]. *)
Theorem create_all_namespaces_tree a body :
  typed (Module a body) →
  ∃ module' h,
    create_all_namespaces (add_parent (Module a body) None) []
    = Ok ((0, module'), h) ∧
    wf_heap h ∧ namespace_tree h.
Proof.
  intros Ht. set (module := add_parent (Module a body) None).
  pose proof (tree_ok_add_parent_module a body Ht) as Hok. fold module in Hok.
  unfold create_all_namespaces.
  assert (ModuleNamespace_init (ref_of module)
          = Some (Namespace_init ModuleNamespace (ref_of module) EmptyString)) as -> by done.
  unfold bind at 1, alloc. cbn [length app].
  set (N0 := Namespace_init ModuleNamespace (ref_of module) EmptyString).
  destruct (create_child_namespaces_spec (S (height module)) module 0 [N0])
    as (module' & h & R & (_ & _ & X) & _); [lia|done|cbn; lia|].
  unfold bind. rewrite R. cbn [ret]. exists module', h. split; [done|]. split.
  - apply (heap_ext_wf [N0] h); [by apply wf_heap_singleton|done].
  - eapply grows_namespace_tree.
    + eapply (create_child_namespaces_grows _ module 0 [N0]); [cbn; lia|exact R].
    + apply namespace_tree_singleton; try done. cbn. unfold namespace_nodes.
      set_solver.
Qed.

(** X26 at [test_typeparam]. *)
Lemma create_all_namespaces_tree_witness :
  ∃ module' h,
    create_all_namespaces (add_parent test_typeparam None) []
    = Ok ((0, module'), h) ∧
    wf_heap h ∧ namespace_tree h.
Proof.
  apply (create_all_namespaces_tree (attrs_of test_typeparam)
           (child_nodes test_typeparam)).
  vm_compute. reflexivity.
Defined.

(** ** Resolution and the namespace tree *)

Lemma resolution_frame_namespace_tree h h' :
  resolution_frame h h' → namespace_tree h → namespace_tree h'.
Proof.
  intros [L F] [Hb Hl Hp Hd Hn].
  assert (∀ i N', h' !! i = Some N' →
            ∃ N, h !! i = Some N ∧ children N' = children N ∧
                 parent_namespace N' = parent_namespace N ∧
                 namespace_node N' = namespace_node N) as Hback.
  { intros i N' E'. destruct (h !! i) as [N|] eqn:E.
    - destruct (F i N E) as (N2 & E2 & (_&_&Nd&P&_&_&C&_)).
      rewrite E' in E2. injection E2 as <-. by exists N.
    - apply lookup_ge_None in E. apply lookup_lt_Some in E'. lia. }
  assert (∀ i N, h !! i = Some N →
            ∃ N', h' !! i = Some N' ∧ children N' = children N ∧
                  parent_namespace N' = parent_namespace N) as Hfwd.
  { intros i N E. destruct (F i N E) as (N' & E' & (_&_&_&P&_&_&C&_)). eauto. }
  split.
  - intros i N' c E Hc. destruct (Hback i N' E) as (N & E0 & C & _).
    rewrite L. rewrite C in Hc. eauto.
  - intros j N' p E P. destruct (Hback j N' E) as (N & E0 & _ & P0 & _).
    rewrite P0 in P. destruct (Hl j N p E0 P) as (Np & Ep & Hin).
    destruct (Hfwd p Np Ep) as (Np' & Ep' & C' & _).
    exists Np'. by rewrite C'.
  - intros i N' c E Hc. destruct (Hback i N' E) as (N & E0 & C & _).
    rewrite C in Hc. destruct (Hp i N c E0 Hc) as (Nc & Ec & Pc).
    destruct (Hfwd c Nc Ec) as (Nc' & Ec' & _ & P').
    exists Nc'. by rewrite P'.
  - intros i N' E. destruct (Hback i N' E) as (N & E0 & C & _).
    rewrite C. eauto.
  - intros i N' E. destruct (Hback i N' E) as (N & E0 & _ & _ & Nd).
    rewrite Nd. eauto.
Qed.

(** X27.  A resolution keeps the namespace tree consistent: the bindings it
    adds leave the lists of children, the parent references and the
    introducing nodes as they are, so that a later walk over the children
    still reaches every namespace. *)
Theorem get_binding_keeps_namespace_tree dir_builtins fuel nm ns h r h' :
  namespace_tree h →
  get_binding dir_builtins fuel nm ns h = Ok (r, h') →
  namespace_tree h' ∧ ∀ j, reach h 0 j ↔ reach h' 0 j.
Proof.
  intros T R.
  pose proof (get_binding_resolution_frame _ _ _ _ _ _ _ R) as F.
  split; [by eapply resolution_frame_namespace_tree|].
  assert (∀ i N, h !! i = Some N →
            ∃ N', h' !! i = Some N' ∧ children N' = children N) as Hfwd.
  { intros i N E. destruct (proj2 F i N E) as (N' & E' & (_&_&_&_&_&_&C&_)). eauto. }
  assert (∀ i N', h' !! i = Some N' →
            ∃ N, h !! i = Some N ∧ children N' = children N) as Hback.
  { intros i N' E'. destruct (h !! i) as [N|] eqn:E.
    - destruct (Hfwd i N E) as (N2 & E2 & C). rewrite E' in E2.
      injection E2 as <-. eauto.
    - apply lookup_ge_None in E. apply lookup_lt_Some in E'.
      destruct F as [L _]. lia. }
  intros j. split.
  - induction 1 as [|a N c j E Hc _ IH]; [constructor|].
    destruct (Hfwd a N E) as (N' & E' & C).
    eapply reach_child; [exact E'|by rewrite C|exact IH].
  - induction 1 as [|a N' c j E' Hc _ IH]; [constructor|].
    destruct (Hback a N' E') as (N & E & C).
    eapply reach_child; [exact E|by rewrite <- C|exact IH].
Qed.

Lemma namespace_treeb_correct h : namespace_treeb h = true → namespace_tree h.
Proof.
  unfold namespace_treeb. intros [[Hb Hl]%andb_prop H]%andb_prop.
  rewrite forallb_forall in H.
  assert (∀ i N, h !! i = Some N →
            forallb (λ c, match h !! c with
                          | Some Nc => bool_decide (parent_namespace Nc = Some i)
                          | None => false
                          end) (children N) = true ∧
            NoDup (children N) ∧
            ref_class (namespace_node N) ∈ namespace_nodes) as Hall.
  { intros i N E.
    assert (In (i, N) (imap pair h)) as Hin.
    { apply list_elem_of_In, list_elem_of_lookup. exists i.
      by rewrite list_lookup_imap, E. }
    specialize (H _ Hin). cbn in H.
    apply andb_prop in H as [[H1 H2]%andb_prop H3].
    apply bool_decide_eq_true in H2, H3. done. }
  split.
  - by apply children_boundedb_correct.
  - by apply children_linkedb_correct.
  - intros i N c E Hc. destruct (Hall i N E) as (H1 & _ & _).
    rewrite forallb_forall in H1. apply list_elem_of_In in Hc.
    specialize (H1 c Hc). destruct (h !! c) as [Nc|]; [|done].
    exists Nc. split; [done|]. by apply bool_decide_eq_true in H1.
  - intros i N E. by destruct (Hall i N E) as (_ & ? & _).
  - intros i N E. by destruct (Hall i N E) as (_ & _ & ?).
Qed.

(** X27 at the method of [nonlocal_in_method], for the name [len]. *)
Lemma get_binding_keeps_namespace_tree_witness :
  namespace_tree len_in_method_heap ∧
  ∀ j, reach nonlocal_in_method_heap 0 j ↔ reach len_in_method_heap 0 j.
Proof.
  apply (get_binding_keeps_namespace_tree some_builtins 5 "len" 3
           nonlocal_in_method_heap (0, 1)).
  - apply namespace_treeb_correct. vm_compute. reflexivity.
  - vm_compute. reflexivity.
Defined.

(** ** Walking up the namespace tree *)

(** X28.  From every namespace of a well-formed namespace tree
    [get_global_namespace] returns the root, which is the module namespace
    and encloses every other namespace. *)
Theorem get_global_namespace_is_root h fuel ns :
  wf_heap h → is_Some (h !! ns) → ns < fuel →
  get_global_namespace fuel h ns = Ok 0 ∧
  isinstance_ns h 0 ModuleNamespace = true ∧
  (ns ≠ 0 → 0 ∈ enclosing_scopes (length h) h ns).
Proof.
  intros W Hs L.
  pose proof (get_global_namespace_root h W fuel ns Hs L) as R.
  destruct (get_global_namespace_chain h W fuel ns 0 R) as [I [E|C]].
  - by subst.
  - done.
Qed.

Lemma get_global_namespace_is_root_witness :
  get_global_namespace 4 nonlocal_in_method_heap 3 = Ok 0 ∧
  isinstance_ns nonlocal_in_method_heap 0 ModuleNamespace = true ∧
  (3 ≠ 0 → 0 ∈ enclosing_scopes (length nonlocal_in_method_heap)
                 nonlocal_in_method_heap 3).
Proof.
  apply (get_global_namespace_is_root nonlocal_in_method_heap 4 3).
  - apply wf_heapb_correct. vm_compute. reflexivity.
  - vm_compute. eexists. reflexivity.
  - lia.
Defined.

(** X29.  [get_nonlocal_namespace] returns [None] for the module namespace
    only.  For every other namespace it returns an enclosing namespace that
    is not a class namespace, and every namespace between the two is a class
    namespace. *)
Theorem get_nonlocal_namespace_skips_classes h fuel ns :
  wf_heap h → is_Some (h !! ns) → ns < fuel →
  ∃ r, get_nonlocal_namespace fuel h ns = Ok r ∧
       match r with
       | None => ns = 0
       | Some p =>
           ns ≠ 0 ∧ p < ns ∧ isinstance_ns h p ClassNamespace = false ∧
           ∃ k, enclosing_scopes (length h) h ns !! k = Some p ∧
                ∀ j q, j < k → enclosing_scopes (length h) h ns !! j = Some q →
                       isinstance_ns h q ClassNamespace = true
       end.
Proof.
  intros W [N E] L.
  exists (nearest_enclosing_non_class h ns).
  split; [apply get_nonlocal_namespace_nearest; eauto|].
  destruct (nearest_enclosing_non_class h ns) as [p|] eqn:P.
  - destruct (nearest_enclosing_non_class_Some h ns p W P) as (Lp & _ & Cp).
    split; [lia|]. split; [done|]. split; [done|].
    unfold nearest_enclosing_non_class in P.
    destruct (list_find _ (enclosing_scopes (length h) h ns)) as [[k x]|] eqn:F;
      [|done].
    injection P as ->. apply list_find_Some in F as (Ek & _ & Hbefore).
    exists k. split; [done|]. intros j q Lj Ej.
    specialize (Hbefore j q Ej Lj). by apply not_false_is_true.
  - destruct (decide (ns_kind N = ModuleNamespace)) as [K|K].
    + by eapply wf_heap_module.
    + destruct (nearest_enclosing_non_class_is_Some h ns N W E K) as [p Hp].
      congruence.
Qed.

Lemma get_nonlocal_namespace_skips_classes_witness :
  ∃ r, get_nonlocal_namespace 4 nonlocal_in_method_heap 3 = Ok r ∧
       match r with
       | None => 3 = 0
       | Some p =>
           3 ≠ 0 ∧ p < 3 ∧
           isinstance_ns nonlocal_in_method_heap p ClassNamespace = false ∧
           ∃ k, enclosing_scopes (length nonlocal_in_method_heap)
                  nonlocal_in_method_heap 3 !! k = Some p ∧
                ∀ j q, j < k →
                  enclosing_scopes (length nonlocal_in_method_heap)
                    nonlocal_in_method_heap 3 !! j = Some q →
                  isinstance_ns nonlocal_in_method_heap q ClassNamespace = true
       end.
Proof.
  apply (get_nonlocal_namespace_skips_classes nonlocal_in_method_heap 4 3).
  - apply wf_heapb_correct. vm_compute. reflexivity.
  - vm_compute. eexists. reflexivity.
  - lia.
Defined.

(** ** The annotations of the variadic parameters *)

Lemma pc_bind_any {A B} (m : M A) (k : A → M B) h Φ :
  (∀ a h1, pc (k a) h1 Φ) → pc (bind m k) h Φ.
Proof. intros H. apply pc_bind. intros a h1 _. apply H. Qed.

Lemma pc_bind_post {A B} (m : M A) (k : A → M B) h
    (Ψ : A → heap → Prop) (Φ : B → heap → Prop) :
  pc m h Ψ → (∀ a h1, Ψ a h1 → pc (k a) h1 Φ) → pc (bind m k) h Φ.
Proof. intros Hm Hk. apply pc_bind. intros a h1 E. apply Hk. by apply Hm. Qed.

Lemma pc_mapM_option_post {A B} (f : A → M B) o h (P : B → Prop) :
  (∀ x h1, pc (f x) h1 (λ y _, P y)) →
  pc (mapM_option f o) h (λ o' _, ∀ y, o' = Some y → P y).
Proof.
  intros Hf. destruct o as [x|]; cbn [mapM_option].
  - apply (pc_bind_post _ _ _ (λ y _, P y)); [apply Hf|].
    intros y h1 Hy. apply pc_ret. by intros ? [= <-].
  - by apply pc_ret.
Qed.

Section variadic.
Variable rec : ast → nat → M ast.
Hypothesis Hrec : ∀ n ns h, pc (rec n ns) h (λ n' _, arg_visited ns n').

Lemma arg_visited_annotation F o :
  (∀ y, o = Some y → arg_visited F y) → annotation_with_parameter o.
Proof.
  intros H v an -> Han. destruct (H v eq_refl) as [O A].
  specialize (A an Han). unfold owned_by in *. congruence.
Qed.

Lemma pc_assign_arguments_variadic args p F h :
  pc (assign_arguments_to_namespace rec args p F) h
     (λ args' _, match args' with
                 | arguments _ _ _ va _ _ kw _ =>
                     annotation_with_parameter va ∧ annotation_with_parameter kw
                 | _ => True
                 end).
Proof.
  destruct args; try apply pc_raise. cbn [assign_arguments_to_namespace].
  do 5 (apply pc_bind_any; intros ? ?).
  apply (pc_bind_post _ _ _ (λ o' _, ∀ y, o' = Some y → arg_visited F y)).
  { apply pc_mapM_option_post. intros x0 hx. apply Hrec. }
  intros va' hva Hva.
  apply (pc_bind_post _ _ _ (λ o' _, ∀ y, o' = Some y → arg_visited F y)).
  { apply pc_mapM_option_post. intros x0 hx. apply Hrec. }
  intros kw' hkw Hkw. apply pc_ret.
  split; by eapply arg_visited_annotation.
Qed.

Lemma pc_functiondef_variadic node ns h :
  pc (create_functiondef_namespace rec node ns) h
     (λ n' _, attrs_of n' = attrs_of node ∧ annotation_of n' = None ∧
              variadic_annotations n').
Proof.
  destruct node as [|a y nm ar b d r t| | | | | | | | | | | |];
    try apply pc_raise.
  unfold create_functiondef_namespace.
  apply pc_bind_any. intros [F t'] hc.
  apply (pc_bind_post _ _ _
           (λ ar' _, ∀ x, ar' = Some x →
              match x with
              | arguments _ _ _ va _ _ kw _ =>
                  annotation_with_parameter va ∧ annotation_with_parameter kw
              | _ => True
              end)).
  { apply pc_mapM_option_post. intros x0 hx. apply pc_assign_arguments_variadic. }
  intros ar' har Har. do 3 (apply pc_bind_any; intros ? ?). apply pc_ret.
  split; [done|]. split; [done|]. cbn.
  destruct ar' as [x|]; [|done]. specialize (Har x eq_refl).
  by destruct x.
Qed.

Lemma pc_lambda_variadic node ns h :
  pc (create_lambda_namespace rec node ns) h
     (λ n' _, attrs_of n' = attrs_of node ∧ annotation_of n' = None ∧
              variadic_annotations n').
Proof.
  destruct node as [| |a ar b| | | | | | | | | | |]; try apply pc_raise.
  cbn [create_lambda_namespace].
  do 2 (apply pc_bind_any; intros ? ?).
  eapply pc_bind_post; [apply pc_assign_arguments_variadic|].
  intros ar' har Har. apply pc_bind_any. intros ? ?. apply pc_ret.
  split; [done|]. split; [done|]. cbn. by destruct ar'.
Qed.

Lemma pc_class_variadic node ns h :
  pc (create_class_namespace rec node ns) h
     (λ n' _, attrs_of n' = attrs_of node ∧ annotation_of n' = None ∧
              variadic_annotations n').
Proof.
  destruct node as [| | |a nm ba k b d t| | | | | | | | | |];
    try apply pc_raise.
  unfold create_class_namespace.
  apply pc_bind_any. intros [C t'] hc.
  do 4 (apply pc_bind_any; intros ? ?). by apply pc_ret.
Qed.

Lemma pc_comprehension_variadic node ns h :
  pc (create_comprehension_namespace rec node ns) h
     (λ n' _, attrs_of n' = attrs_of node ∧ annotation_of n' = None ∧
              variadic_annotations n').
Proof.
  destruct node as [| | | |a c e g|a k v g| | | | | | | |];
    try apply pc_raise; cbn [create_comprehension_namespace].
  - do 4 (apply pc_bind_any; intros ? ?). by apply pc_ret.
  - do 5 (apply pc_bind_any; intros ? ?). by apply pc_ret.
Qed.

Lemma pc_visit_name_same node ns h :
  pc (visit_name node ns) h (λ n' _, n' = node).
Proof.
  destruct node as [| | | | | | | | | | |a i c| |]; try apply pc_raise.
  unfold visit_name, bind at 1, get_heap. intros n' h'.
  destruct (isinstance_ns h ns ClassNamespace); [|by intros [= <- _]].
  destruct c.
  - by intros [= <- _].
  - destruct (parent a) as [q|]; [|done].
    destruct (bool_decide (ref_class q = "AugAssign")); by intros [= <- _].
  - by intros [= <- _].
Qed.

Lemma pc_visit_children_variadic node ns h :
  match node with
  | FunctionDef _ _ _ _ _ _ _ _ | Lambda _ _ _ => False
  | _ => True
  end →
  pc (visit_children (λ child, rec child ns) node) h
     (λ n' _, attrs_of n' = attrs_of node ∧
              (∀ an, annotation_of n' = Some an → owned_by ns an) ∧
              variadic_annotations n').
Proof.
  intros Hnode.
  destruct node as
    [a b|a y nm ar b d r t|a ar b|a nm ba k b d t|a c e g|a k v g|a t i fs
    |a po ar va ko kd kw de|a nm an|a names|a names|a i c|a v|a c fs];
    try done; cbn [visit_children];
    try (repeat (apply pc_bind_any; intros ? ?); by apply pc_ret).
  apply (pc_bind_post _ _ _ (λ o' _, ∀ y, o' = Some y → arg_visited ns y)).
  { apply pc_mapM_option_post. intros x0 hx. apply Hrec. }
  intros an' han Han. apply pc_ret. split; [done|]. split; [|done].
  cbn. intros x ->. by destruct (Han x eq_refl).
Qed.
End variadic.

Lemma create_child_namespaces_arg_visited fuel :
  ∀ n ns h,
    pc (create_child_namespaces fuel n ns) h
       (λ n' _, arg_visited ns n' ∧ variadic_annotations n').
Proof.
  induction fuel as [|fuel IH]; intros n ns h; [apply pc_raise|].
  assert (∀ n ns h, pc (create_child_namespaces fuel n ns) h
                      (λ n' _, arg_visited ns n')) as Hrec.
  { intros n0 ns0 h0. eapply pc_mono; [apply IH|]. by intros ? ? [? _]. }
  cbn [create_child_namespaces].
  pose proof (attrs_of_set_namespace ns n) as Hns.
  assert (∀ m : M ast,
            pc m h (λ n' _, attrs_of n' = attrs_of (set_namespace ns n) ∧
                            (∀ an, annotation_of n' = Some an → owned_by ns an) ∧
                            variadic_annotations n') →
            pc m h (λ n' _, arg_visited ns n' ∧ variadic_annotations n')) as Hpost.
  { intros m Hm. eapply pc_mono; [exact Hm|]. intros n' h' (A & An & V).
    split; [|done]. split; [|done]. unfold owned_by, namespace_of. by rewrite A. }
  assert (∀ m : M ast,
            pc m h (λ n' _, attrs_of n' = attrs_of (set_namespace ns n) ∧
                            annotation_of n' = None ∧ variadic_annotations n') →
            pc m h (λ n' _, arg_visited ns n' ∧ variadic_annotations n')) as Hplain.
  { intros m Hm. apply Hpost. eapply pc_mono; [exact Hm|].
    intros n' h' (A & An & V). split; [done|]. split; [|done].
    rewrite An. by intros. }
  destruct (set_namespace ns n) as
    [a b|a y nm ar b d r t|a ar b|a nm ba k b d t|a c e g|a k v g|a t i fs
    |a po ar va ko kd kw de|a nm an|a names|a names|a i c|a v|a c fs] eqn:En.
  all: try (apply Hpost; by apply (pc_visit_children_variadic _ Hrec)).
  - apply Hplain, (pc_functiondef_variadic _ Hrec).
  - apply Hplain, (pc_lambda_variadic _ Hrec).
  - apply Hplain, pc_class_variadic.
  - apply Hplain, pc_comprehension_variadic.
  - apply Hplain, pc_comprehension_variadic.
  - apply Hplain. intros ? ? [= <- _]. done.
  - apply Hplain. intros ? ? [= <- _]. done.
  - apply Hplain. eapply pc_mono; [apply pc_visit_name_same|].
    by intros ? ? ->.
Qed.

(** ** Type parameters *)

(** A name that is bound in the annotation namespace [A] and not in the
    namespace [I] below it is resolved, from [I], to the binding of [A]. *)
Lemma get_binding_annotation_namespace dir_builtins nm fuel h A I NA NI i b :
  h !! A = Some NA → h !! I = Some NI →
  ns_kind NA = AnnotationNamespace → ns_kind NI ≠ ModuleNamespace →
  parent_namespace NI = Some A →
  nm ∉ global_names NI → Forall (λ b, b_name b ≠ nm) (bindings NI) →
  nm ∉ global_names NA → nm ∉ nonlocal_names NA →
  list_find (λ b, b_name b = nm) (bindings NA) = Some (i, b) →
  get_binding dir_builtins (S (S fuel)) nm I h = Ok ((A, i), h).
Proof.
  intros EA EI KA KI P GI BI GA NlA FA.
  assert (get_nonlocal_namespace (S fuel) h I = Ok (Some A)) as Hn.
  { cbn [get_nonlocal_namespace]. rewrite EI, P.
    unfold isinstance_ns. rewrite EA, KA. done. }
  assert (get_binding dir_builtins (S fuel) nm A h = Ok ((A, i), h)) as HA.
  { apply (get_binding_local dir_builtins fuel nm A h NA i b); try done.
    by rewrite KA. }
  destruct (decide (nm ∈ nonlocal_names NI)) as [Nl|Nl].
  - rewrite (get_binding_nonlocal _ _ _ _ _ _ EI KI GI Nl). by rewrite Hn.
  - assert (list_find (λ b, b_name b = nm) (bindings NI) = None) as FI
      by by apply list_find_None.
    rewrite (get_binding_enclosing _ _ _ _ _ _ EI KI GI Nl FI). by rewrite Hn.
Qed.

(** C4, as amended.  For a function or class definition with type parameters
    the builder puts an annotation namespace [A] between the enclosing
    namespace [ns] and the namespace [I] of the body.  The type parameters
    are annotated with [A] and the parameters with [I].  The annotations of
    the positional and keyword-only parameters, the defaults, the return
    annotation, the decorators (and the bases and keywords of a class) are
    annotated with [ns], and a resolution that starts in [ns] never returns
    a binding of [A]: the type parameters are not visible to them.  The
    annotations of the variadic parameters are annotated with [I], and a
    resolution that starts in [I] returns the binding of [A] for a name
    that is bound in [A] and not in [I]: the type parameters are visible to
    them, and to the body. *)
Theorem annotation_scope_interposed fuel node ns h :
  type_params_of node ≠ [] →
  height node < fuel → tree_ok node → ns < length h →
  ∃ node' h' NA NI,
    create_child_namespaces fuel node ns h = Ok (node', h') ∧
    h' !! length h = Some NA ∧
    introduced_by (ref_of node) AnnotationNamespace ns NA ∧
    h' !! S (length h) = Some NI ∧
    introduced_by (ref_of node) (scope_class node) (length h) NI ∧
    owned_by ns node' ∧
    generic_definition_assigned (length h) (S (length h)) ns node' ∧
    variadic_annotations_assigned (S (length h)) node' ∧
    (∀ dir_builtins nm fuel' h2,
       wf_heap h2 → is_Some (h2 !! ns) → ns + 1 < fuel' →
       ∃ o, owner_of (get_binding dir_builtins fuel' nm ns h2) = Some o ∧
            o ≠ length h) ∧
    (∀ dir_builtins nm fuel' h2 NA2 NI2 i b,
       h2 !! length h = Some NA2 → h2 !! S (length h) = Some NI2 →
       ns_kind NA2 = AnnotationNamespace → ns_kind NI2 = scope_class node →
       parent_namespace NI2 = Some (length h) →
       nm ∉ global_names NI2 → Forall (λ b, b_name b ≠ nm) (bindings NI2) →
       nm ∉ global_names NA2 → nm ∉ nonlocal_names NA2 →
       list_find (λ b, b_name b = nm) (bindings NA2) = Some (i, b) →
       get_binding dir_builtins (S (S fuel')) nm (S (length h)) h2
       = Ok ((length h, i), h2)).
Proof.
  intros Hp Hh Ht L.
  assert (∀ dir_builtins nm fuel' h2,
            wf_heap h2 → is_Some (h2 !! ns) → ns + 1 < fuel' →
            ∃ o, owner_of (get_binding dir_builtins fuel' nm ns h2) = Some o ∧
                 o ≠ length h) as Hvis.
  { intros dir_builtins nm fuel' h2 W2 S2 L2.
    destruct (get_binding_total dir_builtins h2 nm W2 fuel' ns S2 L2)
      as (o & i & h3 & b & R & Lo & _).
    exists o. rewrite R. split; [done | lia]. }
  assert (∀ dir_builtins nm fuel' h2 NA2 NI2 i b,
            h2 !! length h = Some NA2 → h2 !! S (length h) = Some NI2 →
            ns_kind NA2 = AnnotationNamespace → ns_kind NI2 = scope_class node →
            parent_namespace NI2 = Some (length h) →
            nm ∉ global_names NI2 → Forall (λ b, b_name b ≠ nm) (bindings NI2) →
            nm ∉ global_names NA2 → nm ∉ nonlocal_names NA2 →
            list_find (λ b, b_name b = nm) (bindings NA2) = Some (i, b) →
            get_binding dir_builtins (S (S fuel')) nm (S (length h)) h2
            = Ok ((length h, i), h2)) as Hin.
  { intros dir_builtins nm fuel' h2 NA2 NI2 i b EA EI KA KI P GI BI GA NlA FA.
    eapply get_binding_annotation_namespace; try done.
    rewrite KI. by destruct node. }
  destruct (create_child_namespaces_spec fuel node ns h Hh Ht L)
    as (node' & h' & R & (E & O & X) & A & S).
  pose proof (create_child_namespaces_arg_visited fuel node ns h node' h' R)
    as [_ Hva].
  assert (introduces_scope node = true) as Hi by by destruct node.
  specialize (S Hi).
  assert (type_params_of node' ≠ []) as Hp'.
  { intros Hn. apply Hp.
    pose proof (f_equal type_params_of E) as Et.
    rewrite !type_params_of_erase, Hn in Et. symmetry in Et.
    by apply fmap_nil_inv in Et. }
  pose proof (scope_class_erase_eq _ _ E) as Hc.
  destruct node' as [|a' y' nm' ar' b' d' r' t'| |a' nm' ba' k' b' d' t'
                     | | | | | | | | | |]; try done;
    cbn in S, Hp', Hc; rewrite <- Hc.
  - destruct S as (F & St & Ha & Hb & Hd & Hr).
    destruct t' as [|x t']; [done|].
    destruct St as (-> & (NA & HA & IA) & (NI & HI & II) & Ot).
    exists (FunctionDef a' y' nm' ar' b' d' r' (x :: t')), h', NA, NI.
    split; [done|]. split; [done|]. split; [done|]. split; [done|].
    split; [done|]. split; [done|]. split; [by repeat split|].
    split; [|split; [exact Hvis|by rewrite Hc]].
    cbn. destruct ar' as [[| | | | | | |aa po ar va ko kd kw de| | | | | |]|];
      try done.
    cbn in Hva. destruct Hva as [Hv Hk].
    destruct (Ha _ eq_refl) as (_ & _ & _ & _ & _ & _ & Ova & Okw).
    intros v an [->| ->] Han.
    + unfold owned_by. rewrite (Hv v an eq_refl Han). by apply Ova.
    + unfold owned_by. rewrite (Hk v an eq_refl Han). by apply Okw.
  - destruct S as (C & St & Hba & Hk & Hb & Hd).
    destruct t' as [|x t']; [done|].
    destruct St as (-> & (NA & HA & IA) & (NI & HI & II) & Ot).
    exists (ClassDef a' nm' ba' k' b' d' (x :: t')), h', NA, NI.
    split; [done|]. split; [done|]. split; [done|]. split; [done|].
    split; [done|]. split; [done|]. split; [by repeat split|].
    split; [done|]. split; [exact Hvis|by rewrite Hc].
Qed.

(** C4, as amended, at [variadic_generic_example]: the annotation namespace
    is 1, the function namespace 2, the enclosing namespace 0.  From the
    namespace of the annotation of [*args], [T] is resolved to the binding
    of the annotation namespace. *)
Lemma annotation_scope_interposed_witness :
  ∃ node' h',
    create_child_namespaces 5 (add_parent variadic_generic_example None) 0
      eval_module_heap = Ok (node', h') ∧
    generic_definition_assigned 1 2 0 node' ∧
    variadic_annotations_assigned 2 node' ∧
    get_binding some_builtins 2 "T" 2 variadic_generic_heap
    = Ok ((1, 0), variadic_generic_heap).
Proof.
  destruct (annotation_scope_interposed 5
              (add_parent variadic_generic_example None) 0 eval_module_heap)
    as (node' & h' & NA & NI & R & _ & _ & _ & _ & _ & G & V & _ & Hin).
  - discriminate.
  - vm_compute. lia.
  - vm_compute. reflexivity.
  - cbn. lia.
  - exists node', h'. split; [exact R|]. split; [exact G|]. split; [exact V|].
    apply (Hin some_builtins "T" 0 variadic_generic_heap
             (namespace_at variadic_generic_heap 1)
             (namespace_at variadic_generic_heap 2) 0
             (new_binding NameBinding "T")).
    + vm_compute. reflexivity.
    + vm_compute. reflexivity.
    + vm_compute. reflexivity.
    + vm_compute. reflexivity.
    + vm_compute. reflexivity.
    + vm_compute. discriminate.
    + apply (bool_decide_unpack _). vm_compute. exact I.
    + vm_compute. discriminate.
    + vm_compute. discriminate.
    + vm_compute. reflexivity.
Defined.
